(** * Pivoted Cholesky and Woodbury solves

    A shallow embedding of [gpytorch/utils/pivoted_cholesky.py]:
    [pivoted_cholesky], [woodbury_factor] and [woodbury_solve].

    Tensor entries are real numbers extended with one non-value, so that the
    code's arithmetic is followed in exact arithmetic while the two
    operations that have no real result (a division by zero, the square root
    of a negative number) stay visible, as they do in the floating-point
    program, instead of being given an arbitrary real value.

    [pivoted_cholesky] updates tensors of its own in place: its loop is a
    function on the record of what it holds, batch element by batch element.
    The two Woodbury functions work on tensors that the caller keeps: they
    run in a store of tensors, so that what they do to their inputs can be
    stated.  The functions of the tensor library that the code calls
    ([max], [gather], [scatter_], [@], [cholesky], [potrs], ...) are given
    by what they compute.

    Part I holds the model and the notions the statements use, Part II the
    properties, and Part III further properties of the three functions:
    what their results look like, how calls with different arguments
    relate, and where they raise or return values that are not numbers. *)

From Stdlib Require Import Reals Lra Lia List ZArith Bool Arith Permutation FinFun.
Import ListNotations.

Set Implicit Arguments.

(* ================================================================= *)
(** * Part I: the model *)
(* ================================================================= *)

(** ** Scalars *)

(** A tensor entry: a real number, or [NaN], the result of an operation that
    is undefined over the reals.  [NaN] is absorbing for the arithmetic and
    compares false with everything, as an IEEE nan does; the infinities of
    IEEE arithmetic are not told apart from it. *)
Inductive num : Type :=
| Fin (r : R)
| NaN.

Definition nadd (a b : num) : num :=
  match a, b with Fin x, Fin y => Fin (x + y) | _, _ => NaN end.

Definition nsub (a b : num) : num :=
  match a, b with Fin x, Fin y => Fin (x - y) | _, _ => NaN end.

Definition nmul (a b : num) : num :=
  match a, b with Fin x, Fin y => Fin (x * y) | _, _ => NaN end.

Definition ndiv (a b : num) : num :=
  match a, b with
  | Fin x, Fin y => if Req_dec_T y 0 then NaN else Fin (x / y)
  | _, _ => NaN
  end.

Definition nrecip (a : num) : num := ndiv (Fin 1) a.

Definition nsqrt (a : num) : num :=
  match a with
  | Fin x => if Rlt_dec x 0 then NaN else Fin (sqrt x)
  | NaN => NaN
  end.

Definition nabs (a : num) : num :=
  match a with Fin x => Fin (Rabs x) | NaN => NaN end.

Definition nisnan (a : num) : bool :=
  match a with Fin _ => false | NaN => true end.

(** [a <= b] and [a > b] as the program tests them. *)
Definition nleb (a b : num) : bool :=
  match a, b with
  | Fin x, Fin y => if Rle_dec x y then true else false
  | _, _ => false
  end.

Definition ngtb (a b : num) : bool :=
  match a, b with
  | Fin x, Fin y => if Rlt_dec y x then true else false
  | _, _ => false
  end.

(** The real value of an entry ([0] for the non-value) and the entries that
    have one. *)
Definition val (a : num) : R :=
  match a with Fin x => x | NaN => 0%R end.

Definition finite (a : num) : Prop :=
  match a with Fin _ => True | NaN => False end.

(** Default entry of out-of-range reads in the list functions below; the
    program never reads out of range on well-shaped tensors. *)
Definition d0 : num := Fin 0.

(** ** Index arithmetic on lists *)

Definition tab (A : Type) (n : nat) (f : nat -> A) : list A :=
  map f (seq 0 n).

(** [v[i] = x], in place. *)
Fixpoint upd (A : Type) (i : nat) (x : A) (l : list A) : list A :=
  match l, i with
  | [], _ => []
  | _ :: t, O => x :: t
  | h :: t, S j => h :: upd j x t
  end.

(** [torch.gather(v, -1, idx)] on a 1-D tensor. *)
Definition gather (A : Type) (d : A) (v : list A) (idx : list nat) : list A :=
  map (fun i => nth i v d) idx.

(** [v.scatter_(-1, idx, src)] on a 1-D tensor: [v[idx[k]] = src[k]]. *)
Fixpoint scatter (A : Type) (v : list A) (idx : list nat) (src : list A)
  : list A :=
  match idx, src with
  | i :: idx', x :: src' => scatter (upd i x v) idx' src'
  | _, _ => v
  end.

Fixpoint map2 (A B C : Type) (f : A -> B -> C) (l1 : list A) (l2 : list B)
  : list C :=
  match l1, l2 with
  | a :: t1, b :: t2 => f a b :: map2 f t1 t2
  | _, _ => []
  end.

(** ** Reductions *)

Definition nsum (l : list num) : num := fold_right nadd (Fin 0) l.

(** [torch.norm(v, 1)] *)
Definition norm1 (v : list num) : num := nsum (map nabs v).

(** [torch.sum(rows, dim=-2)] of a matrix with [w] columns. *)
Definition colsum (w : nat) (rows : list (list num)) : list num :=
  tab w (fun c => nsum (map (fun r => nth c r d0) rows)).

Definition vsub (u v : list num) : list num := map2 nsub u v.

(** [torch.max] as the CPU kernel of the library computes it: the scan keeps
    the first maximal entry, and stops at the first nan it meets, which it
    returns. *)
Fixpoint tmax_from (best : num) (bi : nat) (i : nat) (l : list num)
  : num * nat :=
  match l with
  | [] => (best, bi)
  | x :: t =>
      if nisnan best then (best, bi)
      else if nleb x best then tmax_from best bi (S i) t
      else tmax_from x i (S i) t
  end.

(** [None] on an empty tensor, where [torch.max] raises. *)
Definition tmax (l : list num) : option (num * nat) :=
  match l with
  | [] => None
  | x :: t => Some (tmax_from x 0 1 t)
  end.

(** Sums over an index range, for the statements. *)
Fixpoint Rsum (n : nat) (f : nat -> R) : R :=
  match n with
  | O => 0%R
  | S k => (Rsum k f + f k)%R
  end.

(** ** Outcomes *)

(** The exceptions of the tensor library are all [RuntimeError]s; the tag
    says which call raised. *)
Inductive exn : Type :=
| EmptyBatch            (* the diagonal of a batch that holds no matrix *)
| NegativeDimension     (* torch.zeros with a negative size *)
| EmptyReduction        (* max of a tensor with no elements *)
| NotPositiveDefinite   (* torch.cholesky *)
| ShapeMismatch         (* operands that do not broadcast or multiply *)
| DanglingRef.          (* a reference to no tensor: never in a run *)

Inductive outcome (A : Type) : Type :=
| Ok (a : A)
| Raise (e : exn).

Arguments Ok {A} a.
Arguments Raise {A} e.

Definition obind (A B : Type) (o : outcome A) (k : A -> outcome B)
  : outcome B :=
  match o with Ok a => k a | Raise e => Raise e end.

Definition raises (A : Type) (o : outcome A) : Prop :=
  exists e, o = Raise e.

(** All outcomes of a list, or the first exception. *)
Fixpoint osequence (A : Type) (l : list (outcome A)) : outcome (list A) :=
  match l with
  | [] => Ok []
  | o :: t => obind o (fun a => obind (osequence t) (fun r => Ok (a :: r)))
  end.

(* ----------------------------------------------------------------- *)
(** ** [pivoted_cholesky] *)

(** A dense input of shape [batch x n x n]: the last dimension and the
    matrices of the batch, each a list of rows.  A matrix without batch
    dimensions is the batch of one element.  (The other input kind of the
    source, a [LazyTensor], lives outside this file.) *)
Record btensor : Type := {
  bt_n : nat;
  bt_mats : list (list (list num))
}.

(** What the loop holds for one batch element: [matrix_diag], [permutation],
    [L] and the element's entry of [errors]. *)
Record pc_elem : Type := {
  pc_diag : list num;
  pc_perm : list nat;
  pc_L : list (list num);
  pc_err : num
}.

Record pc_state : Type := {
  pc_m : nat;
  pc_elems : list pc_elem
}.

(** [NonLazyTensor(matrix).diag()] for one matrix of the batch, a tensor
    of its own: the loop writes to it and reads no diagonal entry of
    [matrix] afterwards.  (On a batch that holds no matrix the call of line
    19 raises: see [pc_run].) *)
Definition mdiag (n : nat) (A : list (list num)) : list num :=
  tab n (fun i => nth i (nth i A []) d0).

(** Lines 25-30: [L], [errors], [permutation]. *)
Definition pc_init (n max_iter : nat) (A : list (list num)) : pc_elem :=
  {| pc_diag := mdiag n A;
     pc_perm := seq 0 n;
     pc_L := repeat (repeat (Fin 0) n) max_iter;
     pc_err := norm1 (mdiag n A) |}.

(** The pivot selection of lines 43-44 for one batch element: the maximal
    value among the diagonal entries at permutation positions [m..] and its
    offset in that range. *)
Definition pc_pivot (m : nat) (e : pc_elem) : option (num * nat) :=
  tmax (gather d0 (pc_diag e) (skipn m (pc_perm e))).

(** Lines 46-79, for one batch element, given the selected value and
    offset.  [L_m] is a view of row [m] of [L]: what is scattered into it is
    written to [L], and line 77 copies the row onto itself. *)
Definition pc_update (n : nat) (A : list (list num)) (m : nat) (e : pc_elem)
  (max_diag_values : num) (i : nat) : pc_elem :=
  let max_diag_indices := i + m in
  let old_pi_m := nth m (pc_perm e) 0 in
  let permutation :=
    upd max_diag_indices old_pi_m
      (upd m (nth max_diag_indices (pc_perm e) 0) (pc_perm e)) in
  let pi_m := nth m permutation 0 in
  let L_m := upd pi_m (nsqrt max_diag_values) (nth m (pc_L e) []) in
  let row := nth pi_m A [] in
  if m + 1 <? n then
    let pi_i := skipn (m + 1) permutation in
    let L_m_new := gather d0 row pi_i in
    let L_m_new :=
      if 0 <? m then
        let L_prev :=
          map (fun Lj => gather d0 Lj pi_i) (firstn m (pc_L e)) in
        let update :=
          map (fun Lj => nth pi_m Lj d0) (firstn m (pc_L e)) in
        vsub L_m_new
          (colsum (length pi_i)
             (map2 (fun u r => map (nmul u) r) update L_prev))
      else L_m_new in
    let L_m_new := map (fun x => ndiv x (nth pi_m L_m d0)) L_m_new in
    let L_m := scatter L_m pi_i L_m_new in
    let matrix_diag_current := gather d0 (pc_diag e) pi_i in
    let matrix_diag :=
      scatter (pc_diag e) pi_i
        (vsub matrix_diag_current (map (fun x => nmul x x) L_m_new)) in
    {| pc_diag := matrix_diag;
       pc_perm := permutation;
       pc_L := upd m L_m (pc_L e);
       pc_err := norm1 (gather d0 matrix_diag pi_i) |}
  else
    {| pc_diag := pc_diag e;
       pc_perm := permutation;
       pc_L := upd m L_m (pc_L e);
       pc_err := pc_err e |}.

(** Lines 43-79, for one batch element. *)
Definition pc_step (n : nat) (A : list (list num)) (m : nat) (e : pc_elem)
  : outcome pc_elem :=
  match pc_pivot m e with
  | None => Raise EmptyReduction
  | Some (max_diag_values, i) => Ok (pc_update n A m e max_diag_values i)
  end.

(** The loop test of line 42; Python's [and] does not evaluate the maximum
    when [m < max_iter] fails. *)
Definition pc_cond (max_iter : nat) (error_tol : num) (st : pc_state)
  : outcome bool :=
  if pc_m st <? max_iter then
    match tmax (map pc_err (pc_elems st)) with
    | None => Raise EmptyReduction
    | Some (v, _) => Ok (ngtb v error_tol)
    end
  else Ok false.

(** One pass through the loop body, for the whole batch. *)
Definition pc_body (n : nat) (mats : list (list (list num))) (st : pc_state)
  : outcome pc_state :=
  obind (osequence (map2 (fun A e => pc_step n A (pc_m st) e)
                      mats (pc_elems st)))
    (fun es => Ok {| pc_m := pc_m st + 1; pc_elems := es |}).

(** The [while] loop.  [m] grows by one each pass and the test fails at
    [max_iter], so [max_iter] passes are enough. *)
Fixpoint pc_loop (fuel : nat) (n : nat) (mats : list (list (list num)))
  (max_iter : nat) (error_tol : num) (st : pc_state) : outcome pc_state :=
  match fuel with
  | O => Ok st
  | S f =>
      obind (pc_cond max_iter error_tol st) (fun c =>
        if c then
          obind (pc_body n mats st)
            (fun st' => pc_loop f n mats max_iter error_tol st')
        else Ok st)
  end.

Definition pc_start (n max_iter : nat) (mats : list (list (list num)))
  : pc_state :=
  {| pc_m := 0; pc_elems := map (pc_init n max_iter) mats |}.

(** The function up to the exit of its loop.  The diagonal is extracted
    first (line 19, [NonLazyTensor(matrix).diag()], a method of the library
    that lives outside this file), and on a batch that holds no matrix that
    call raises, whatever [max_iter] is; then [max_iter] is clamped (line
    22) and [L] is allocated (line 25), which raises for a negative number
    of rows; then the loop runs from the initial state to the state at its
    exit. *)
Definition pc_run (matrix : btensor) (max_iter : Z) (error_tol : num)
  : outcome pc_state :=
  let n := bt_n matrix in
  match bt_mats matrix with
  | [] => Raise EmptyBatch
  | _ :: _ =>
      let max_iter := Z.min max_iter (Z.of_nat n) in
      if (max_iter <? 0)%Z then Raise NegativeDimension
      else
        let mi := Z.to_nat max_iter in
        pc_loop mi n (bt_mats matrix) mi error_tol
          (pc_start n mi (bt_mats matrix))
  end.

(** [pivoted_cholesky(matrix, max_iter, error_tol)]: the factor of each
    batch element, [L[..., :m, :]]. *)
Definition pivoted_cholesky (matrix : btensor) (max_iter : Z)
  (error_tol : num) : outcome (list (list (list num))) :=
  obind (pc_run matrix max_iter error_tol) (fun st =>
    Ok (map (fun e => firstn (pc_m st) (pc_L e)) (pc_elems st))).

(** The states a call goes through: the initial one and the one after each
    pass of the loop. *)
Inductive pc_reach (n : nat) (mats : list (list (list num)))
  (max_iter : nat) (error_tol : num) : pc_state -> Prop :=
| reach_start : pc_reach n mats max_iter error_tol (pc_start n max_iter mats)
| reach_pass : forall st st',
    pc_reach n mats max_iter error_tol st ->
    pc_cond max_iter error_tol st = Ok true ->
    pc_body n mats st = Ok st' ->
    pc_reach n mats max_iter error_tol st'.

(* ----------------------------------------------------------------- *)
(** ** Notions used in the statements about [pivoted_cholesky] *)

(** The shape of what the loop holds for one batch element. *)
Definition pc_wf (n max_iter : nat) (e : pc_elem) : Prop :=
  Permutation (seq 0 n) (pc_perm e) /\
  length (pc_diag e) = n /\
  length (pc_L e) = max_iter /\
  Forall (fun r => length r = n) (pc_L e).

(** Lines 50-52: the entries at positions [m] and [j] change places. *)
Definition pc_swap (m j : nat) (perm : list nat) : list nat :=
  upd j (nth m perm 0) (upd m (nth j perm 0) perm).

(** The entry that lines 66-72 compute for column [q] of row [m], with pivot
    index [p] and pivot value [v]. *)
Definition pc_lval (A L : list (list num)) (m p : nat) (v : num) (q : nat)
  : num :=
  ndiv (nsub (nth q (nth p A []) d0)
          (nsum (map (fun Lj => nmul (nth p Lj d0) (nth q Lj d0))
                   (firstn m L))))
       (nsqrt v).

(** A 1 x 1 input with a negative diagonal. *)
Definition A_neg : btensor := {| bt_n := 1; bt_mats := [[[Fin (-1)]]] |}.

(** The position of [k] in [p], and the inverse of a permutation. *)
Fixpoint pos_of (k : nat) (p : list nat) : nat :=
  match p with
  | [] => 0
  | x :: t => if x =? k then 0 else 1 + pos_of k t
  end.

Definition inv_perm (p : list nat) : list nat :=
  tab (length p) (fun k => pos_of k p).

(** The columns of [L] rearranged: column [c] of the result is column
    [q[c]] of [L]. *)
Definition permute_cols (q : list nat) (L : list (list num))
  : list (list num) :=
  map (fun row => gather d0 row q) L.

(** Two 2 x 2 inputs: a positive definite one whose larger diagonal entry
    is the second, and a symmetric one that is not positive semi-definite. *)
Definition A_diag : list (list R) := [[1; 0]; [0; 4]]%R.

Definition A_indef : list (list R) := [[4; 6]; [6; 1]]%R.

(** The default tolerance of [pivoted_cholesky]. *)
Definition default_tol : num := Fin (1 / 1000).

(** What the loop holds after its first pass on [A_indef] and on [A_diag],
    and at its exit on [A_diag]. *)
Definition e_indef_1 : pc_elem :=
  {| pc_diag := [Fin 4; Fin (-8)];
     pc_perm := [0; 1];
     pc_L := [[Fin 2; Fin 3]; [Fin 0; Fin 0]];
     pc_err := Fin 8 |}.

Definition e_diag_1 : pc_elem :=
  {| pc_diag := [Fin 1; Fin 4];
     pc_perm := [1; 0];
     pc_L := [[Fin 0; Fin 2]; [Fin 0; Fin 0]];
     pc_err := Fin 1 |}.

Definition e_diag_2 : pc_elem :=
  {| pc_diag := [Fin 1; Fin 4];
     pc_perm := [1; 0];
     pc_L := [[Fin 0; Fin 2]; [Fin 1; Fin 0]];
     pc_err := Fin 1 |}.

(** Real matrices, as lists of rows, and their embedding as tensors. *)
Definition entR (A : list (list R)) (a b : nat) : R :=
  nth b (nth a A []) 0%R.

Definition emb (A : list (list R)) : list (list num) := map (map Fin) A.

Definition ent (M : list (list num)) (a b : nat) : num :=
  nth b (nth a M []) d0.

Definition square (n : nat) (A : list (list R)) : Prop :=
  length A = n /\ Forall (fun r => length r = n) A.

Definition symmetric (n : nat) (G : nat -> nat -> R) : Prop :=
  forall a b, a < n -> b < n -> G a b = G b a.

(** The quadratic form [x' G x] and positive semi-definiteness. *)
Definition qform (n : nat) (G : nat -> nat -> R) (x : nat -> R) : R :=
  Rsum n (fun a => Rsum n (fun b => x a * G a b * x b))%R.

Definition psd (n : nat) (G : nat -> nat -> R) : Prop :=
  forall x, (0 <= qform n G x)%R.

Definition sym_psd (n : nat) (A : list (list R)) : Prop :=
  square n A /\ symmetric n (entR A) /\ psd n (entR A).

(** Entry [(a, b)] of [L' L] for the first [m] rows of [L], and what is
    left of [A] once it is taken away. *)
Definition gram (L : list (list num)) (m : nat) (a b : nat) : R :=
  Rsum m (fun j => val (ent L j a) * val (ent L j b))%R.

Definition resid (A : list (list R)) (L : list (list num)) (m : nat)
  (a b : nat) : R :=
  (entR A a b - gram L m a b)%R.

Definition Rlsum (l : list R) : R := fold_right Rplus 0%R l.

(** The state of a batch element after [m] passes whose pivot values were
    all positive: the factor is real, its rows from [m] on are zero, the
    residual [A - L' L] is positive semi-definite and vanishes on the rows
    of the pivots, the working diagonal holds the residual's diagonal at
    the candidates, and [errors] is the norm of these entries. *)
Definition pc_good (n max_iter : nat) (A : list (list R)) (m : nat)
  (e : pc_elem) : Prop :=
  pc_wf n max_iter e /\ m <= max_iter /\ m <= n /\
  (forall j a, j < max_iter -> a < n -> finite (ent (pc_L e) j a)) /\
  (forall j a, m <= j -> j < max_iter -> a < n ->
     ent (pc_L e) j a = Fin 0) /\
  (forall i b, i < m -> b < n ->
     resid A (pc_L e) m (nth i (pc_perm e) 0) b = 0%R) /\
  (forall i, m <= i -> i < n ->
     nth (nth i (pc_perm e) 0) (pc_diag e) d0 =
     Fin (resid A (pc_L e) m (nth i (pc_perm e) 0) (nth i (pc_perm e) 0))) /\
  psd n (resid A (pc_L e) m) /\
  (m < n -> pc_err e = norm1 (gather d0 (pc_diag e) (skipn m (pc_perm e)))).

(** The state after a pass that divided by a zero pivot: every candidate
    entry of the working diagonal is the non-value. *)
Definition pc_bad (n max_iter : nat) (m : nat) (e : pc_elem) : Prop :=
  pc_wf n max_iter e /\
  (forall i, m <= i -> i < n -> nth (nth i (pc_perm e) 0) (pc_diag e) d0 = NaN).

(** The unit vector of index [p]. *)
Definition delta (p : nat) (a : nat) : R :=
  if (a =? p)%nat then 1%R else 0%R.

(* ----------------------------------------------------------------- *)
(** ** Tensors of rank at most two *)

(** A scalar, a vector, or a matrix given by its number of columns and its
    rows (so that a matrix without rows still has a width). *)
Inductive tensor : Type :=
| T0 (x : num)
| T1 (v : list num)
| T2 (nc : nat) (rows : list (list num)).

Definition rank (t : tensor) : nat :=
  match t with T0 _ => 0 | T1 _ => 1 | T2 _ _ => 2 end.

(** Rows and columns, a scalar and a vector seen as one row. *)
Definition shape2 (t : tensor) : nat * nat :=
  match t with
  | T0 _ => (1, 1)
  | T1 v => (1, length v)
  | T2 nc rows => (length rows, nc)
  end.

Definition tent (t : tensor) (i j : nat) : num :=
  match t with
  | T0 x => x
  | T1 v => nth j v d0
  | T2 _ rows => ent rows i j
  end.

Definition mk_tensor (rk r c : nat) (f : nat -> nat -> num) : tensor :=
  match rk with
  | 0 => T0 (f 0 0)
  | 1 => T1 (tab c (f 0))
  | _ => T2 c (tab r (fun i => tab c (f i)))
  end.

(** Broadcasting: two sizes agree when they are equal or one of them is 1,
    and a dimension of size 1 is read at index 0. *)
Definition bdim (a b : nat) : option nat :=
  if a =? b then Some a
  else if a =? 1 then Some b
  else if b =? 1 then Some a
  else None.

Definition bidx (d i : nat) : nat := if d =? 1 then 0 else i.

(** An elementwise binary operation with broadcasting, out of place. *)
Definition t_bop (f : num -> num -> num) (a b : tensor) : outcome tensor :=
  let '(ra, ca) := shape2 a in
  let '(rb, cb) := shape2 b in
  match bdim ra rb, bdim ca cb with
  | Some r, Some c =>
      Ok (mk_tensor (Nat.max (rank a) (rank b)) r c
            (fun i j => f (tent a (bidx ra i) (bidx ca j))
                          (tent b (bidx rb i) (bidx cb j))))
  | _, _ => Raise ShapeMismatch
  end.

(** An elementwise unary operation, out of place. *)
Definition t_map (f : num -> num) (a : tensor) : tensor :=
  match a with
  | T0 x => T0 (f x)
  | T1 v => T1 (map f v)
  | T2 nc rows => T2 nc (map (map f) rows)
  end.

(** [a.max()]: the maximum of all entries. *)
Definition t_max (a : tensor) : outcome tensor :=
  let entries :=
    match a with
    | T0 x => [x]
    | T1 v => v
    | T2 _ rows => concat rows
    end in
  match tmax entries with
  | Some (v, _) => Ok (T0 v)
  | None => Raise EmptyReduction
  end.

(** [a.unsqueeze(-1)]; a matrix would become a tensor of rank three, which
    this model does not have. *)
Definition t_unsqueeze (a : tensor) : outcome tensor :=
  match a with
  | T0 x => Ok (T1 [x])
  | T1 v => Ok (T2 1 (map (fun x => [x]) v))
  | T2 _ _ => Raise ShapeMismatch
  end.

(** [a.transpose(-1, -2)] *)
Definition t_transpose (a : tensor) : outcome tensor :=
  match a with
  | T2 nc rows =>
      Ok (T2 (length rows)
            (tab nc (fun j => tab (length rows) (fun i => ent rows i j))))
  | _ => Raise ShapeMismatch
  end.

(** [a.size(-2)] *)
Definition t_size_rows (a : tensor) : outcome nat :=
  match a with
  | T2 _ rows => Ok (length rows)
  | _ => Raise ShapeMismatch
  end.

(** [a @ b] *)
Definition t_matmul (a b : tensor) : outcome tensor :=
  match a, b with
  | T2 ca ra, T2 cb rb =>
      if ca =? length rb then
        Ok (T2 cb (tab (length ra) (fun i => tab cb (fun j =>
              nsum (tab ca (fun l => nmul (ent ra i l) (ent rb l j)))))))
      else Raise ShapeMismatch
  | T2 ca ra, T1 v =>
      if ca =? length v then
        Ok (T1 (tab (length ra) (fun i =>
              nsum (tab ca (fun l => nmul (ent ra i l) (nth l v d0))))))
      else Raise ShapeMismatch
  | T1 v, T2 cb rb =>
      if length v =? length rb then
        Ok (T1 (tab cb (fun j =>
              nsum (tab (length v) (fun l => nmul (nth l v d0) (ent rb l j))))))
      else Raise ShapeMismatch
  | T1 u, T1 v =>
      if length u =? length v then
        Ok (T0 (nsum (tab (length u) (fun l => nmul (nth l u d0) (nth l v d0)))))
      else Raise ShapeMismatch
  | _, _ => Raise ShapeMismatch
  end.

(** [torch.eye(k)] *)
Definition t_eye (k : nat) : tensor :=
  T2 k (tab k (fun i => tab k (fun j => if i =? j then Fin 1 else Fin 0))).

(** [a.norm()]: the square root of the sum of the squares of all entries. *)
Definition t_norm (a : tensor) : tensor :=
  let entries :=
    match a with
    | T0 x => [x]
    | T1 v => v
    | T2 _ rows => concat rows
    end in
  T0 (nsqrt (nsum (map (fun x => nmul x x) entries))).

(** [torch.cholesky(M)] for a [k x k] matrix, lower triangular factor: the
    first column is the first column of [M] over the square root of the
    first diagonal entry, which has to be positive, and the rest is the
    factor of what is left of [M] once the first column's outer product is
    taken away.  Only the lower triangle of [M] reaches the result.
    [None] where the library raises (not positive definite). *)
Fixpoint chol (k : nat) (M : list (list num)) : option (list (list num)) :=
  match k with
  | O => Some []
  | S k' =>
      let a := ent M 0 0 in
      if ngtb a (Fin 0) then
        let l := nsqrt a in
        let c := fun i => ndiv (ent M (S i) 0) l in
        let M' := tab k' (fun i => tab k' (fun j =>
                    nsub (ent M (S i) (S j)) (nmul (c i) (c j)))) in
        match chol k' M' with
        | Some L' =>
            Some (tab (S k') (fun i => tab (S k') (fun j =>
                    match i, j with
                    | O, O => l
                    | O, S _ => Fin 0
                    | S i', O => c i'
                    | S i', S j' => ent L' i' j'
                    end)))
        | None => None
        end
      else None
  end.

(** The two triangular solves of [torch.potrs(B, L, upper=False)]: forward
    substitution for [L Y = B], then back substitution for [L' X = Y], on
    the [n] columns of [B] at once. *)
Fixpoint fwd (k n : nat) (L B : list (list num)) : list (list num) :=
  match k with
  | O => []
  | S k' =>
      let y0 := tab n (fun j => ndiv (ent B 0 j) (ent L 0 0)) in
      let B' := tab k' (fun i => tab n (fun j =>
                  nsub (ent B (S i) j) (nmul (ent L (S i) 0) (nth j y0 d0)))) in
      let L' := tab k' (fun i => tab k' (fun j => ent L (S i) (S j))) in
      y0 :: fwd k' n L' B'
  end.

Fixpoint bwd (k n : nat) (L Y : list (list num)) : list (list num) :=
  match k with
  | O => []
  | S k' =>
      let L' := tab k' (fun i => tab k' (fun j => ent L (S i) (S j))) in
      let X' := bwd k' n L' (tl Y) in
      let x0 := tab n (fun j =>
                  ndiv (nsub (ent Y 0 j)
                          (nsum (tab k' (fun i =>
                                   nmul (ent L (S i) 0) (ent X' i j)))))
                       (ent L 0 0)) in
      x0 :: X'
  end.

Definition t_cholesky (a : tensor) : outcome tensor :=
  match a with
  | T2 nc rows =>
      if nc =? length rows then
        match chol nc rows with
        | Some L => Ok (T2 nc L)
        | None => Raise NotPositiveDefinite
        end
      else Raise ShapeMismatch
  | _ => Raise ShapeMismatch
  end.

Definition t_potrs (b u : tensor) : outcome tensor :=
  match b, u with
  | T2 n rb, T2 k ru =>
      if (k =? length ru) && (k =? length rb) then
        Ok (T2 n (bwd k n ru (fwd k n ru rb)))
      else Raise ShapeMismatch
  | _, _ => Raise ShapeMismatch
  end.

(* ----------------------------------------------------------------- *)
(** ** The store of tensors *)

(** Tensors live in a store and the program holds references to them.  An
    out-of-place operation reads its operands and allocates its result; it
    writes to no tensor that exists.  (A view, as [transpose] or
    [unsqueeze] return, is taken as a tensor of its own: the two functions
    below write through no view.) *)
Definition heap : Type := list tensor.

Definition ref : Type := nat.

Definition M (A : Type) : Type := heap -> outcome (A * heap).

Definition ret (A : Type) (a : A) : M A := fun h => Ok (a, h).

Definition bind (A B : Type) (c : M A) (k : A -> M B) : M B :=
  fun h =>
    match c h with
    | Ok (a, h') => k a h'
    | Raise e => Raise e
    end.

Notation "x <- c ;; k" := (bind c (fun x => k))
  (at level 61, c at next level, right associativity).

Definition lift (A : Type) (o : outcome A) : M A :=
  fun h => match o with Ok a => Ok (a, h) | Raise e => Raise e end.

Definition load (r : ref) : M tensor :=
  fun h =>
    match nth_error h r with
    | Some t => Ok (t, h)
    | None => Raise DanglingRef
    end.

Definition alloc (t : tensor) : M ref :=
  fun h => Ok (length h, h ++ [t]).

(** An out-of-place operation on one or two tensors of the store. *)
Definition op1 (f : tensor -> outcome tensor) (r : ref) : M ref :=
  t <- load r ;; v <- lift (f t) ;; alloc v.

Definition op2 (f : tensor -> tensor -> outcome tensor) (r1 r2 : ref)
  : M ref :=
  t1 <- load r1 ;; t2 <- load r2 ;; v <- lift (f t1 t2) ;; alloc v.

(** An in-place method (the library marks them with a trailing underscore,
    as the [scatter_] and [copy_] of [pivoted_cholesky]) overwrites its
    operand.  Neither of the two functions below calls one. *)
Definition op1_inplace (f : tensor -> outcome tensor) (r : ref) : M ref :=
  fun h =>
    match nth_error h r with
    | Some t =>
        match f t with
        | Ok v => Ok (r, upd r v h)
        | Raise e => Raise e
        end
    | None => Raise DanglingRef
    end.

(** The methods the two functions call. *)
Definition reciprocal : ref -> M ref := op1 (fun t => Ok (t_map nrecip t)).
Definition tabs : ref -> M ref := op1 (fun t => Ok (t_map nabs t)).
Definition tmaxall : ref -> M ref := op1 t_max.
Definition unsqueeze : ref -> M ref := op1 t_unsqueeze.
Definition transpose : ref -> M ref := op1 t_transpose.
Definition tnorm : ref -> M ref := op1 (fun t => Ok (t_norm t)).
Definition tcopy : ref -> M ref := op1 (fun t => Ok t).
Definition cholesky : ref -> M ref := op1 t_cholesky.
Definition tdiv : ref -> ref -> M ref := op2 (t_bop ndiv).
Definition tmul : ref -> ref -> M ref := op2 (t_bop nmul).
Definition tadd : ref -> ref -> M ref := op2 (t_bop nadd).
Definition tsub : ref -> ref -> M ref := op2 (t_bop nsub).
Definition matmul : ref -> ref -> M ref := op2 t_matmul.
Definition potrs : ref -> ref -> M ref := op2 t_potrs.
Definition eye (k : nat) : M ref := alloc (t_eye k).

Definition size_rows (r : ref) : M nat :=
  t <- load r ;; lift (t_size_rows t).

Definition ndimension (r : ref) : M nat :=
  t <- load r ;; ret (rank t).

(* ----------------------------------------------------------------- *)
(** ** [woodbury_factor] and [woodbury_solve] *)

(** [woodbury_factor(low_rank_mat, shift)].  [half] stands for the test
    [low_rank_mat.dtype == torch.float16]; in exact arithmetic the casts
    [.float()] and [.type_as()] are copies.  Line 119 prints the norm of a
    difference: its operands are computed, the output is not modelled. *)
Definition woodbury_factor (low_rank_mat shift : ref) (half : bool) : M ref :=
  k <- size_rows low_rank_mat ;;
  inv_shift <- reciprocal shift ;;
  a <- tabs inv_shift ;;
  scale <- tmaxall a ;;
  inv_shift <- tdiv inv_shift scale ;;
  inv_shift <- unsqueeze inv_shift ;;
  vt <- transpose low_rank_mat ;;
  p <- tmul inv_shift vt ;;
  shifted_mat <- matmul low_rank_mat p ;;
  e <- eye k ;;
  e <- tdiv e scale ;;
  shifted_mat <- tadd shifted_mat e ;;
  if half then
    sf <- tcopy shifted_mat ;;
    ch <- cholesky sf ;;
    vf <- tcopy low_rank_mat ;;
    R <- potrs vf ch ;;
    tcopy R
  else
    ch <- cholesky shifted_mat ;;
    R <- potrs low_rank_mat ch ;;
    t1 <- matmul shifted_mat R ;;
    t2 <- tsub t1 low_rank_mat ;;
    _ <- tnorm t2 ;;
    ret R.

(** [woodbury_solve(vector, low_rank_mat, woodbury_factor, shift)] *)
Definition woodbury_solve (vector low_rank_mat woodbury_factor shift : ref)
  : M ref :=
  inv_shift <- reciprocal shift ;;
  a <- tabs inv_shift ;;
  scale <- tmaxall a ;;
  inv_shift <- tdiv inv_shift scale ;;
  nd <- ndimension vector ;;
  inv_shift <- (if 1 <? nd then unsqueeze inv_shift else ret inv_shift) ;;
  shifted_vector <- tmul inv_shift vector ;;
  vt <- transpose low_rank_mat ;;
  t1 <- matmul vt woodbury_factor ;;
  t2 <- matmul t1 shifted_vector ;;
  diff <- tmul inv_shift t2 ;;
  res <- tsub shifted_vector diff ;;
  tmul res scale.

(** A computation that leaves every tensor of the store as it is: the
    store it returns is the one it started from, with new tensors at the
    end. *)
Definition extends (A : Type) (c : M A) : Prop :=
  forall h a h', c h = Ok (a, h') -> exists ext, h' = h ++ ext.

(* ----------------------------------------------------------------- *)
(** ** Notions used in the statements about the Woodbury functions *)

(** Tensors with real entries given by a function of the indices. *)
Definition rowsF (r c : nat) (g : nat -> nat -> R) : list (list num) :=
  tab r (fun i => tab c (fun j => Fin (g i j))).

Definition matF (r c : nat) (g : nat -> nat -> R) : tensor :=
  T2 c (rowsF r c g).

Definition vecF (n : nat) (f : nat -> R) : tensor :=
  T1 (tab n (fun j => Fin (f j))).

(** Positive definiteness of a form on the indices below [k]. *)
Definition pd (k : nat) (G : nat -> nat -> R) : Prop :=
  forall x, (exists a, a < k /\ x a <> 0%R) -> (0 < qform k G x)%R.

(** The maximum of a list (0 for the empty one). *)
Definition Rlmax (l : list R) : R :=
  match l with
  | [] => 0%R
  | x :: t => fold_left Rmax t x
  end.

(** [scale = max |1 / shift|], [inv_shift = (1 / shift) / scale] and
    [M = V diag(inv_shift) V' + I / scale]. *)
Definition wb_scale (shift : list R) : R :=
  Rlmax (map (fun s => Rabs (1 / s)) shift).

Definition wb_inv (shift : list R) (j : nat) : R :=
  (1 / nth j shift 0 / wb_scale shift)%R.

Definition wb_M (V : list (list R)) (shift : list R) (a c : nat) : R :=
  (Rsum (length shift)
     (fun j => entR V a j * (wb_inv shift j * entR V c j))
   + (if a =? c then 1 else 0) / wb_scale shift)%R.

(** The matrix of the system that [woodbury_solve] solves, applied to [x]:
    entry [i] of [(diag(shift) + V' V) x]. *)
Definition wb_apply (V : list (list R)) (shift x : list R) (i : nat) : R :=
  (nth i shift 0 * nth i x 0
   + Rsum (length V)
       (fun a => entR V a i *
                 Rsum (length shift) (fun j => entR V a j * nth j x 0)))%R.

(** A vector with one more entry in front. *)
Definition xcons (t : R) (x : nat -> R) (a : nat) : R :=
  match a with O => t | S i => x i end.

(** What is left of a form on [S k] indices once the first column is
    eliminated, on the [k] indices that remain. *)
Definition schur0 (G : nat -> nat -> R) (i j : nat) : R :=
  (G (S i) (S j)
   - G (S i) 0%nat / sqrt (G 0%nat 0%nat)
     * (G (S j) 0%nat / sqrt (G 0%nat 0%nat)))%R.

(** The real factor that [chol] computes for a positive definite form. *)
Fixpoint chol_fun (k : nat) (G : nat -> nat -> R) (i j : nat) : R :=
  match k with
  | O => 0%R
  | S k' =>
      match i, j with
      | O, O => sqrt (G 0%nat 0%nat)
      | O, S _ => 0%R
      | S i', O => (G (S i') 0%nat / sqrt (G 0%nat 0%nat))%R
      | S i', S j' => chol_fun k' (schur0 G) i' j'
      end
  end.

(** The real solution that [fwd] and [bwd] compute for the [n] columns of
    [B]. *)
Fixpoint potrs_fun (k : nat) (G B : nat -> nat -> R) (i j : nat) : R :=
  match k with
  | O => 0%R
  | S k' =>
      let l := sqrt (G 0%nat 0%nat) in
      let X' := potrs_fun k' (schur0 G)
                  (fun a c => B (S a) c
                              - G (S a) 0%nat / l * (B 0%nat c / l))%R in
      match i with
      | O => ((B 0%nat j / l
               - Rsum k' (fun a => G (S a) 0%nat / l * X' a j)) / l)%R
      | S i' => X' i' j
      end
  end.

(** What [woodbury_solve] computes from [b] and a real factor [X]:
    [(shifted_b - inv_shift * ((V' X) shifted_b)) * scale]. *)
Definition wb_x (V : list (list R)) (shift b : list R) (X : nat -> nat -> R)
  (i : nat) : R :=
  ((wb_inv shift i * nth i b 0
    - wb_inv shift i *
      Rsum (length shift)
        (fun l => Rsum (length V) (fun a => entR V a i * X a l)
                  * (wb_inv shift l * nth l b 0)))
   * wb_scale shift)%R.

(** The inputs of the worked example. *)
Definition V_ex : list (list R) := [[1; 0; 0]; [0; 1; 0]]%R.
Definition shift_ex : list R := [1; 1; 1]%R.
Definition b_ex : list R := [2; 2; 1]%R.

Definition h_ex : heap :=
  [T1 (map Fin b_ex); T2 3 (emb V_ex); T1 (map Fin shift_ex)].

(* ----------------------------------------------------------------- *)
(** ** Notions used in further statements about [pivoted_cholesky] *)

(** The zero pattern of [L] after [m] passes: the rows from [m] on are
    still zero, and row [j < m] is zero at the indices that the permutation
    holds at the positions before [j]. *)
Definition pc_tri (n max_iter m : nat) (e : pc_elem) : Prop :=
  (forall j a, m <= j -> j < max_iter -> a < n -> ent (pc_L e) j a = Fin 0) /\
  (forall i j, i < j -> j < m -> ent (pc_L e) j (nth i (pc_perm e) 0) = Fin 0).

(** What the loop holds for a batch element when [L] is allocated with [k]
    rows only: the same diagonal, permutation and error, and the first [k]
    rows of [L]. *)
Definition pc_trunc (k : nat) (e : pc_elem) : pc_elem :=
  {| pc_diag := pc_diag e;
     pc_perm := pc_perm e;
     pc_L := firstn k (pc_L e);
     pc_err := pc_err e |}.

(* ----------------------------------------------------------------- *)
(** ** Notions used in further statements about the Woodbury functions *)

(** Column [j] of a real matrix. *)
Definition wb_col (B : list (list R)) (j : nat) : list R :=
  map (fun row => nth j row 0%R) B.

(* ----------------------------------------------------------------- *)
(** ** Inputs of further examples *)

(** The zero and the unit matrix of size 2, and a batch of the two. *)
Definition A_zero : list (list R) := [[0; 0]; [0; 0]]%R.

Definition A_unit : list (list R) := [[1; 0]; [0; 1]]%R.

Definition batch_zero_unit : list (list (list num)) := [emb A_zero; emb A_unit].

(** A batch of two matrices whose loop makes two passes with tolerance 2,
    where the second matrix alone needs one. *)
Definition A_four : list (list R) := [[4; 0]; [0; 4]]%R.

Definition batch_four_diag : btensor :=
  {| bt_n := 2; bt_mats := [emb A_four; emb A_diag] |}.

(** A 1 x 1 matrix whose diagonal entry is nan. *)
Definition A_nan : btensor := {| bt_n := 1; bt_mats := [[[NaN]]] |}.

(** Stores for the Woodbury functions: the worked example with a matrix
    of two right-hand sides, and with a shift of one entry; a shift for
    which [M] is zero; a shift that is zero; a right-hand side and a
    matrix that are too short for the shift of the worked example; and a
    shift without entries. *)
Definition B_ex : list (list R) := [[2; 0]; [2; 0]; [1; 0]]%R.

Definition h_mat : heap :=
  [T2 2 (emb B_ex); T2 3 (emb V_ex); T1 (map Fin shift_ex)].

Definition h_one : heap :=
  [T1 (map Fin b_ex); T2 3 (emb V_ex); T1 [Fin 1]].

Definition h_neg : heap :=
  [T2 1 (emb [[1%R]]); T1 (map Fin [(-1)%R])].

Definition h_zero : heap :=
  [T1 [Fin 1]; T2 1 [[Fin 1]]; T1 (map Fin [0%R])].

Definition h_short : heap :=
  [T1 [Fin 1; Fin 1]; T2 2 [[Fin 1; Fin 0]]; T1 (map Fin shift_ex)].

Definition h_empty : heap := [T1 []; T2 0 []].

(** A factor for the worked example, [R = V / 2], and a store that holds
    it. *)
Definition R_ex : list (list R) := [[1 / 2; 0; 0]; [0; 1 / 2; 0]]%R.

Definition h_fac : heap :=
  [T1 (map Fin b_ex); T2 3 (emb V_ex); T1 (map Fin shift_ex); T2 3 (emb R_ex)].

(* ================================================================= *)
(** * Part II: properties *)
(* ================================================================= *)

Unset Implicit Arguments.

(** ** Lists, gather and scatter *)

Lemma tab_length (A : Type) n (f : nat -> A) : length (tab n f) = n.
Proof. unfold tab. now rewrite length_map, length_seq. Qed.

Lemma nth_tab (A : Type) n (f : nat -> A) i d : i < n -> nth i (tab n f) d = f i.
Proof.
  intros H. unfold tab.
  rewrite (nth_indep _ d (f 0)) by now rewrite length_map, length_seq.
  rewrite map_nth, seq_nth; auto.
Qed.

Lemma upd_length (A : Type) i (x : A) l : length (upd i x l) = length l.
Proof. revert i; induction l; destruct i; simpl; auto. Qed.

Lemma nth_upd (A : Type) i j (x : A) l d :
  nth j (upd i x l) d = if (j =? i) && (i <? length l) then x else nth j l d.
Proof.
  revert i j; induction l as [|h t IH]; intros i j.
  - simpl. rewrite andb_false_r. now destruct i.
  - destruct i, j; simpl; auto.
Qed.

Lemma nth_upd_same (A : Type) i (x : A) l d :
  i < length l -> nth i (upd i x l) d = x.
Proof.
  intros H. rewrite nth_upd, Nat.eqb_refl.
  apply Nat.ltb_lt in H. now rewrite H.
Qed.

Lemma nth_upd_other (A : Type) i j (x : A) l d :
  j <> i -> nth j (upd i x l) d = nth j l d.
Proof.
  intros H. rewrite nth_upd. apply Nat.eqb_neq in H. now rewrite H.
Qed.

Lemma gather_length (A : Type) (d : A) v idx : length (gather d v idx) = length idx.
Proof. apply length_map. Qed.

Lemma scatter_length (A : Type) (v : list A) idx src :
  length (scatter v idx src) = length v.
Proof.
  revert v src; induction idx as [|i idx IH]; intros v [|x src]; simpl; auto.
  now rewrite IH, upd_length.
Qed.

Lemma nth_scatter_out (A : Type) (v : list A) idx src k d :
  ~ In k idx -> nth k (scatter v idx src) d = nth k v d.
Proof.
  revert v src; induction idx as [|i idx IH]; intros v [|x src] H; simpl; auto.
  rewrite IH by (intro; apply H; now right).
  apply nth_upd_other. intro; apply H; now left.
Qed.

Lemma nth_scatter_in (A : Type) (v : list A) idx (g : nat -> A) k d :
  NoDup idx -> In k idx -> k < length v ->
  nth k (scatter v idx (map g idx)) d = g k.
Proof.
  revert v; induction idx as [|i idx IH]; intros v ND Hin Hk; simpl in *.
  - contradiction.
  - inversion ND; subst. destruct Hin as [->|Hin].
    + rewrite nth_scatter_out by assumption. now apply nth_upd_same.
    + apply IH; auto. now rewrite upd_length.
Qed.

Lemma map2_map_map (A B C D : Type) (f : B -> C -> D) (g : A -> B) (h : A -> C) l :
  map2 f (map g l) (map h l) = map (fun a => f (g a) (h a)) l.
Proof. induction l; simpl; congruence. Qed.

Lemma tmax_from_spec l : forall best bi i,
  bi < i ->
  let r := tmax_from best bi i l in
  (snd r = bi /\ fst r = best) \/
  (i <= snd r < i + length l /\ fst r = nth (snd r - i) l d0).
Proof.
  induction l as [|x t IH]; intros best bi i Hb; simpl.
  - now left.
  - destruct (nisnan best); [now left|].
    destruct (nleb x best).
    + destruct (@IH best bi (S i) ltac:(lia)) as [H|[H1 H2]]; [now left|right].
      split; [lia|]. rewrite H2.
      replace (snd (tmax_from best bi (S i) t) - i) with (S (snd (tmax_from best bi (S i) t) - S i)) by lia.
      reflexivity.
    + destruct (@IH x i (S i) ltac:(lia)) as [[H1 H2]|[H1 H2]]; right.
      * rewrite H1, H2. split; [lia|]. now rewrite Nat.sub_diag.
      * split; [lia|]. rewrite H2.
        replace (snd (tmax_from x i (S i) t) - i) with (S (snd (tmax_from x i (S i) t) - S i)) by lia.
        reflexivity.
Qed.

Lemma tmax_spec l v i :
  tmax l = Some (v, i) -> i < length l /\ v = nth i l d0.
Proof.
  destruct l as [|x t]; simpl; [discriminate|].
  intros H; injection H as H.
  pose proof (@tmax_from_spec t x 0 1 ltac:(lia)) as S. simpl in S.
  rewrite H in S. simpl in S.
  destruct S as [[-> ->]|[H1 H2]].
  - split; [lia|reflexivity].
  - split; [lia|]. destruct i; [lia|]. rewrite H2. simpl. now rewrite Nat.sub_0_r.
Qed.

Lemma tmax_some l : l <> [] -> exists v i, tmax l = Some (v, i).
Proof.
  destruct l; [congruence|]. intros _. simpl.
  destruct (tmax_from n 0 1 l) as [v i]. eauto.
Qed.

(** ** The shape invariant of the loop *)

(** The exchange of two positions, as lines 50-52 write it. *)
Lemma nth_swap (A : Type) (l : list A) i j d k :
  i < length l -> j < length l ->
  nth k (upd j (nth i l d) (upd i (nth j l d) l)) d =
  nth (if k =? i then j else if k =? j then i else k) l d.
Proof.
  intros Hi Hj. rewrite !nth_upd, !upd_length.
  apply Nat.ltb_lt in Hi, Hj. rewrite Hi, Hj, !andb_true_r.
  destruct (k =? j) eqn:E1, (k =? i) eqn:E2; auto.
  - apply Nat.eqb_eq in E1, E2. now subst.
Qed.

Lemma swap_Permutation (A : Type) (l : list A) i j d :
  i < length l -> j < length l ->
  Permutation l (upd j (nth i l d) (upd i (nth j l d) l)).
Proof.
  intros Hi Hj.
  apply (proj2 (Permutation_nth _ _ d)). split; [now rewrite !upd_length|].
  exists (fun k => if k =? i then j else if k =? j then i else k).
  split; [|split].
  - intros k Hk. destruct (k =? i); [assumption|]. destruct (k =? j); assumption.
  - intros x y Hx Hy.
    destruct (x =? i) eqn:X1, (y =? i) eqn:Y1, (x =? j) eqn:X2, (y =? j) eqn:Y2;
    repeat match goal with
     | H : (_ =? _) = true |- _ => apply Nat.eqb_eq in H
     | H : (_ =? _) = false |- _ => apply Nat.eqb_neq in H
     end; lia.
  - intros k Hk. now apply nth_swap.
Qed.

Lemma pc_update_perm n A m e v i :
  pc_perm (pc_update n A m e v i) =
  upd (i + m) (nth m (pc_perm e) 0) (upd m (nth (i + m) (pc_perm e) 0) (pc_perm e)).
Proof. unfold pc_update. now destruct (m + 1 <? n). Qed.

Lemma pc_pivot_spec m e v i :
  pc_pivot m e = Some (v, i) ->
  i + m < length (pc_perm e) /\
  v = nth (nth (i + m) (pc_perm e) 0) (pc_diag e) d0.
Proof.
  unfold pc_pivot. intros H. apply tmax_spec in H. destruct H as [H1 H2].
  rewrite gather_length, length_skipn in H1. split; [lia|].
  rewrite H2. unfold gather.
  rewrite (nth_indep _ d0 (nth 0 (pc_diag e) d0)) by (rewrite length_map, length_skipn; lia).
  rewrite (map_nth (fun k => nth k (pc_diag e) d0)).
  rewrite nth_skipn. f_equal. f_equal. lia.
Qed.

Lemma pc_pivot_some m e :
  m < length (pc_perm e) -> exists v i, pc_pivot m e = Some (v, i).
Proof.
  intros H. apply tmax_some. intro E.
  apply (f_equal (@length _)) in E. rewrite gather_length, length_skipn in E.
  simpl in E. lia.
Qed.

Lemma perm_length n l : Permutation (seq 0 n) l -> length l = n.
Proof. intros H. apply Permutation_length in H. now rewrite length_seq in H. Qed.

Lemma perm_NoDup n l : Permutation (seq 0 n) l -> NoDup l.
Proof. intros H. eapply Permutation_NoDup; [exact H|apply seq_NoDup]. Qed.

Lemma perm_bound n l i : Permutation (seq 0 n) l -> i < n -> nth i l 0 < n.
Proof.
  intros H Hi. assert (In (nth i l 0) l) by (apply nth_In; now rewrite (perm_length _ _ H)).
  apply Permutation_sym in H. apply (Permutation_in _ H) in H0.
  apply in_seq in H0. lia.
Qed.

Lemma Forall_upd (A : Type) (P : A -> Prop) i x l :
  Forall P l -> P x -> Forall P (upd i x l).
Proof.
  intros H Hx. revert i. induction H; intros [|i]; simpl; constructor; auto.
Qed.

Lemma pc_update_L_length n A m e v i :
  length (pc_L (pc_update n A m e v i)) = length (pc_L e).
Proof. unfold pc_update. destruct (m + 1 <? n); simpl; apply upd_length. Qed.

Lemma pc_update_diag_length n A m e v i :
  length (pc_diag (pc_update n A m e v i)) = length (pc_diag e).
Proof. unfold pc_update. destruct (m + 1 <? n); simpl; auto. apply scatter_length. Qed.

Lemma pc_wf_init n max_iter A : pc_wf n max_iter (pc_init n max_iter A).
Proof.
  unfold pc_wf, pc_init; simpl. repeat split.
  - apply Permutation_refl.
  - apply tab_length.
  - apply repeat_length.
  - apply Forall_forall. intros r Hr. apply repeat_spec in Hr. subst. apply repeat_length.
Qed.

Lemma pc_wf_update n max_iter A m e v i :
  pc_wf n max_iter e -> m < max_iter -> i + m < n ->
  pc_wf n max_iter (pc_update n A m e v i).
Proof.
  intros (HP & HD & HL & HR) Hm Hi.
  pose proof (perm_length _ _ HP) as Hlen.
  unfold pc_wf. rewrite pc_update_perm, pc_update_L_length, pc_update_diag_length.
  repeat split; auto.
  - eapply Permutation_trans; [exact HP|].
    apply swap_Permutation; lia.
  - assert (Hrow : length (nth m (pc_L e) []) = n).
    { rewrite Forall_forall in HR. apply HR. apply nth_In. lia. }
    unfold pc_update. destruct (m + 1 <? n); simpl; apply Forall_upd; auto;
      now rewrite ?scatter_length, upd_length.
Qed.

(** ** One pass, in closed form *)

Lemma tab_ext (A : Type) n (f g : nat -> A) :
  (forall i, i < n -> f i = g i) -> tab n f = tab n g.
Proof.
  intros H. unfold tab. apply map_ext_in. intros i Hi. apply in_seq in Hi. apply H. lia.
Qed.

Lemma tab_nth_map (A B : Type) (h : A -> B) (l : list A) d :
  tab (length l) (fun c => h (nth c l d)) = map h l.
Proof.
  apply (nth_ext _ _ (h d) (h d)).
  - now rewrite tab_length, length_map.
  - intros i Hi. rewrite tab_length in Hi.
    rewrite nth_tab by assumption. now rewrite map_nth.
Qed.

Lemma nth_map_in (A B : Type) (f : A -> B) l i d d' :
  i < length l -> nth i (map f l) d = f (nth i l d').
Proof.
  intros H. rewrite (nth_indep _ d (f d')) by now rewrite length_map.
  apply map_nth.
Qed.

Lemma nsub_0_r x : nsub x (Fin 0) = x.
Proof. destruct x; simpl; auto. f_equal. lra. Qed.

Lemma pc_update_eq n max_iter A m e v i :
  pc_wf n max_iter e -> m < max_iter -> i + m < n ->
  let perm' := pc_swap m (i + m) (pc_perm e) in
  let p := nth m perm' 0 in
  let cand := skipn (m + 1) perm' in
  let lv := pc_lval A (pc_L e) m p v in
  let Lrow := upd p (nsqrt v) (nth m (pc_L e) []) in
  let diag' :=
    scatter (pc_diag e) cand
      (map (fun k => nsub (nth k (pc_diag e) d0) (nmul (lv k) (lv k))) cand) in
  pc_update n A m e v i =
  if m + 1 <? n then
    {| pc_diag := diag';
       pc_perm := perm';
       pc_L := upd m (scatter Lrow cand (map lv cand)) (pc_L e);
       pc_err := norm1 (gather d0 diag' cand) |}
  else
    {| pc_diag := pc_diag e;
       pc_perm := perm';
       pc_L := upd m Lrow (pc_L e);
       pc_err := pc_err e |}.
Proof.
  intros (HP & HD & HL & HR) Hm Hi perm' p cand lv Lrow diag'.
  pose proof (perm_length _ _ HP) as Hlen.
  assert (HP' : Permutation (seq 0 n) perm').
  { eapply Permutation_trans; [exact HP|]. apply swap_Permutation; lia. }
  assert (Hp : p < n) by (apply perm_bound; [assumption|lia]).
  assert (Hrow : length (nth m (pc_L e) []) = n).
  { rewrite Forall_forall in HR. apply HR. apply nth_In. lia. }
  unfold pc_update. fold (pc_swap m (i + m) (pc_perm e)). fold perm'. fold p. fold cand.
  fold Lrow.
  destruct (m + 1 <? n); [|reflexivity].
  assert (E : map (fun x => ndiv x (nth p Lrow d0))
             (if 0 <? m
              then vsub (gather d0 (nth p A []) cand)
                     (colsum (length cand)
                        (map2 (fun u r => map (nmul u) r)
                           (map (fun Lj => nth p Lj d0) (firstn m (pc_L e)))
                           (map (fun Lj => gather d0 Lj cand) (firstn m (pc_L e)))))
              else gather d0 (nth p A []) cand) = map lv cand).
  { unfold Lrow. rewrite nth_upd_same by lia.
    destruct (0 <? m) eqn:E0.
    - rewrite map2_map_map.
      assert (C : colsum (length cand)
                (map (fun Lj => map (nmul (nth p Lj d0)) (gather d0 Lj cand))
                   (firstn m (pc_L e)))
              = map (fun q => nsum (map (fun Lj => nmul (nth p Lj d0) (nth q Lj d0))
                                      (firstn m (pc_L e)))) cand).
      { rewrite <- (tab_nth_map _ _ _ cand 0%nat). unfold colsum.
        apply tab_ext. intros c Hc. rewrite map_map. f_equal. apply map_ext.
        intros Lj. unfold gather. rewrite map_map.
        now rewrite (nth_map_in _ _ (fun x => nmul (nth p Lj d0) (nth x Lj d0)) cand c d0 0%nat Hc). }
      rewrite C. unfold vsub, gather. rewrite map2_map_map, map_map.
      reflexivity.
    - apply Nat.ltb_ge in E0. assert (m = 0%nat) by lia. subst m.
      unfold gather. rewrite map_map. apply map_ext. intros q.
      unfold lv, pc_lval. simpl. now rewrite nsub_0_r. }
  rewrite E.
  assert (E2 : vsub (gather d0 (pc_diag e) cand) (map (fun x => nmul x x) (map lv cand))
               = map (fun k => nsub (nth k (pc_diag e) d0) (nmul (lv k) (lv k))) cand).
  { unfold vsub, gather. rewrite map_map. now rewrite map2_map_map. }
  rewrite E2. reflexivity.
Qed.

(** ** Reachable states *)

Lemma pc_step_inv n A m e e' :
  pc_step n A m e = Ok e' ->
  exists v i, pc_pivot m e = Some (v, i) /\ e' = pc_update n A m e v i.
Proof.
  unfold pc_step. destruct (pc_pivot m e) as [[v i]|]; [|discriminate].
  intros H; injection H as <-. eauto.
Qed.

Lemma osequence_map2_total (A B C : Type) (f : A -> B -> outcome C)
  (P : B -> Prop) (Q : C -> Prop) l1 l2 :
  Forall P l2 ->
  (forall a b, P b -> exists c, f a b = Ok c /\ Q c) ->
  exists r, osequence (map2 f l1 l2) = Ok r /\ Forall Q r /\
            length r = Nat.min (length l1) (length l2).
Proof.
  intros H Hf. revert l1. induction H as [|b l2 Hb H IH]; intros [|a l1]; simpl;
    try (exists []; repeat split; auto; fail).
  destruct (Hf a b Hb) as (c & -> & Hc). simpl.
  destruct (IH l1) as (r & -> & HQ & HL). simpl.
  exists (c :: r); repeat split; auto. simpl. now rewrite HL.
Qed.

Lemma osequence_map2_nth (A B C : Type) (f : A -> B -> outcome C) l1 l2 r :
  osequence (map2 f l1 l2) = Ok r ->
  forall k c, nth_error r k = Some c ->
  exists a b, nth_error l1 k = Some a /\ nth_error l2 k = Some b /\ f a b = Ok c.
Proof.
  revert l2 r. induction l1 as [|a l1 IH]; intros [|b l2] r H k c Hk; simpl in H;
    try (injection H as <-; destruct k; discriminate).
  destruct (f a b) as [c0|] eqn:E; simpl in H; [|discriminate].
  destruct (osequence (map2 f l1 l2)) as [r0|] eqn:E2; simpl in H; [|discriminate].
  injection H as <-. destruct k; simpl in *.
  - injection Hk as <-. eauto.
  - eapply IH; eauto.
Qed.

Lemma osequence_map2_In (A B C : Type) (f : A -> B -> outcome C) l1 l2 r :
  osequence (map2 f l1 l2) = Ok r ->
  forall c, In c r -> exists a b, In a l1 /\ In b l2 /\ f a b = Ok c.
Proof.
  intros H c Hc. apply In_nth_error in Hc. destruct Hc as [k Hk].
  destruct (osequence_map2_nth _ _ _ _ _ _ _ H _ _ Hk) as (a & b & Ha & Hb & E).
  exists a, b. repeat split; auto; eapply nth_error_In; eauto.
Qed.

Lemma osequence_map2_length (A B C : Type) (f : A -> B -> outcome C) l1 l2 r :
  osequence (map2 f l1 l2) = Ok r -> length r = Nat.min (length l1) (length l2).
Proof.
  revert l2 r. induction l1 as [|a l1 IH]; intros [|b l2] r H; simpl in H;
    try (injection H as <-; reflexivity).
  destruct (f a b) as [c0|] eqn:E; simpl in H; [|discriminate].
  destruct (osequence (map2 f l1 l2)) as [r0|] eqn:E2; simpl in H; [|discriminate].
  injection H as <-. simpl. f_equal. now apply IH.
Qed.

Lemma pc_cond_true max_iter tol st :
  pc_cond max_iter tol st = Ok true -> pc_m st < max_iter.
Proof.
  unfold pc_cond. destruct (pc_m st <? max_iter) eqn:E.
  - intros _. now apply Nat.ltb_lt.
  - discriminate.
Qed.

Lemma pc_body_inv n mats st st' :
  pc_body n mats st = Ok st' ->
  pc_m st' = pc_m st + 1 /\
  osequence (map2 (fun A e => pc_step n A (pc_m st) e) mats (pc_elems st))
     = Ok (pc_elems st').
Proof.
  unfold pc_body.
  destruct (osequence _) as [es|]; simpl; [|discriminate].
  intros H; injection H as <-. auto.
Qed.

(** Shape invariant of the loop. *)
Lemma pc_reach_wf n mats max_iter tol st :
  pc_reach n mats max_iter tol st ->
  pc_m st <= max_iter /\ Forall (pc_wf n max_iter) (pc_elems st) /\
  length (pc_elems st) = length mats.
Proof.
  induction 1 as [|st st' HR (Hm & HW & HL) HC HB].
  - simpl. split; [lia|]. split; [|apply length_map].
    apply Forall_forall. intros e He. apply in_map_iff in He.
    destruct He as (A & <- & _). apply pc_wf_init.
  - apply pc_cond_true in HC. apply pc_body_inv in HB. destruct HB as [E1 E2].
    split; [lia|]. split.
    + apply Forall_forall. intros e' He'.
      destruct (osequence_map2_In _ _ _ _ _ _ _ E2 _ He') as (A & e & _ & He & E).
      apply pc_step_inv in E. destruct E as (v & i & Hp & ->).
      rewrite Forall_forall in HW.
      apply pc_wf_update; auto.
      apply pc_pivot_spec in Hp. destruct Hp as [Hp _].
      destruct (HW _ He) as (HP & _). rewrite (perm_length _ _ HP) in Hp. exact Hp.
    + rewrite (osequence_map2_length _ _ _ _ _ _ _ E2). lia.
Qed.

(** ** Permutation, frame and error paths of [pivoted_cholesky] *)

Lemma NoDup_skipn_notin (l : list nat) i m :
  NoDup l -> i <= m -> i < length l -> ~ In (nth i l 0) (skipn (m + 1) l).
Proof.
  intros ND Hi Hl Hin.
  apply (In_nth _ _ 0) in Hin. destruct Hin as (k & Hk & E).
  rewrite length_skipn in Hk. rewrite nth_skipn in E.
  apply (proj1 (NoDup_nth l 0) ND) in E; lia.
Qed.

(** C7.  Throughout every run of [pivoted_cholesky], for every batch
    element, the permutation holds each index below [n] exactly once: it
    starts as the identity ordering, a pass exchanges its entries at
    position [m] and at the position [j >= m] of the selected maximum and
    touches no other, and in every state the loop goes through it is a
    rearrangement of [0; ...; n-1]. *)
Theorem permutation_bijection n mats max_iter tol :
  (forall A, pc_perm (pc_init n max_iter A) = seq 0 n) /\
  (forall st A e e',
     pc_reach n mats max_iter tol st ->
     pc_cond max_iter tol st = Ok true ->
     In e (pc_elems st) ->
     pc_step n A (pc_m st) e = Ok e' ->
     exists j, pc_m st <= j < n /\
               pc_perm e' = pc_swap (pc_m st) j (pc_perm e)) /\
  (forall st e,
     pc_reach n mats max_iter tol st -> In e (pc_elems st) ->
     Permutation (seq 0 n) (pc_perm e)).
Proof.
  split; [reflexivity|]. split.
  - intros st A e e' HR HC He HS.
    apply pc_reach_wf in HR. destruct HR as (_ & HW & _).
    rewrite Forall_forall in HW. destruct (HW _ He) as (HP & _).
    apply pc_step_inv in HS. destruct HS as (v & i & Hp & ->).
    apply pc_pivot_spec in Hp. destruct Hp as [Hp _].
    rewrite (perm_length _ _ HP) in Hp.
    exists (i + pc_m st). split; [lia|]. apply pc_update_perm.
  - intros st e HR He. apply pc_reach_wf in HR. destruct HR as (_ & HW & _).
    rewrite Forall_forall in HW. now destruct (HW _ He).
Qed.

(** C9.  In every pass [m] of [pivoted_cholesky] the deflation writes the
    working diagonal only at the indices that the permutation, as it is
    after the exchange of this pass, holds at positions [m+1 ..]: every
    other entry is unchanged, and so is the entry of every index held at a
    position [i <= m], the pivots assigned so far. *)
Theorem deflation_frame n mats max_iter tol st A e e' :
  pc_reach n mats max_iter tol st ->
  pc_cond max_iter tol st = Ok true ->
  In e (pc_elems st) ->
  pc_step n A (pc_m st) e = Ok e' ->
  (forall k, ~ In k (skipn (pc_m st + 1) (pc_perm e')) ->
     nth k (pc_diag e') d0 = nth k (pc_diag e) d0) /\
  (forall i, i <= pc_m st ->
     nth (nth i (pc_perm e') 0) (pc_diag e') d0 =
     nth (nth i (pc_perm e') 0) (pc_diag e) d0).
Proof.
  intros HR HC He HS.
  apply pc_reach_wf in HR. destruct HR as (_ & HW & _).
  rewrite Forall_forall in HW. specialize (HW _ He).
  apply pc_cond_true in HC.
  apply pc_step_inv in HS. destruct HS as (v & i & Hp & ->).
  apply pc_pivot_spec in Hp. destruct Hp as [Hp _].
  pose proof HW as (HP & _). rewrite (perm_length _ _ HP) in Hp.
  pose proof (pc_wf_update _ _ A _ _ v _ HW HC Hp) as (HP' & _).
  assert (F : forall k, ~ In k (skipn (pc_m st + 1) (pc_perm (pc_update n A (pc_m st) e v i))) ->
     nth k (pc_diag (pc_update n A (pc_m st) e v i)) d0 = nth k (pc_diag e) d0).
  { rewrite (pc_update_eq _ _ A _ _ v _ HW HC Hp).
    destruct (pc_m st + 1 <? n); simpl; auto.
    intros k Hk. now apply nth_scatter_out. }
  split; [exact F|].
  intros j Hj. apply F. apply NoDup_skipn_notin; auto.
  - eapply perm_NoDup; eauto.
  - rewrite (perm_length _ _ HP'). lia.
Qed.

Lemma nth_scatter_keep (A : Type) (v : list A) idx src k d x :
  ~ In k idx -> nth k v d = x -> nth k (scatter v idx src) d = x.
Proof. intros H <-. now apply nth_scatter_out. Qed.

(** The pivot entry of row [m] after a pass. *)
Lemma pc_update_pivot_entry n max_iter A m e v i :
  pc_wf n max_iter e -> m < max_iter -> i + m < n ->
  let e' := pc_update n A m e v i in
  nth (nth m (pc_perm e') 0) (nth m (pc_L e') []) d0 = nsqrt v.
Proof.
  intros HW Hm Hi e'. unfold e'.
  pose proof (pc_wf_update _ _ A _ _ v _ HW Hm Hi) as (HP' & _).
  destruct HW as (HP & HD & HL & HR).
  assert (Hrow : length (nth m (pc_L e) []) = n).
  { rewrite Forall_forall in HR. apply HR. apply nth_In. lia. }
  assert (Hp : nth m (pc_perm (pc_update n A m e v i)) 0 < n)
    by (apply perm_bound; [assumption|lia]).
  revert HP' Hp.
  rewrite (pc_update_eq _ _ A _ _ v _ (conj HP (conj HD (conj HL HR))) Hm Hi).
  destruct (m + 1 <? n); simpl; intros HP' Hp; rewrite nth_upd_same by lia.
  - apply nth_scatter_keep.
    + apply NoDup_skipn_notin; [eapply perm_NoDup; eauto|lia|].
      rewrite (perm_length _ _ HP'). lia.
    + apply nth_upd_same. lia.
  - apply nth_upd_same. lia.
Qed.

Lemma pc_loop_total n mats max_iter tol :
  mats <> [] -> max_iter <= n ->
  forall fuel st,
    pc_m st <= max_iter -> Forall (pc_wf n max_iter) (pc_elems st) ->
    length (pc_elems st) = length mats ->
    exists st', pc_loop fuel n mats max_iter tol st = Ok st'.
Proof.
  intros Hne Hn. induction fuel as [|f IH]; intros st Hm HW HL; simpl.
  - eauto.
  - unfold pc_cond at 1. destruct (pc_m st <? max_iter) eqn:E; simpl; [|eauto].
    apply Nat.ltb_lt in E.
    destruct (tmax_some (map pc_err (pc_elems st))) as (v & i & ->).
    { destruct (pc_elems st); simpl in *; [|discriminate].
      destruct mats; simpl in *; congruence. }
    simpl. destruct (ngtb v tol); [|eauto].
    destruct (osequence_map2_total _ _ _ (fun A e => pc_step n A (pc_m st) e)
                (pc_wf n max_iter) (pc_wf n max_iter) mats (pc_elems st) HW)
      as (es & Hes & HW' & HL').
    { intros A e He. pose proof He as (HP & _).
      destruct (pc_pivot_some (pc_m st) e) as (w & j & Hp).
      { rewrite (perm_length _ _ HP). lia. }
      unfold pc_step. rewrite Hp. eexists; split; [reflexivity|].
      apply pc_wf_update; auto. apply pc_pivot_spec in Hp.
      rewrite (perm_length _ _ HP) in Hp. tauto. }
    unfold pc_body. rewrite Hes. simpl. apply IH; simpl; auto; lia.
Qed.

(** On a batch that is not empty. *)
Lemma pc_run_nonempty matrix max_iter tol :
  bt_mats matrix <> [] ->
  pc_run matrix max_iter tol =
  if (Z.min max_iter (Z.of_nat (bt_n matrix)) <? 0)%Z then Raise NegativeDimension
  else pc_loop (Z.to_nat (Z.min max_iter (Z.of_nat (bt_n matrix))))
         (bt_n matrix) (bt_mats matrix)
         (Z.to_nat (Z.min max_iter (Z.of_nat (bt_n matrix)))) tol
         (pc_start (bt_n matrix)
            (Z.to_nat (Z.min max_iter (Z.of_nat (bt_n matrix))))
            (bt_mats matrix)).
Proof.
  intros H. unfold pc_run. destruct (bt_mats matrix); [congruence|reflexivity].
Qed.

Lemma pivoted_cholesky_returns matrix max_iter tol :
  bt_mats matrix <> [] -> (0 <= max_iter)%Z ->
  exists Ls, pivoted_cholesky matrix max_iter tol = Ok Ls.
Proof.
  intros Hne Hmi. unfold pivoted_cholesky. rewrite pc_run_nonempty by assumption.
  destruct (Z.ltb_spec (Z.min max_iter (Z.of_nat (bt_n matrix))) 0); [lia|].
  set (mi := Z.to_nat (Z.min max_iter (Z.of_nat (bt_n matrix)))).
  destruct (pc_loop_total (bt_n matrix) (bt_mats matrix) mi tol Hne ltac:(lia) mi
              (pc_start (bt_n matrix) mi (bt_mats matrix))) as (st' & ->).
  - simpl; lia.
  - simpl. apply Forall_forall. intros e He. apply in_map_iff in He.
    destruct He as (A & <- & _). apply pc_wf_init.
  - simpl. apply length_map.
  - simpl. eauto.
Qed.

(** C5, as the code has it.  [pivoted_cholesky] raises no error on a
    batch that is not empty and [max_iter >= 0]; and when the maximal
    diagonal value selected in a pass is negative, the pass completes and
    the entry it writes at [L[m, pivot]] is the undefined square root
    (nan): no sign check stands between the selection and the [sqrt]. *)
Theorem negative_pivot_is_not_raised matrix max_iter tol :
  bt_mats matrix <> [] -> (0 <= max_iter)%Z ->
  let n := bt_n matrix in
  let mi := Z.to_nat (Z.min max_iter (Z.of_nat n)) in
  (exists Ls, pivoted_cholesky matrix max_iter tol = Ok Ls) /\
  (forall st A e v i,
     pc_reach n (bt_mats matrix) mi tol st ->
     pc_cond mi tol st = Ok true ->
     In e (pc_elems st) ->
     pc_pivot (pc_m st) e = Some (Fin v, i) -> (v < 0)%R ->
     exists e', pc_step n A (pc_m st) e = Ok e' /\
       nth (nth (pc_m st) (pc_perm e') 0) (nth (pc_m st) (pc_L e') []) d0 = NaN).
Proof.
  intros Hne Hmi n mi. split; [now apply pivoted_cholesky_returns|].
  intros st A e v i HR HC He Hp Hv.
  apply pc_reach_wf in HR. destruct HR as (_ & HW & _).
  rewrite Forall_forall in HW. specialize (HW _ He).
  apply pc_cond_true in HC.
  unfold pc_step. rewrite Hp. eexists; split; [reflexivity|].
  pose proof HW as (HP & _).
  apply pc_pivot_spec in Hp. rewrite (perm_length _ _ HP) in Hp.
  rewrite (pc_update_pivot_entry _ _ A _ _ (Fin v) _ HW HC (proj1 Hp)).
  simpl. destruct (Rlt_dec v 0); [reflexivity|contradiction].
Qed.

(** C6, as the code has it.  On a batch that is not empty
    [pivoted_cholesky] does not check [max_iter]: with [max_iter = 0] it
    returns, for every batch element, the factor with no rows; with
    [max_iter < 0] the allocation of [L] with a negative number of rows
    raises. *)
Theorem nonpositive_max_iter matrix max_iter tol :
  bt_mats matrix <> [] -> (max_iter <= 0)%Z ->
  pivoted_cholesky matrix max_iter tol =
  (if (max_iter <? 0)%Z then Raise NegativeDimension
   else Ok (map (fun _ => []) (bt_mats matrix))).
Proof.
  intros Hne H. unfold pivoted_cholesky. rewrite pc_run_nonempty by assumption.
  destruct (Z.ltb_spec max_iter 0).
  - destruct (Z.ltb_spec (Z.min max_iter (Z.of_nat (bt_n matrix))) 0); [reflexivity|lia].
  - assert (max_iter = 0%Z) by lia. subst.
    replace (Z.min 0 (Z.of_nat (bt_n matrix))) with 0%Z by lia.
    simpl. rewrite map_map. reflexivity.
Qed.

Local Open Scope R_scope.

(** ** Finite sums *)

Lemma Rsum_ext n f g :
  (forall i, (i < n)%nat -> f i = g i) -> Rsum n f = Rsum n g.
Proof.
  induction n as [|n IH]; intros H; simpl; [reflexivity|].
  rewrite IH by (intros; apply H; lia). rewrite H by lia. reflexivity.
Qed.

Lemma Rsum_plus n f g :
  Rsum n (fun i => f i + g i) = Rsum n f + Rsum n g.
Proof. induction n as [|n IH]; simpl; [lra|rewrite IH; lra]. Qed.

Lemma Rsum_minus n f g :
  Rsum n (fun i => f i - g i) = Rsum n f - Rsum n g.
Proof. induction n as [|n IH]; simpl; [lra|rewrite IH; lra]. Qed.

Lemma Rsum_scal n c f :
  Rsum n (fun i => c * f i) = c * Rsum n f.
Proof. induction n as [|n IH]; simpl; [lra|rewrite IH; lra]. Qed.

Lemma Rsum_scal_r n c f :
  Rsum n (fun i => f i * c) = Rsum n f * c.
Proof. induction n as [|n IH]; simpl; [lra|rewrite IH; lra]. Qed.

Lemma Rsum_zero n f :
  (forall i, (i < n)%nat -> f i = 0) -> Rsum n f = 0.
Proof.
  induction n as [|n IH]; intros H; simpl; [reflexivity|].
  rewrite IH by (intros; apply H; lia). rewrite H by lia. lra.
Qed.

Lemma Rsum_delta n p f :
  (p < n)%nat ->
  Rsum n (fun i => if (i =? p)%nat then f i else 0) = f p.
Proof.
  induction n as [|n IH]; intros H; simpl; [lia|].
  destruct (Nat.eqb_spec n p) as [->|Hn].
  - rewrite Rsum_zero; [lra|]. intros i Hi.
    destruct (Nat.eqb_spec i p); [lia|reflexivity].
  - rewrite IH by lia. lra.
Qed.

Lemma Rsum_swap n m (f : nat -> nat -> R) :
  Rsum n (fun i => Rsum m (fun j => f i j)) =
  Rsum m (fun j => Rsum n (fun i => f i j)).
Proof.
  induction n as [|n IH]; simpl.
  - symmetry. now apply Rsum_zero.
  - rewrite IH, <- Rsum_plus. reflexivity.
Qed.

(** ** Positive semi-definite forms *)

Section Forms.

Variable n : nat.
Variable G : nat -> nat -> R.
Hypothesis G_sym : symmetric n G.
Hypothesis G_psd : psd n G.

Lemma qform_shift x p t :
  (p < n)%nat ->
  qform n G (fun a => x a + t * delta p a) =
  qform n G x + 2 * t * Rsum n (fun a => x a * G p a) + t * t * G p p.
Proof.
  intros Hp. unfold qform.
  rewrite (Rsum_ext n _ (fun a =>
     Rsum n (fun b => x a * G a b * x b)
     + t * (x a * G a p)
     + (if (a =? p)%nat then t * Rsum n (fun b => G p b * x b) + t * t * G p p else 0))).
  - rewrite !Rsum_plus, Rsum_scal.
    rewrite (Rsum_delta n p (fun _ => t * Rsum n (fun b => G p b * x b) + t * t * G p p)) by assumption.
    assert (E : Rsum n (fun a => x a * G a p) = Rsum n (fun b => G p b * x b)).
    { apply Rsum_ext. intros i Hi. rewrite (G_sym i p) by assumption. lra. }
    assert (E2 : Rsum n (fun a => x a * G p a) = Rsum n (fun b => G p b * x b)).
    { apply Rsum_ext. intros i Hi. lra. }
    rewrite E, E2. lra.
  - intros a Ha.
    rewrite (Rsum_ext n _ (fun b =>
       x a * G a b * x b + (t * delta p a) * (G a b * x b)
       + (if (b =? p)%nat then t * (x a * G a b) + t * t * delta p a * G a b else 0))).
    + rewrite !Rsum_plus, Rsum_scal.
      rewrite (Rsum_delta n p (fun b => t * (x a * G a b) + t * t * delta p a * G a b)) by assumption.
      unfold delta. destruct (Nat.eqb_spec a p) as [->|Hne]; lra.
    + intros b Hb. unfold delta.
      destruct (Nat.eqb_spec b p) as [->|Hne]; lra.
Qed.

Lemma qform_zero : qform n G (fun _ => 0) = 0.
Proof.
  unfold qform. apply Rsum_zero. intros a _. apply Rsum_zero. intros b _. lra.
Qed.

Lemma psd_diag_nonneg p : (p < n)%nat -> 0 <= G p p.
Proof.
  intros Hp. pose proof (G_psd (fun a => 0 + 1 * delta p a)) as H.
  rewrite qform_shift in H by assumption. rewrite qform_zero in H.
  rewrite (Rsum_zero n (fun a => 0 * G p a)) in H by (intros; lra). lra.
Qed.

Lemma qform_delta p : (p < n)%nat -> qform n G (delta p) = G p p.
Proof.
  intros Hp.
  rewrite <- (Rplus_0_l (G p p)).
  transitivity (qform n G (fun a => 0 + 1 * delta p a)).
  - unfold qform. apply Rsum_ext. intros a _. apply Rsum_ext. intros b _. lra.
  - rewrite qform_shift by assumption. rewrite qform_zero.
    rewrite (Rsum_zero n (fun a => 0 * G p a)) by (intros; lra). lra.
Qed.

(** A vanishing diagonal entry of a positive semi-definite form makes its
    row vanish. *)
Lemma psd_zero_row p b :
  (p < n)%nat -> (b < n)%nat -> G p p = 0 -> G p b = 0.
Proof.
  intros Hp Hb H0.
  destruct (Req_dec_T (G p b) 0) as [E|NE]; [exact E|exfalso].
  set (t := - (G b b + 1) / (2 * G p b)).
  pose proof (G_psd (fun a => delta b a + t * delta p a)) as H.
  rewrite qform_shift in H by assumption.
  rewrite qform_delta in H by assumption.
  rewrite (Rsum_ext n _ (fun a => if (a =? b)%nat then G p a else 0)) in H.
  - rewrite (Rsum_delta n b (fun a => G p a)) in H by assumption.
    rewrite H0 in H. unfold t in H.
    replace (G b b + 2 * (- (G b b + 1) / (2 * G p b)) * G p b + _ * 0)
      with (-1) in H by (field; assumption).
    lra.
  - intros a _. unfold delta. destruct (a =? b)%nat; lra.
Qed.

(** The residual of one elimination step stays positive semi-definite. *)
Lemma psd_schur p :
  (p < n)%nat -> 0 < G p p ->
  psd n (fun a b => G a b - G p a * G p b / G p p).
Proof.
  intros Hp Hr x.
  set (c := Rsum n (fun a => x a * G p a)).
  assert (E : qform n (fun a b => G a b - G p a * G p b / G p p) x
              = qform n G x - c * c / G p p).
  { unfold qform.
    rewrite (Rsum_ext n _ (fun a =>
       Rsum n (fun b => x a * G a b * x b) - (x a * G p a) * (c / G p p))).
    - rewrite Rsum_minus, Rsum_scal_r. fold c. unfold Rdiv. lra.
    - intros a _.
      rewrite (Rsum_ext n _ (fun b =>
         x a * G a b * x b - (x a * G p a / G p p) * (x b * G p b))).
      + rewrite Rsum_minus, Rsum_scal. fold c. unfold Rdiv. lra.
      + intros b _. unfold Rdiv. lra. }
  rewrite E.
  pose proof (G_psd (fun a => x a + (- c / G p p) * delta p a)) as H.
  rewrite qform_shift in H by assumption. fold c in H.
  replace (qform n G x + 2 * (- c / G p p) * c + - c / G p p * (- c / G p p) * G p p)
    with (qform n G x - c * c / G p p) in H by (field; lra).
  exact H.
Qed.

End Forms.

(** ** The residual invariant *)

Lemma nsum_fin rs : nsum (map Fin rs) = Fin (Rlsum rs).
Proof.
  induction rs as [|r rs IH]; simpl; [reflexivity|].
  change (fold_right nadd (Fin 0) (map Fin rs)) with (nsum (map Fin rs)).
  now rewrite IH.
Qed.

Lemma Rlsum_app l1 l2 : Rlsum (l1 ++ l2) = Rlsum l1 + Rlsum l2.
Proof. induction l1 as [|x l1 IH]; simpl; [lra|rewrite IH; lra]. Qed.

Lemma Rlsum_seq m f : Rlsum (map f (seq 0 m)) = Rsum m f.
Proof.
  induction m as [|m IH]; [reflexivity|].
  rewrite seq_S, map_app, Rlsum_app, IH. simpl. lra.
Qed.

Lemma Rlsum_perm l1 l2 : Permutation l1 l2 -> Rlsum l1 = Rlsum l2.
Proof. induction 1; simpl; lra. Qed.

Lemma Rlsum_nonneg l : Forall (fun x => 0 <= x) l -> 0 <= Rlsum l.
Proof. induction 1; simpl; lra. Qed.

Lemma Rlsum_zero_all l :
  Forall (fun x => 0 <= x) l -> Rlsum l = 0 -> Forall (fun x => x = 0) l.
Proof.
  induction 1 as [|x l Hx H IH]; simpl; intros E; constructor.
  - pose proof (Rlsum_nonneg l H). lra.
  - apply IH. pose proof (Rlsum_nonneg l H). lra.
Qed.

Lemma firstn_seq_nth (A : Type) (l : list A) m d :
  (m <= length l)%nat -> firstn m l = map (fun j => nth j l d) (seq 0 m).
Proof.
  intros H. apply (nth_ext _ _ d d).
  - rewrite length_firstn, length_map, length_seq. lia.
  - intros k Hk. rewrite length_firstn in Hk.
    rewrite nth_firstn.
    destruct (Nat.ltb_spec k m); [|lia].
    rewrite (nth_map_in _ _ (fun j => nth j l d) (seq 0 m) k d 0%nat)
      by (rewrite length_seq; lia).
    rewrite seq_nth by lia. reflexivity.
Qed.

Lemma finite_val x : finite x -> x = Fin (val x).
Proof. destruct x; simpl; [reflexivity|contradiction]. Qed.

Lemma gram_nsum L m a b :
  (m <= length L)%nat ->
  (forall j, (j < m)%nat -> finite (ent L j a) /\ finite (ent L j b)) ->
  nsum (map (fun Lj => nmul (nth a Lj d0) (nth b Lj d0)) (firstn m L))
  = Fin (gram L m a b).
Proof.
  intros Hm HF. rewrite (firstn_seq_nth _ L m []) by assumption.
  rewrite map_map. unfold gram. rewrite <- Rlsum_seq, <- nsum_fin. f_equal.
  rewrite map_map. apply map_ext_in. intros j Hj. apply in_seq in Hj.
  destruct (HF j ltac:(lia)) as [Fa Fb]. unfold ent in *.
  rewrite (finite_val _ Fa), (finite_val _ Fb). reflexivity.
Qed.

Lemma ent_emb n A a b :
  square n A -> (a < n)%nat -> (b < n)%nat -> ent (emb A) a b = Fin (entR A a b).
Proof.
  intros [HL HR] Ha Hb. unfold ent, emb, entR.
  rewrite (nth_indep _ [] (map Fin [])) by (rewrite length_map; lia).
  rewrite map_nth.
  assert (length (nth a A []) = n).
  { rewrite Forall_forall in HR. apply HR, nth_In. lia. }
  rewrite (nth_indep _ d0 (Fin 0)) by (rewrite length_map; lia).
  now rewrite map_nth.
Qed.

Lemma perm_index n l a :
  Permutation (seq 0 n) l -> (a < n)%nat ->
  exists i, (i < n)%nat /\ nth i l 0%nat = a.
Proof.
  intros HP Ha.
  assert (In a l) by (eapply Permutation_in; [exact HP|apply in_seq; lia]).
  apply (In_nth _ _ 0%nat) in H. destruct H as (i & Hi & E).
  apply Permutation_length in HP. rewrite length_seq in HP.
  exists i. split; [lia|assumption].
Qed.

Lemma pc_swap_nth m j perm k :
  (m < length perm)%nat -> (j < length perm)%nat ->
  nth k (pc_swap m j perm) 0%nat =
  nth (if (k =? m)%nat then j else if (k =? j)%nat then m else k) perm 0%nat.
Proof. intros. unfold pc_swap. now apply nth_swap. Qed.

Lemma psd_ext n G1 G2 :
  (forall a b, (a < n)%nat -> (b < n)%nat -> G1 a b = G2 a b) ->
  psd n G1 -> psd n G2.
Proof.
  intros E H x. specialize (H x). unfold qform in *.
  rewrite (Rsum_ext n _ (fun a => Rsum n (fun b => x a * G1 a b * x b))); [exact H|].
  intros a Ha. apply Rsum_ext. intros b Hb. now rewrite E.
Qed.

Lemma gram_sym L m a b : gram L m a b = gram L m b a.
Proof. unfold gram. apply Rsum_ext. intros. lra. Qed.

Lemma resid_sym n A L m :
  symmetric n (entR A) -> symmetric n (resid A L m).
Proof. intros H a b Ha Hb. unfold resid. rewrite (H a b Ha Hb), gram_sym. reflexivity. Qed.

(** The fields of the state after a pass. *)
Lemma pc_update_fields n max_iter A m e v i :
  pc_wf n max_iter e -> (m < max_iter)%nat -> (i + m < n)%nat ->
  let e' := pc_update n A m e v i in
  let perm' := pc_swap m (i + m) (pc_perm e) in
  let p := nth m perm' 0%nat in
  let cand := skipn (m + 1) perm' in
  let lv := pc_lval A (pc_L e) m p v in
  let diag' :=
    scatter (pc_diag e) cand
      (map (fun k => nsub (nth k (pc_diag e) d0) (nmul (lv k) (lv k))) cand) in
  pc_perm e' = perm' /\
  pc_diag e' = diag' /\
  pc_L e' = upd m (scatter (upd p (nsqrt v) (nth m (pc_L e) [])) cand (map lv cand))
              (pc_L e) /\
  ((m + 1 < n)%nat -> pc_err e' = norm1 (gather d0 diag' cand)) /\
  (~ (m + 1 < n)%nat -> pc_err e' = pc_err e).
Proof.
  intros HW Hm Hi e' perm' p cand lv diag'. unfold e'.
  rewrite (pc_update_eq _ _ A _ _ v _ HW Hm Hi).
  fold perm'. fold p. fold cand. fold lv. fold diag'.
  destruct (Nat.ltb_spec (m + 1) n) as [H|H]; simpl.
  - repeat split; auto. intros; lia.
  - assert (Hc : cand = []).
    { apply length_zero_iff_nil. unfold cand. rewrite length_skipn.
      unfold perm', pc_swap. rewrite !upd_length.
      destruct HW as (HP & _). rewrite (perm_length _ _ HP). lia. }
    unfold diag'. rewrite Hc. simpl. repeat split; auto. intros; lia.
Qed.

Lemma sqrt_div_self r : 0 < r -> r / sqrt r = sqrt r.
Proof.
  intros H. pose proof (sqrt_lt_R0 r H) as Hs.
  rewrite <- (sqrt_sqrt r) at 1 by lra. field. lra.
Qed.

Lemma sqrt_div_sq x y r : 0 < r -> (x / sqrt r) * (y / sqrt r) = x * y / r.
Proof.
  intros H. pose proof (sqrt_lt_R0 r H) as Hs.
  rewrite <- (sqrt_sqrt r) at 3 by lra. field. lra.
Qed.

Section GoodStep.

Variables (n max_iter : nat) (A : list (list R)) (m : nat) (e : pc_elem).
Variables (r : R) (i : nat).
Hypothesis HA : sym_psd n A.
Hypothesis HG : pc_good n max_iter A m e.
Hypothesis Hm : (m < max_iter)%nat.
Hypothesis Hpiv : pc_pivot m e = Some (Fin r, i).
Hypothesis Hr : 0 < r.

Let e' := pc_update n (emb A) m e (Fin r) i.
Let perm' := pc_swap m (i + m) (pc_perm e).
Let p := nth m perm' 0%nat.
Let cand := skipn (m + 1) perm'.
Let G := resid A (pc_L e) m.

Lemma gs_wf : pc_wf n max_iter e.
Proof using HA HG Hm Hpiv Hr. apply HG. Qed.

Lemma gs_len : length (pc_perm e) = n.
Proof using HA HG Hm Hpiv Hr. apply perm_length. apply gs_wf. Qed.

Lemma gs_bound : (i + m < n)%nat.
Proof using HA HG Hm Hpiv Hr. pose proof (pc_pivot_spec _ _ _ _ Hpiv) as [H _]. now rewrite gs_len in H. Qed.

Lemma gs_perm' : Permutation (seq 0 n) perm'.
Proof using HA HG Hm Hpiv Hr.
  eapply Permutation_trans; [apply gs_wf|].
  unfold perm', pc_swap. apply swap_Permutation; rewrite gs_len; pose proof gs_bound; lia.
Qed.

Lemma gs_p : p = nth (i + m) (pc_perm e) 0%nat.
Proof using HA HG Hm Hpiv Hr.
  unfold p, perm'. rewrite pc_swap_nth by (rewrite gs_len; pose proof gs_bound; lia).
  now rewrite Nat.eqb_refl.
Qed.

Lemma gs_p_lt : (p < n)%nat.
Proof using HA HG Hm Hpiv Hr. unfold p. apply perm_bound; [apply gs_perm'|pose proof gs_bound; lia]. Qed.

Lemma gs_r : r = G p p.
Proof using HA HG Hm Hpiv Hr.
  pose proof (pc_pivot_spec _ _ _ _ Hpiv) as [_ H].
  destruct HG as (_ & _ & _ & _ & _ & _ & HD & _).
  rewrite (HD (i + m)%nat) in H by (pose proof gs_bound; lia).
  rewrite <- gs_p in H. now injection H.
Qed.

Lemma gs_sym : symmetric n G.
Proof using HA HG Hm Hpiv Hr. apply resid_sym. apply HA. Qed.

Lemma gs_psd : psd n G.
Proof using HA HG Hm Hpiv Hr. apply HG. Qed.

Lemma gs_low k : (k < m)%nat -> nth k perm' 0%nat = nth k (pc_perm e) 0%nat.
Proof using HA HG Hm Hpiv Hr.
  intros Hk. unfold perm'.
  rewrite pc_swap_nth by (rewrite gs_len; pose proof gs_bound; lia).
  destruct (Nat.eqb_spec k m); [lia|].
  destruct (Nat.eqb_spec k (i + m)); [lia|reflexivity].
Qed.

Lemma gs_high k :
  (m <= k)%nat -> (k < n)%nat ->
  exists k', (m <= k')%nat /\ (k' < n)%nat /\
             nth k perm' 0%nat = nth k' (pc_perm e) 0%nat.
Proof using HA HG Hm Hpiv Hr.
  intros H1 H2. unfold perm'. pose proof gs_bound.
  rewrite pc_swap_nth by (rewrite gs_len; lia).
  destruct (Nat.eqb_spec k m); [exists (i + m)%nat; repeat split; lia|].
  destruct (Nat.eqb_spec k (i + m)); [exists m|exists k]; repeat split; lia.
Qed.

Lemma gs_zero_row k b :
  (k < m)%nat -> (b < n)%nat -> G (nth k (pc_perm e) 0%nat) b = 0.
Proof using HA HG Hm Hpiv Hr. intros. destruct HG as (_ & _ & _ & _ & _ & HZ & _). now apply HZ. Qed.

Lemma gs_lv q :
  (q < n)%nat ->
  pc_lval (emb A) (pc_L e) m p (Fin r) q = Fin (G p q / sqrt r).
Proof using HA HG Hm Hpiv Hr.
  intros Hq. unfold pc_lval.
  change (nth q (nth p (emb A) []) d0) with (ent (emb A) p q).
  rewrite (ent_emb n) by (try apply HA; auto using gs_p_lt).
  destruct HG as ((_ & _ & HL & _) & _ & _ & HF & _).
  rewrite gram_nsum.
  - simpl. destruct (Rlt_dec r 0); [lra|].
    pose proof (sqrt_lt_R0 r Hr).
    destruct (Req_dec_T (sqrt r) 0); [lra|]. reflexivity.
  - lia.
  - intros j Hj. split; apply HF; auto using gs_p_lt; lia.
Qed.

Lemma gs_L' :
  pc_L e' = upd m (scatter (upd p (nsqrt (Fin r)) (nth m (pc_L e) [])) cand
                     (map (pc_lval (emb A) (pc_L e) m p (Fin r)) cand)) (pc_L e).
Proof using HA HG Hm Hpiv Hr.
  pose proof (pc_update_fields n max_iter (emb A) m e (Fin r) i gs_wf Hm gs_bound) as H.
  apply H.
Qed.

Lemma gs_other_rows j a : j <> m -> ent (pc_L e') j a = ent (pc_L e) j a.
Proof using HA HG Hm Hpiv Hr. intros H. unfold ent. rewrite gs_L'. now rewrite nth_upd_other. Qed.

Lemma gs_row_len : length (nth m (pc_L e) []) = n.
Proof using HA HG Hm Hpiv Hr.
  destruct gs_wf as (_ & _ & HL & HR). rewrite Forall_forall in HR.
  apply HR, nth_In. lia.
Qed.

Lemma gs_cand_in k : (m + 1 <= k)%nat -> (k < n)%nat -> In (nth k perm' 0%nat) cand.
Proof using HA HG Hm Hpiv Hr.
  intros H1 H2. unfold cand.
  replace k with ((m + 1) + (k - (m + 1)))%nat by lia.
  rewrite <- nth_skipn. apply nth_In. rewrite length_skipn.
  rewrite (perm_length _ _ gs_perm'). lia.
Qed.

Lemma gs_cand_notin k : (k <= m)%nat -> ~ In (nth k perm' 0%nat) cand.
Proof using HA HG Hm Hpiv Hr.
  intros H. apply NoDup_skipn_notin; auto.
  - eapply perm_NoDup. apply gs_perm'.
  - rewrite (perm_length _ _ gs_perm'). pose proof gs_bound. lia.
Qed.

Lemma gs_cand_nodup : NoDup cand.
Proof using HA HG Hm Hpiv Hr.
  unfold cand. pose proof (perm_NoDup _ _ gs_perm') as H.
  rewrite <- (firstn_skipn (m + 1) perm') in H. now apply NoDup_app_remove_l in H.
Qed.

Lemma gs_cand_lt k : In k cand -> (k < n)%nat.
Proof using HA HG Hm Hpiv Hr.
  intros H. unfold cand in H.
  assert (In k perm') by (rewrite <- (firstn_skipn (m + 1) perm'); apply in_or_app; now right).
  apply (Permutation_in _ (Permutation_sym gs_perm')) in H0. apply in_seq in H0. lia.
Qed.

Lemma gs_row a : (a < n)%nat -> ent (pc_L e') m a = Fin (G p a / sqrt r).
Proof using HA HG Hm Hpiv Hr.
  intros Ha. unfold ent. rewrite gs_L'.
  destruct gs_wf as (_ & _ & HL & _).
  rewrite nth_upd_same by lia.
  destruct (perm_index n perm' a gs_perm' Ha) as (k & Hk & E).
  destruct (Nat.le_gt_cases (m + 1) k) as [Hhi|Hlo].
  - assert (Hin : In a cand) by (rewrite <- E; now apply gs_cand_in).
    rewrite nth_scatter_in; auto using gs_cand_nodup.
    + now apply gs_lv.
    + rewrite upd_length, gs_row_len. assumption.
  - assert (Hout : ~ In a cand) by (rewrite <- E; apply gs_cand_notin; lia).
    rewrite nth_scatter_out by assumption.
    destruct (Nat.eq_dec k m) as [->|Hne].
    + fold p in E. subst a. rewrite nth_upd_same by (rewrite gs_row_len; apply gs_p_lt).
      simpl. destruct (Rlt_dec r 0); [lra|]. f_equal.
      rewrite <- gs_r. symmetry. now apply sqrt_div_self.
    + assert (Hkm : (k < m)%nat) by lia.
      rewrite nth_upd_other.
      * destruct HG as (_ & _ & _ & _ & HZ & _).
        change (nth a (nth m (pc_L e) []) d0) with (ent (pc_L e) m a).
        rewrite HZ by (auto; lia). f_equal.
        rewrite gs_sym by (auto using gs_p_lt).
        rewrite <- E, gs_low by assumption.
        rewrite gs_zero_row by (auto using gs_p_lt). unfold Rdiv. lra.
      * intro Eq. subst a. unfold p in Eq.
        pose proof (perm_NoDup _ _ gs_perm') as ND. pose proof gs_bound.
        apply (proj1 (NoDup_nth perm' 0%nat) ND) in Eq;
          rewrite ?(perm_length _ _ gs_perm'); lia.
Qed.

Lemma gs_resid a b :
  (a < n)%nat -> (b < n)%nat ->
  resid A (pc_L e') (m + 1) a b = G a b - G p a * G p b / G p p.
Proof using HA HG Hm Hpiv Hr.
  intros Ha Hb. unfold resid, gram. rewrite Nat.add_1_r. simpl.
  rewrite !gs_row by assumption. simpl.
  rewrite (Rsum_ext m _ (fun j => val (ent (pc_L e) j a) * val (ent (pc_L e) j b))).
  - rewrite sqrt_div_sq by assumption. rewrite <- gs_r.
    unfold G, resid, gram. lra.
  - intros j Hj. rewrite !gs_other_rows by lia. reflexivity.
Qed.

Lemma pc_good_step : pc_good n max_iter A (m + 1) e'.
Proof using HA HG Hm Hpiv Hr.
  pose proof gs_bound as Hb. pose proof gs_p_lt as Hp.
  pose proof (pc_update_fields n max_iter (emb A) m e (Fin r) i gs_wf Hm gs_bound)
    as (EP & ED & EL & EE & _).
  fold e' in EP, ED, EL, EE. fold perm' in EP, ED, EL, EE.
  fold p in ED, EL, EE. fold cand in ED, EL, EE.
  assert (Hrpos : 0 < G p p) by (rewrite <- gs_r; exact Hr).
  unfold pc_good. split; [|split; [|split; [|split; [|split; [|split; [|split; [|split]]]]]]].
  - apply pc_wf_update; auto using gs_wf.
  - lia.
  - lia.
  - intros j a Hj Ha. destruct (Nat.eq_dec j m) as [->|Hne].
    + now rewrite gs_row.
    + rewrite gs_other_rows by assumption. destruct HG as (_ & _ & _ & HF & _). now apply HF.
  - intros j a H1 H2 Ha. rewrite gs_other_rows by lia.
    destruct HG as (_ & _ & _ & _ & HZ & _). apply HZ; auto; lia.
  - intros k b Hk Hbn. rewrite EP.
    assert (Hkn : (nth k perm' 0 < n)%nat) by (apply perm_bound; [apply gs_perm'|lia]).
    rewrite gs_resid by assumption.
    destruct (Nat.eq_dec k m) as [->|Hne].
    + fold p. field. lra.
    + rewrite gs_low by lia.
      rewrite (gs_zero_row k b) by (auto; lia).
      rewrite (gs_sym p) by (auto; rewrite <- gs_low by lia; auto).
      rewrite (gs_zero_row k p) by (auto; lia). field. lra.
  - intros k H1 H2. rewrite EP, ED.
    assert (Hkn : (nth k perm' 0 < n)%nat) by (apply perm_bound; [apply gs_perm'|lia]).
    rewrite (nth_scatter_in _ _ _
      (fun k => nsub (nth k (pc_diag e) d0)
         (nmul (pc_lval (emb A) (pc_L e) m p (Fin r) k)
               (pc_lval (emb A) (pc_L e) m p (Fin r) k)))).
    + rewrite gs_lv by assumption.
      destruct (gs_high k ltac:(lia) H2) as (k' & K1 & K2 & K3).
      destruct HG as (_ & _ & _ & _ & _ & _ & HD & _).
      rewrite K3, (HD k') by assumption. rewrite <- K3.
      simpl. f_equal. rewrite gs_resid by assumption.
      rewrite sqrt_div_sq by assumption. rewrite <- gs_r. reflexivity.
    + apply gs_cand_nodup.
    + apply gs_cand_in; lia.
    + destruct gs_wf as (_ & HD & _). now rewrite HD.
  - apply (psd_ext n (fun a b => G a b - G p a * G p b / G p p)).
    + intros a b Ha Hbn. now rewrite gs_resid.
    + apply psd_schur; auto using gs_sym, gs_psd.
  - intros Hlt. rewrite (EE ltac:(lia)), EP, ED. reflexivity.
Qed.

End GoodStep.

Lemma tmax_from_ge l : forall best bi i,
  finite best -> Forall finite l ->
  let v := fst (tmax_from best bi i l) in
  finite v /\ val best <= val v /\ Forall (fun y => val y <= val v) l.
Proof.
  induction l as [|x t IH]; intros best bi i Hb Hl; simpl.
  - repeat split; auto. lra.
  - inversion Hl as [|? ? Hx Ht]; subst.
    destruct best as [b|]; [|contradiction]. destruct x as [x|]; [|contradiction].
    simpl. destruct (Rle_dec x b) as [Hle|Hgt].
    + destruct (IH (Fin b) bi (S i) I Ht) as (F & B & A). repeat split; auto.
      constructor; auto. simpl in *. lra.
    + destruct (IH (Fin x) i (S i) I Ht) as (F & B & A). repeat split; auto.
      simpl in *. lra.
Qed.

Lemma tmax_ge l v i :
  Forall finite l -> tmax l = Some (v, i) ->
  finite v /\ Forall (fun y => val y <= val v) l.
Proof.
  destruct l as [|x t]; simpl; [discriminate|].
  intros Hl H. injection H as H. inversion Hl as [|? ? Hx Ht]; subst.
  pose proof (tmax_from_ge t x 0%nat 1%nat Hx Ht) as (F & B & A).
  rewrite H in F, B, A. simpl in *. split; auto.
Qed.

Lemma norm1_fin rs : norm1 (map Fin rs) = Fin (Rlsum (map Rabs rs)).
Proof. unfold norm1. rewrite map_map. rewrite <- nsum_fin. now rewrite map_map. Qed.

Lemma Rlsum_le (A : Type) (f g : A -> R) l :
  (forall k, In k l -> f k <= g k) -> Rlsum (map f l) <= Rlsum (map g l).
Proof.
  induction l as [|a l IH]; intros H; simpl; [lra|].
  specialize (IH ltac:(intros; apply H; now right)).
  specialize (H a ltac:(now left)). lra.
Qed.

Lemma skipn_cons_nth (A : Type) (l : list A) m d :
  (m < length l)%nat -> skipn m l = nth m l d :: skipn (m + 1) l.
Proof.
  revert m; induction l as [|a l IH]; intros [|m] H; simpl in *; try lia; auto.
  apply IH. lia.
Qed.

Lemma swap_firstn m j (l : list nat) :
  (m <= j)%nat -> (j < length l)%nat -> firstn m (pc_swap m j l) = firstn m l.
Proof.
  intros H1 H2. apply (nth_ext _ _ 0%nat 0%nat).
  - rewrite !length_firstn. unfold pc_swap. now rewrite !upd_length.
  - intros k Hk. rewrite length_firstn in Hk. rewrite !nth_firstn.
    destruct (Nat.ltb_spec k m); [|reflexivity].
    rewrite pc_swap_nth by lia.
    destruct (Nat.eqb_spec k m); [lia|]. destruct (Nat.eqb_spec k j); [lia|reflexivity].
Qed.

Lemma swap_skipn m j (l : list nat) :
  (m <= j)%nat -> (j < length l)%nat ->
  Permutation (skipn m l) (skipn m (pc_swap m j l)).
Proof.
  intros H1 H2.
  apply (Permutation_app_inv_l (firstn m l)).
  rewrite firstn_skipn. rewrite <- (swap_firstn m j l H1 H2).
  rewrite firstn_skipn. unfold pc_swap. apply swap_Permutation; lia.
Qed.

Lemma gather_seq (A : Type) (v : list A) d :
  gather d v (seq 0 (length v)) = v.
Proof.
  apply (nth_ext _ _ d d).
  - now rewrite gather_length, length_seq.
  - intros k Hk. rewrite gather_length, length_seq in Hk. unfold gather.
    rewrite (nth_map_in _ _ (fun i => nth i v d) _ k d 0%nat) by now rewrite length_seq.
    now rewrite seq_nth.
Qed.

Lemma gather_fin (f : nat -> R) v idx :
  (forall k, In k idx -> nth k v d0 = Fin (f k)) ->
  gather d0 v idx = map Fin (map f idx).
Proof.
  intros H. unfold gather. rewrite map_map. now apply map_ext_in.
Qed.

(** The candidates of a state and its residual diagonal. *)
Lemma good_candidates n max_iter A m e :
  pc_good n max_iter A m e ->
  gather d0 (pc_diag e) (skipn m (pc_perm e)) =
  map Fin (map (fun k => resid A (pc_L e) m k k) (skipn m (pc_perm e))).
Proof.
  intros HG. apply gather_fin. intros k Hk.
  apply (In_nth _ _ 0%nat) in Hk. destruct Hk as (j & Hj & <-).
  rewrite length_skipn in Hj. rewrite nth_skipn.
  destruct HG as ((HP & _) & _ & _ & _ & _ & _ & HD & _).
  rewrite (perm_length _ _ HP) in Hj. apply HD; lia.
Qed.

Lemma good_resid_nonneg n max_iter A m e k :
  sym_psd n A -> pc_good n max_iter A m e -> (k < n)%nat ->
  0 <= resid A (pc_L e) m k k.
Proof.
  intros HA HG Hk. apply (psd_diag_nonneg n); auto.
  - apply resid_sym, HA.
  - apply HG.
Qed.

Lemma good_pivot_value n max_iter A m e v i :
  sym_psd n A -> pc_good n max_iter A m e ->
  pc_pivot m e = Some (v, i) ->
  exists r, v = Fin r /\ 0 <= r.
Proof.
  intros HA HG Hp. pose proof (pc_pivot_spec _ _ _ _ Hp) as [H1 H2].
  pose proof HG as ((HP & _) & _ & _ & _ & _ & _ & HD & _).
  rewrite (perm_length _ _ HP) in H1.
  rewrite HD in H2 by lia. eexists; split; [exact H2|].
  eapply good_resid_nonneg; eauto. apply perm_bound; auto.
Qed.

Lemma good_err n max_iter A m e :
  pc_good n max_iter A m e -> (m < n)%nat ->
  pc_err e = Fin (Rlsum (map (fun k => Rabs (resid A (pc_L e) m k k))
                        (skipn m (pc_perm e)))).
Proof.
  intros HG Hm. pose proof HG as (_ & _ & _ & _ & _ & _ & _ & _ & HE).
  rewrite (HE Hm), (good_candidates _ _ _ _ _ HG), norm1_fin. now rewrite map_map.
Qed.

Lemma good_pivot_pos n max_iter A m e x :
  sym_psd n A -> pc_good n max_iter A m e -> (m < n)%nat ->
  pc_err e = Fin x -> 0 < x ->
  exists r i, pc_pivot m e = Some (Fin r, i) /\ 0 < r.
Proof.
  intros HA HG Hm HE Hx.
  pose proof HG as ((HP & _) & _).
  destruct (pc_pivot_some m e) as (v & i & Hp); [rewrite (perm_length _ _ HP); lia|].
  destruct (good_pivot_value _ _ _ _ _ _ _ HA HG Hp) as (r & -> & Hr).
  exists r, i. split; [assumption|].
  destruct (Rle_lt_dec r 0) as [Hle|]; [exfalso|assumption].
  unfold pc_pivot in Hp. rewrite (good_candidates _ _ _ _ _ HG) in Hp.
  apply tmax_ge in Hp.
  - destruct Hp as [_ Hall]. rewrite (good_err _ _ _ _ _ HG Hm) in HE.
    injection HE as HE. rewrite <- HE in Hx.
    assert (Rlsum (map (fun k => Rabs (resid A (pc_L e) m k k)) (skipn m (pc_perm e))) <= 0).
    { clear Hx HE. rewrite Forall_forall in Hall.
      assert (Hz : forall k, In k (skipn m (pc_perm e)) ->
                 Rabs (resid A (pc_L e) m k k) <= 0).
      { intros k Hk.
        assert (Hkn : (k < n)%nat).
        { assert (In k (pc_perm e)).
          { rewrite <- (firstn_skipn m (pc_perm e)). apply in_or_app. now right. }
          apply (Permutation_in _ (Permutation_sym HP)) in H. apply in_seq in H. lia. }
        pose proof (good_resid_nonneg _ _ _ _ _ k HA HG Hkn).
        specialize (Hall (Fin (resid A (pc_L e) m k k))).
        rewrite map_map in Hall. simpl in Hall.
        specialize (Hall ltac:(apply in_map_iff; exists k; split; auto)).
        rewrite Rabs_right by lra. lra. }
      pose proof (Rlsum_le _ _ (fun _ => 0) _ Hz) as H.
      assert (Rlsum (map (fun _ : nat => 0) (skipn m (pc_perm e))) = 0).
      { clear. induction (skipn m (pc_perm e)); simpl; lra. }
      lra. }
    lra.
  - apply Forall_forall. intros y Hy. apply in_map_iff in Hy.
    destruct Hy as (z & <- & _). exact I.
Qed.

(** The error of a batch element does not grow in a pass with a positive
    pivot. *)
Lemma pc_good_step_err n max_iter A m e r i :
  sym_psd n A -> pc_good n max_iter A m e -> (m < max_iter)%nat ->
  pc_pivot m e = Some (Fin r, i) -> 0 < r ->
  exists x y, pc_err e = Fin x /\
              pc_err (pc_update n (emb A) m e (Fin r) i) = Fin y /\ y <= x.
Proof.
  intros HA HG Hm Hp Hr.
  pose proof (gs_bound n max_iter A m e r i HA HG Hm Hp Hr) as Hb.
  pose proof (pc_good_step n max_iter A m e r i HA HG Hm Hp Hr) as HG'.
  pose proof (gs_wf n max_iter A m e r i HA HG Hm Hp Hr) as HW.
  pose proof (pc_update_fields n max_iter (emb A) m e (Fin r) i HW Hm Hb)
    as (EP & _ & _ & _ & EE).
  rewrite (good_err _ _ _ _ _ HG ltac:(lia)).
  destruct (Nat.lt_ge_cases (m + 1) n) as [Hlt|Hge].
  - rewrite (good_err _ _ _ _ _ HG' Hlt). do 2 eexists. split; [reflexivity|].
    split; [reflexivity|].
    rewrite EP.
    set (perm' := pc_swap m (i + m) (pc_perm e)).
    set (G := resid A (pc_L e) m).
    set (G' := resid A (pc_L (pc_update n (emb A) m e (Fin r) i)) (m + 1)).
    pose proof HW as (HP & _). pose proof (perm_length _ _ HP) as HL.
    assert (Hperm : Permutation (skipn m (pc_perm e)) (skipn m perm'))
      by (apply swap_skipn; lia).
    rewrite (Rlsum_perm _ _ (Permutation_map (fun k => Rabs (G k k)) Hperm)).
    rewrite (skipn_cons_nth _ perm' m 0%nat)
      by (unfold perm', pc_swap; rewrite !upd_length; lia).
    simpl.
    assert (Hle : Rlsum (map (fun k => Rabs (G' k k)) (skipn (m + 1) perm'))
                  <= Rlsum (map (fun k => Rabs (G k k)) (skipn (m + 1) perm'))).
    { apply Rlsum_le. intros k Hk.
      assert (Hkn : (k < n)%nat) by exact (gs_cand_lt n max_iter A m e r i HA HG Hm Hp Hr k Hk).
      pose proof (good_resid_nonneg _ _ _ _ _ k HA HG' Hkn) as H1.
      fold G' in H1. unfold G'.
      rewrite (gs_resid n max_iter A m e r i HA HG Hm Hp Hr) by assumption.
      unfold G' in H1.
      rewrite (gs_resid n max_iter A m e r i HA HG Hm Hp Hr) in H1 by assumption.
      fold perm' in H1 |- *. fold G in H1 |- *.
      set (p := nth m perm' 0%nat) in *.
      assert (0 <= G p k * G p k / G p p).
      { pose proof (gs_r n max_iter A m e r i HA HG Hm Hp Hr) as Er.
        fold perm' in Er. fold p in Er. fold G in Er. rewrite <- Er.
        apply Rmult_le_pos; [nra|]. left. now apply Rinv_0_lt_compat. }
      rewrite !Rabs_right by lra. lra. }
    pose proof (Rabs_pos (G (nth m perm' 0%nat) (nth m perm' 0%nat))). lra.
  - rewrite (EE ltac:(lia)). rewrite (good_err _ _ _ _ _ HG ltac:(lia)).
    do 2 eexists. split; [reflexivity|]. split; [reflexivity|]. lra.
Qed.

Lemma pc_good_init n max_iter A :
  sym_psd n A -> (max_iter <= n)%nat ->
  pc_good n max_iter A 0 (pc_init n max_iter (emb A)).
Proof.
  intros HA Hmi. pose proof HA as (Hsq & Hsym & Hpsd).
  assert (HE : forall j a, (j < max_iter)%nat -> (a < n)%nat ->
            ent (repeat (repeat (Fin 0) n) max_iter) j a = Fin 0).
  { intros j a Hj Ha. unfold ent.
    rewrite (nth_indep _ [] (repeat (Fin 0) n)) by now rewrite repeat_length.
    rewrite nth_repeat. rewrite (nth_indep _ d0 (Fin 0)) by now rewrite repeat_length.
    apply nth_repeat. }
  unfold pc_good. split; [apply pc_wf_init|]. simpl.
  split; [lia|]. split; [lia|]. split; [|split; [|split; [|split; [|split]]]].
  - intros j a Hj Ha. now rewrite HE.
  - intros j a _ Hj Ha. now apply HE.
  - intros i b Hi. lia.
  - intros i _ Hi. rewrite seq_nth by assumption. simpl.
    unfold mdiag. rewrite nth_tab by assumption.
    change (nth i (nth i (emb A) []) d0) with (ent (emb A) i i).
    rewrite (ent_emb n) by assumption. f_equal. unfold resid, gram. simpl. lra.
  - apply (psd_ext n (entR A)); [|assumption].
    intros a b _ _. unfold resid, gram. simpl. lra.
  - intros _. f_equal. symmetry.
    rewrite <- (tab_length _ n (fun i => nth i (nth i (emb A) []) d0)) at 2.
    apply gather_seq.
Qed.

Lemma ndiv_nan_r x : ndiv x NaN = NaN.
Proof. now destruct x. Qed.

Lemma ndiv_zero_r x : ndiv x (Fin 0) = NaN.
Proof. destruct x; simpl; auto. destruct (Req_dec_T 0 0); [reflexivity|lra]. Qed.

Lemma nsub_nan_r x : nsub x NaN = NaN.
Proof. now destruct x. Qed.

(** After a pass whose pivot has no positive square root, the candidates of
    the working diagonal are all undefined. *)
Lemma pc_bad_next n max_iter A m e v i :
  pc_wf n max_iter e -> (m < max_iter)%nat ->
  pc_pivot m e = Some (v, i) ->
  nsqrt v = NaN \/ nsqrt v = Fin 0 ->
  pc_bad n max_iter (m + 1) (pc_update n A m e v i).
Proof.
  intros HW Hm Hp Hs.
  pose proof HW as (HP & HD & _).
  pose proof (pc_pivot_spec _ _ _ _ Hp) as [Hb _].
  rewrite (perm_length _ _ HP) in Hb.
  pose proof (pc_wf_update n max_iter A m e v i HW Hm Hb) as HW'.
  split; [assumption|].
  intros k H1 H2.
  pose proof (pc_update_fields n max_iter A m e v i HW Hm Hb) as (EP & ED & _).
  pose proof HW' as (HP' & _).
  rewrite ED.
  assert (Hk : (nth k (pc_perm (pc_update n A m e v i)) 0 < n)%nat)
    by (apply perm_bound; auto).
  rewrite (nth_scatter_in _ _ _
     (fun k => nsub (nth k (pc_diag e) d0)
        (nmul (pc_lval A (pc_L e) m (nth m (pc_swap m (i + m) (pc_perm e)) 0%nat) v k)
              (pc_lval A (pc_L e) m (nth m (pc_swap m (i + m) (pc_perm e)) 0%nat) v k)))).
  - unfold pc_lval.
    destruct Hs as [-> | ->]; rewrite ?ndiv_nan_r, ?ndiv_zero_r; simpl;
      apply nsub_nan_r.
  - rewrite <- EP. pose proof (perm_NoDup _ _ HP') as ND.
    rewrite <- (firstn_skipn (m + 1) _) in ND. now apply NoDup_app_remove_l in ND.
  - rewrite <- EP.
    replace k with ((m + 1) + (k - (m + 1)))%nat by lia.
    rewrite <- nth_skipn. apply nth_In. rewrite length_skipn.
    rewrite (perm_length _ _ HP'). lia.
  - now rewrite HD.
Qed.

Lemma pc_bad_pivot n max_iter m e v i :
  pc_bad n max_iter m e -> pc_pivot m e = Some (v, i) -> v = NaN.
Proof.
  intros ((HP & _) & HB) Hp. apply pc_pivot_spec in Hp. destruct Hp as [H1 ->].
  rewrite (perm_length _ _ HP) in H1. apply HB; lia.
Qed.

(** What the loop maintains for a positive semi-definite input. *)
Lemma pc_inv_step n max_iter A m e e' :
  sym_psd n A -> (m < max_iter)%nat ->
  pc_good n max_iter A m e \/ pc_bad n max_iter m e ->
  pc_step n (emb A) m e = Ok e' ->
  pc_good n max_iter A (m + 1) e' \/ pc_bad n max_iter (m + 1) e'.
Proof.
  intros HA Hm [HG|HB] HS; apply pc_step_inv in HS; destruct HS as (v & i & Hp & ->).
  - destruct (good_pivot_value _ _ _ _ _ _ _ HA HG Hp) as (r & -> & Hr).
    destruct (Rle_lt_dec r 0) as [Hle|Hlt].
    + right. apply pc_bad_next; auto; [apply HG|].
      right. assert (r = 0) by lra. subst r. simpl.
      destruct (Rlt_dec 0 0); [lra|]. now rewrite sqrt_0.
    + left. now apply pc_good_step.
  - right. apply pc_bad_next; auto; [apply HB|].
    left. now rewrite (pc_bad_pivot _ _ _ _ _ _ HB Hp).
Qed.

Lemma pc_reach_inv n As max_iter tol st :
  Forall (sym_psd n) As -> (max_iter <= n)%nat ->
  pc_reach n (map emb As) max_iter tol st ->
  forall k A e, nth_error As k = Some A -> nth_error (pc_elems st) k = Some e ->
    pc_good n max_iter A (pc_m st) e \/ pc_bad n max_iter (pc_m st) e.
Proof.
  intros HAs Hmi HR. induction HR as [|st st' HR IH HC HB]; intros k A e HA He.
  - simpl in He. rewrite nth_error_map, nth_error_map, HA in He. simpl in He.
    injection He as <-. left. apply pc_good_init; auto.
    rewrite Forall_forall in HAs. eapply HAs, nth_error_In; eauto.
  - apply pc_cond_true in HC. apply pc_body_inv in HB. destruct HB as [E1 E2].
    destruct (osequence_map2_nth _ _ _ _ _ _ _ E2 _ _ He) as (a & b & Ha & Hb & Hs).
    rewrite nth_error_map, HA in Ha. simpl in Ha. injection Ha as <-.
    rewrite E1. eapply pc_inv_step; eauto.
    rewrite Forall_forall in HAs. eapply HAs, nth_error_In; eauto.
Qed.

(** C8, as the code has it.  For a batch of symmetric positive
    semi-definite matrices (and [max_iter] clamped to [n], as the function
    does), in every pass of the loop and for every batch element whose
    selected pivot value is positive, the element's error after the pass is
    at most its error before the pass, and both are real numbers. *)
Theorem error_nonincreasing_psd n As max_iter tol st st' k e e' r i :
  Forall (sym_psd n) As -> (max_iter <= n)%nat ->
  pc_reach n (map emb As) max_iter tol st ->
  pc_cond max_iter tol st = Ok true ->
  pc_body n (map emb As) st = Ok st' ->
  nth_error (pc_elems st) k = Some e ->
  nth_error (pc_elems st') k = Some e' ->
  pc_pivot (pc_m st) e = Some (Fin r, i) -> 0 < r ->
  exists x y, pc_err e = Fin x /\ pc_err e' = Fin y /\ y <= x.
Proof.
  intros HAs Hmi HR HC HB He He' Hp Hr.
  pose proof (pc_cond_true _ _ _ HC) as Hm.
  apply pc_body_inv in HB. destruct HB as [E1 E2].
  destruct (osequence_map2_nth _ _ _ _ _ _ _ E2 _ _ He') as (a & b & Ha & Hb & Hs).
  rewrite He in Hb. injection Hb as <-.
  rewrite nth_error_map in Ha. destruct (nth_error As k) as [A|] eqn:EA; [|discriminate].
  simpl in Ha. injection Ha as <-.
  assert (HA : sym_psd n A).
  { rewrite Forall_forall in HAs. eapply HAs, nth_error_In; eauto. }
  destruct (pc_reach_inv n As max_iter tol st HAs Hmi HR k A e EA He) as [HG|HB].
  - unfold pc_step in Hs. rewrite Hp in Hs. injection Hs as <-.
    now apply (pc_good_step_err n max_iter).
  - pose proof (pc_bad_pivot _ _ _ _ _ _ HB Hp) as X. discriminate X.
Qed.

(** The loop on one matrix with a tolerance that is not negative: every
    pass has a positive pivot, and the loop ends after all [max_iter]
    passes or with an error within the tolerance. *)
Lemma pc_loop_good n max_iter A t :
  sym_psd n A -> (max_iter <= n)%nat -> 0 <= t ->
  forall fuel m e,
    pc_good n max_iter A m e -> (max_iter - m <= fuel)%nat ->
    exists m' e',
      pc_loop fuel n [emb A] max_iter (Fin t) {| pc_m := m; pc_elems := [e] |}
      = Ok {| pc_m := m'; pc_elems := [e'] |} /\
      pc_good n max_iter A m' e' /\
      (m' = max_iter \/ exists x, pc_err e' = Fin x /\ x <= t).
Proof.
  intros HA Hmi Ht. induction fuel as [|f IH]; intros m e HG Hf.
  - simpl. exists m, e. split; [reflexivity|]. split; [assumption|]. left.
    destruct HG as (_ & H & _). lia.
  - simpl. unfold pc_cond at 1. simpl.
    destruct (Nat.ltb_spec m max_iter) as [Hlt|Hge]; simpl.
    + rewrite (good_err _ _ _ _ _ HG ltac:(lia)).
      set (x := Rlsum _). simpl.
      destruct (Rlt_dec t x) as [Hx|Hx]; simpl.
      * destruct (good_pivot_pos n max_iter A m e x HA HG ltac:(lia)
                    (good_err _ _ _ _ _ HG ltac:(lia)) ltac:(lra)) as (r & i & Hp & Hr).
        unfold pc_body. simpl. unfold pc_step at 1. rewrite Hp. simpl.
        apply IH; [|lia]. now apply pc_good_step.
      * exists m, e. split; [reflexivity|]. split; [assumption|]. right. exists x. split; [|lra].
        apply (good_err _ _ _ _ _ HG). lia.
    + exists m, e. split; [reflexivity|]. split; [assumption|]. left. destruct HG as (_ & H & _). lia.
Qed.

(** Once the loop has left nothing, the residual is zero. *)
Lemma pc_good_exhausted n max_iter A m e a b :
  sym_psd n A -> pc_good n max_iter A m e ->
  (m = n \/ exists x, pc_err e = Fin x /\ x <= 0) ->
  (a < n)%nat -> (b < n)%nat ->
  resid A (pc_L e) m a b = 0.
Proof.
  intros HA HG Hend Ha Hb.
  pose proof HG as ((HP & _) & _ & Hmn & _ & _ & HZ & _).
  destruct (perm_index n (pc_perm e) a HP Ha) as (k & Hk & <-).
  destruct (Nat.lt_ge_cases k m) as [Hlo|Hhi]; [now apply HZ|].
  destruct Hend as [->|(x & Hx & Hx0)]; [lia|].
  rewrite (good_err _ _ _ _ _ HG ltac:(lia)) in Hx. injection Hx as Hx.
  assert (Hnn : Forall (fun y => 0 <= y)
            (map (fun k => Rabs (resid A (pc_L e) m k k)) (skipn m (pc_perm e)))).
  { apply Forall_forall. intros y Hy. apply in_map_iff in Hy.
    destruct Hy as (z & <- & _). apply Rabs_pos. }
  pose proof (Rlsum_nonneg _ Hnn).
  pose proof (Rlsum_zero_all _ Hnn ltac:(lra)) as Hall.
  rewrite Forall_forall in Hall.
  assert (Hin : In (nth k (pc_perm e) 0%nat) (skipn m (pc_perm e))).
  { replace k with (m + (k - m))%nat by lia. rewrite <- nth_skipn. apply nth_In.
    rewrite length_skipn, (perm_length _ _ HP). lia. }
  specialize (Hall _ (in_map _ _ _ Hin)). simpl in Hall.
  apply (psd_zero_row n (resid A (pc_L e) m));
    [apply resid_sym, HA | apply HG | assumption | assumption | ].
  destruct (Rcase_abs (resid A (pc_L e) m (nth k (pc_perm e) 0%nat)
                         (nth k (pc_perm e) 0%nat))) as [Hneg|Hpos].
  - rewrite Rabs_left in Hall by assumption. lra.
  - rewrite Rabs_right in Hall by assumption. assumption.
Qed.

Lemma ent_firstn L m j a : (j < m)%nat -> ent (firstn m L) j a = ent L j a.
Proof.
  intros H. unfold ent. rewrite nth_firstn.
  destruct (Nat.ltb_spec j m); [reflexivity|lia].
Qed.

(** C4, as the code has it.  For every [n x n] symmetric positive
    semi-definite matrix [A], [pivoted_cholesky(A, max_iter = n,
    error_tol = 0)] returns one factor [L], with real entries, such that
    [L' L = A] entry by entry: the factor as returned, with no permutation
    applied to it. *)
Theorem full_rank_recovery n A :
  sym_psd n A ->
  exists L,
    pivoted_cholesky {| bt_n := n; bt_mats := [emb A] |} (Z.of_nat n) (Fin 0)
      = Ok [L] /\
    (forall j a, (j < length L)%nat -> (a < n)%nat -> finite (ent L j a)) /\
    (forall a b, (a < n)%nat -> (b < n)%nat ->
       gram L (length L) a b = entR A a b).
Proof.
  intros HA. unfold pivoted_cholesky, pc_run. simpl bt_n. simpl bt_mats.
  rewrite Z.min_id.
  destruct (Z.ltb_spec (Z.of_nat n) 0) as [H|_]; [lia|].
  rewrite Nat2Z.id. unfold pc_start. simpl map.
  destruct (pc_loop_good n n A 0 HA (Nat.le_refl n) (Rle_refl 0) n 0%nat
              (pc_init n n (emb A)) (pc_good_init n n A HA (Nat.le_refl n))
              ltac:(lia)) as (m & e & -> & HG & Hend).
  simpl. eexists; split; [reflexivity|].
  pose proof HG as ((_ & _ & HL & _) & Hm & _ & HF & _).
  assert (Hlen : length (firstn m (pc_L e)) = m) by (rewrite length_firstn; lia).
  rewrite Hlen. split.
  - intros j a Hj Ha. rewrite ent_firstn by assumption. apply HF; auto. lia.
  - intros a b Ha Hb.
    pose proof (pc_good_exhausted n n A m e a b HA HG Hend Ha Hb) as H0.
    unfold resid in H0.
    transitivity (gram (pc_L e) m a b); [|lra].
    unfold gram. apply Rsum_ext. intros j Hj. now rewrite !ent_firstn.
Qed.

(** ** The concrete runs *)

Lemma sqrt_4 : sqrt 4 = 2.
Proof. replace 4 with (2 * 2) by lra. apply sqrt_square; lra. Qed.

Ltac rcases :=
  repeat match goal with
  | |- context [Rcase_abs ?a] => destruct (Rcase_abs a); [try lra | try lra]
  | |- context [Rle_dec ?a ?b] => destruct (Rle_dec a b); [try lra | try lra]
  | |- context [Rlt_dec ?a ?b] => destruct (Rlt_dec a b); [try lra | try lra]
  | |- context [Req_dec_T ?a ?b] => destruct (Req_dec_T a b); [try lra | try lra]
  end.

Ltac run_eval :=
  repeat (progress (cbn; rewrite ?sqrt_4, ?sqrt_1; unfold Rabs; rcases)).

Lemma A_indef_pass :
  pc_step 2 (emb A_indef) 0 (pc_init 2 2 (emb A_indef)) = Ok e_indef_1.
Proof.
  unfold pc_step, pc_pivot, e_indef_1. run_eval. repeat f_equal; lra.
Qed.

Lemma A_indef_cond :
  pc_cond 2 default_tol (pc_start 2 2 [emb A_indef]) = Ok true.
Proof. unfold pc_cond, default_tol. run_eval. reflexivity. Qed.

Lemma A_indef_body :
  pc_body 2 [emb A_indef] (pc_start 2 2 [emb A_indef]) =
  Ok {| pc_m := 1; pc_elems := [e_indef_1] |}.
Proof.
  unfold pc_body, pc_start. cbn [pc_m pc_elems map map2 osequence].
  rewrite A_indef_pass. reflexivity.
Qed.

Lemma A_indef_reach :
  pc_reach 2 [emb A_indef] 2 default_tol {| pc_m := 1; pc_elems := [e_indef_1] |}.
Proof.
  eapply reach_pass; [apply reach_start|apply A_indef_cond|apply A_indef_body].
Qed.

Lemma A_diag_pivot :
  pc_pivot 0 (pc_init 2 2 (emb A_diag)) = Some (Fin 4, 1%nat).
Proof. unfold pc_pivot. run_eval. reflexivity. Qed.

Lemma A_diag_pass :
  pc_step 2 (emb A_diag) 0 (pc_init 2 2 (emb A_diag)) = Ok e_diag_1.
Proof.
  unfold pc_step, pc_pivot, e_diag_1. run_eval. repeat f_equal; lra.
Qed.

Lemma A_diag_cond :
  pc_cond 2 (Fin 0) (pc_start 2 2 [emb A_diag]) = Ok true.
Proof. unfold pc_cond. run_eval. reflexivity. Qed.

Lemma A_diag_body :
  pc_body 2 [emb A_diag] (pc_start 2 2 [emb A_diag]) =
  Ok {| pc_m := 1; pc_elems := [e_diag_1] |}.
Proof.
  unfold pc_body, pc_start. cbn [pc_m pc_elems map map2 osequence].
  rewrite A_diag_pass. reflexivity.
Qed.

Lemma A_diag_run :
  pc_run {| bt_n := 2; bt_mats := [emb A_diag] |} 2 (Fin 0) =
  Ok {| pc_m := 2; pc_elems := [e_diag_2] |}.
Proof.
  unfold pc_run. cbn. change (Pos.to_nat 2) with 2%nat.
  unfold pc_loop, pc_cond, pc_body, pc_step, pc_pivot, e_diag_2. run_eval.
  replace (1 - 0 / 2 * (0 / 2)) with 1 by lra. rewrite sqrt_1.
  repeat f_equal; lra.
Qed.

Lemma A_diag_sym_psd : sym_psd 2 A_diag.
Proof.
  split; [|split].
  - split; [reflexivity|]. repeat constructor.
  - intros a b Ha Hb.
    destruct a as [|[|a]]; destruct b as [|[|b]]; try lia; reflexivity.
  - intros x. unfold qform, entR, A_diag. simpl.
    pose proof (Rle_0_sqr (x 0%nat)). pose proof (Rle_0_sqr (x 1%nat)).
    unfold Rsqr in *. lra.
Qed.

Lemma A_neg_run :
  pivoted_cholesky A_neg 1 default_tol = Ok [[[NaN]]].
Proof.
  unfold pivoted_cholesky, pc_run, default_tol. cbn. change (Pos.to_nat 1) with 1%nat.
  cbn. unfold pc_cond, pc_body, pc_step, pc_pivot. run_eval. reflexivity.
Qed.

(** ** Where the specification differs from the code *)

(** C4, as stated, fails on [A_diag]: the loop selects the second index
    first, the permutation it computes is the exchange [1; 0], and the
    factor it returns already has its columns in the order of the input;
    rearranged by the inverse of that permutation its product is
    [diag (4, 1)], not [A_diag]. *)
Lemma inverse_permutation_breaks_recovery :
  pc_run {| bt_n := 2; bt_mats := [emb A_diag] |} 2 (Fin 0) =
    Ok {| pc_m := 2; pc_elems := [e_diag_2] |} /\
  pivoted_cholesky {| bt_n := 2; bt_mats := [emb A_diag] |} 2 (Fin 0) =
    Ok [pc_L e_diag_2] /\
  inv_perm (pc_perm e_diag_2) = [1%nat; 0%nat] /\
  gram (permute_cols (inv_perm (pc_perm e_diag_2)) (pc_L e_diag_2)) 2 0 0
    <> entR A_diag 0 0.
Proof.
  split; [apply A_diag_run|]. split; [|split].
  - unfold pivoted_cholesky. rewrite A_diag_run. reflexivity.
  - reflexivity.
  - unfold gram, ent, entR. simpl. lra.
Qed.

(** C5, as stated, fails on [A_neg]: the only diagonal entry, the selected
    one, is negative, and the call returns a factor whose entry is the
    undefined square root. *)
Lemma negative_pivot_returns_nan :
  pc_pivot 0 (pc_init 1 1 [[Fin (-1)]]) = Some (Fin (-1), 0%nat) /\
  -1 < 0 /\
  pivoted_cholesky A_neg 1 default_tol = Ok [[[NaN]]] /\
  ~ raises (pivoted_cholesky A_neg 1 default_tol).
Proof.
  split; [reflexivity|]. split; [lra|]. split; [apply A_neg_run|].
  rewrite A_neg_run. intros [e H]. discriminate H.
Qed.

(** C6, as stated, fails for [max_iter = 0]: the call returns the factor
    with no rows. *)
Lemma zero_max_iter_returns :
  pivoted_cholesky A_neg 0 default_tol = Ok [[]] /\
  ~ raises (pivoted_cholesky A_neg 0 default_tol).
Proof.
  assert (E : pivoted_cholesky A_neg 0 default_tol = Ok [[]]) by reflexivity.
  split; [exact E|]. rewrite E. intros [e H]. discriminate H.
Qed.

(** C8, as stated, fails on [A_indef], which is symmetric and not positive
    semi-definite: the error is 5 before the first pass and 8 after it. *)
Lemma error_grows_on_indefinite_input :
  symmetric 2 (entR A_indef) /\
  pc_reach 2 [emb A_indef] 2 default_tol (pc_start 2 2 [emb A_indef]) /\
  pc_cond 2 default_tol (pc_start 2 2 [emb A_indef]) = Ok true /\
  pc_body 2 [emb A_indef] (pc_start 2 2 [emb A_indef]) =
    Ok {| pc_m := 1; pc_elems := [e_indef_1] |} /\
  val (pc_err (pc_init 2 2 (emb A_indef))) = 5 /\
  val (pc_err e_indef_1) = 8 /\
  ~ (val (pc_err e_indef_1) <= val (pc_err (pc_init 2 2 (emb A_indef)))).
Proof.
  split; [|split; [|split; [|split; [|split; [|split]]]]].
  - intros a b Ha Hb.
    destruct a as [|[|a]]; destruct b as [|[|b]]; try lia; reflexivity.
  - apply reach_start.
  - apply A_indef_cond.
  - apply A_indef_body.
  - simpl. unfold Rabs. rcases; try lra.
  - reflexivity.
  - simpl. unfold Rabs. rcases; try lra.
Qed.

(** ** The theorems at concrete inputs *)

Lemma full_rank_recovery_witness :
  sym_psd 2 A_diag /\
  exists L,
    pivoted_cholesky {| bt_n := 2; bt_mats := [emb A_diag] |} (Z.of_nat 2) (Fin 0)
      = Ok [L] /\
    (forall j a, (j < length L)%nat -> (a < 2)%nat -> finite (ent L j a)) /\
    (forall a b, (a < 2)%nat -> (b < 2)%nat ->
       gram L (length L) a b = entR A_diag a b).
Proof.
  split; [apply A_diag_sym_psd|].
  apply (full_rank_recovery 2 A_diag). apply A_diag_sym_psd.
Defined.

Lemma negative_pivot_is_not_raised_witness :
  bt_mats A_neg <> [] /\ (0 <= 1)%Z /\
  (exists Ls, pivoted_cholesky A_neg 1 default_tol = Ok Ls) /\
  (forall st A e v i,
     pc_reach 1 (bt_mats A_neg) 1 default_tol st ->
     pc_cond 1 default_tol st = Ok true ->
     In e (pc_elems st) ->
     pc_pivot (pc_m st) e = Some (Fin v, i) -> v < 0 ->
     exists e', pc_step 1 A (pc_m st) e = Ok e' /\
       nth (nth (pc_m st) (pc_perm e') 0%nat) (nth (pc_m st) (pc_L e') []) d0
       = NaN).
Proof.
  assert (H1 : bt_mats A_neg <> []) by discriminate.
  assert (H2 : (0 <= 1)%Z) by lia.
  split; [exact H1|]. split; [exact H2|].
  exact (negative_pivot_is_not_raised A_neg 1 default_tol H1 H2).
Defined.

Lemma nonpositive_max_iter_witness :
  bt_mats A_neg <> [] /\ (0 <= 0)%Z /\
  pivoted_cholesky A_neg 0 default_tol = Ok [[]].
Proof.
  assert (H0 : bt_mats A_neg <> []) by discriminate.
  assert (H : (0 <= 0)%Z) by lia.
  split; [exact H0|]. split; [exact H|].
  exact (nonpositive_max_iter A_neg 0 default_tol H0 H).
Defined.

Lemma permutation_bijection_witness :
  pc_reach 2 [emb A_indef] 2 default_tol {| pc_m := 1; pc_elems := [e_indef_1] |} /\
  Permutation (seq 0 2) (pc_perm e_indef_1).
Proof.
  split; [apply A_indef_reach|].
  apply (proj2 (proj2 (permutation_bijection 2 [emb A_indef] 2 default_tol))
           {| pc_m := 1; pc_elems := [e_indef_1] |} e_indef_1).
  - apply A_indef_reach.
  - simpl. left. reflexivity.
Defined.

Lemma error_nonincreasing_psd_witness :
  Forall (sym_psd 2) [A_diag] /\
  pc_pivot 0 (pc_init 2 2 (emb A_diag)) = Some (Fin 4, 1%nat) /\
  exists x y, pc_err (pc_init 2 2 (emb A_diag)) = Fin x /\
              pc_err e_diag_1 = Fin y /\ y <= x.
Proof.
  assert (H : Forall (sym_psd 2) [A_diag]) by (constructor; [apply A_diag_sym_psd|constructor]).
  split; [exact H|]. split; [apply A_diag_pivot|].
  apply (error_nonincreasing_psd 2 [A_diag] 2 (Fin 0)
           (pc_start 2 2 [emb A_diag]) {| pc_m := 1; pc_elems := [e_diag_1] |}
           0%nat (pc_init 2 2 (emb A_diag)) e_diag_1 4 1%nat).
  - exact H.
  - lia.
  - apply reach_start.
  - apply A_diag_cond.
  - apply A_diag_body.
  - reflexivity.
  - reflexivity.
  - apply A_diag_pivot.
  - lra.
Defined.

Lemma deflation_frame_witness :
  pc_step 2 (emb A_indef) 0 (pc_init 2 2 (emb A_indef)) = Ok e_indef_1 /\
  (forall k, ~ In k (skipn (0 + 1) (pc_perm e_indef_1)) ->
     nth k (pc_diag e_indef_1) d0 = nth k (pc_diag (pc_init 2 2 (emb A_indef))) d0) /\
  (forall i, (i <= 0)%nat ->
     nth (nth i (pc_perm e_indef_1) 0%nat) (pc_diag e_indef_1) d0 =
     nth (nth i (pc_perm e_indef_1) 0%nat) (pc_diag (pc_init 2 2 (emb A_indef))) d0).
Proof.
  split; [apply A_indef_pass|].
  apply (deflation_frame 2 [emb A_indef] 2 default_tol
           (pc_start 2 2 [emb A_indef]) (emb A_indef)
           (pc_init 2 2 (emb A_indef)) e_indef_1).
  - apply reach_start.
  - apply A_indef_cond.
  - simpl. left. reflexivity.
  - apply A_indef_pass.
Defined.

Local Close Scope R_scope.

(** ** The store: out-of-place operations only allocate *)

Lemma extends_ret (A : Type) (a : A) : extends (ret a).
Proof. intros h a' h' H. injection H as <- <-. exists []. now rewrite app_nil_r. Qed.

Lemma extends_bind (A B : Type) (c : M A) (k : A -> M B) :
  extends c -> (forall a, extends (k a)) -> extends (bind c k).
Proof.
  intros Hc Hk h b h' H. unfold bind in H.
  destruct (c h) as [[a h1]|] eqn:E; [|discriminate].
  destruct (Hc _ _ _ E) as [e1 ->]. destruct (Hk a _ _ _ H) as [e2 ->].
  exists (e1 ++ e2). now rewrite app_assoc.
Qed.

Lemma extends_lift (A : Type) (o : outcome A) : extends (lift o).
Proof.
  intros h a h' H. unfold lift in H. destruct o; [|discriminate].
  injection H as <- <-. exists []. now rewrite app_nil_r.
Qed.

Lemma extends_load r : extends (load r).
Proof.
  intros h a h' H. unfold load in H. destruct (nth_error h r); [|discriminate].
  injection H as <- <-. exists []. now rewrite app_nil_r.
Qed.

Lemma extends_alloc t : extends (alloc t).
Proof. intros h a h' H. injection H as <- <-. now exists [t]. Qed.

Lemma extends_if (A : Type) (b : bool) (c1 c2 : M A) :
  extends c1 -> extends c2 -> extends (if b then c1 else c2).
Proof. now destruct b. Qed.

(** An in-place operation does not have the property. *)
Lemma inplace_not_extends :
  ~ extends (op1_inplace (fun t => Ok (t_map nabs t)) 0).
Proof.
  intros H.
  destruct (H [T0 (Fin (-1))] 0 [T0 (Fin (Rabs (-1)))] eq_refl) as [ext E].
  injection E as E _. rewrite Rabs_left in E by lra. lra.
Qed.

Create HintDb store discriminated.

#[local] Hint Resolve extends_ret extends_lift extends_load extends_alloc : store.

Lemma extends_op1 f r : extends (op1 f r).
Proof. unfold op1. repeat (apply extends_bind; [auto with store|intros]). auto with store. Qed.

Lemma extends_op2 f r1 r2 : extends (op2 f r1 r2).
Proof. unfold op2. repeat (apply extends_bind; [auto with store|intros]). auto with store. Qed.

#[local] Hint Resolve extends_op1 extends_op2 : store.

Ltac extends_tac :=
  repeat first
    [ apply extends_bind; [|intros]
    | apply extends_if
    | apply extends_op1 | apply extends_op2
    | apply extends_ret | apply extends_lift | apply extends_load
    | apply extends_alloc ].

Lemma extends_woodbury_factor V shift half :
  extends (woodbury_factor V shift half).
Proof.
  unfold woodbury_factor, size_rows, eye, reciprocal, tabs, tmaxall, tdiv,
    unsqueeze, transpose, tmul, matmul, tadd, tcopy, cholesky, potrs, tsub, tnorm.
  extends_tac.
Qed.

Lemma extends_woodbury_solve vector V R shift :
  extends (woodbury_solve vector V R shift).
Proof.
  unfold woodbury_solve, ndimension, reciprocal, tabs, tmaxall, tdiv,
    unsqueeze, transpose, tmul, matmul, tsub.
  extends_tac.
Qed.

Lemma extends_frame (A : Type) (c : M A) h a h' p t :
  extends c -> c h = Ok (a, h') ->
  nth_error h p = Some t -> nth_error h' p = Some t.
Proof.
  intros Hc H Hp. destruct (Hc _ _ _ H) as [ext ->].
  rewrite nth_error_app1; [assumption|].
  apply nth_error_Some. congruence.
Qed.

(** C10.  [woodbury_factor] and [woodbury_solve] leave every tensor that
    was in the store before the call as it was, their inputs [vector],
    [low_rank_mat], [woodbury_factor] and [shift] among them: whatever
    reference [p] held the tensor [t] before a call that returns holds [t]
    after it. *)
Theorem woodbury_inputs_unchanged h vector V R shift half :
  (forall r h', woodbury_factor V shift half h = Ok (r, h') ->
     forall p t, nth_error h p = Some t -> nth_error h' p = Some t) /\
  (forall r h', woodbury_solve vector V R shift h = Ok (r, h') ->
     forall p t, nth_error h p = Some t -> nth_error h' p = Some t).
Proof.
  split; intros r h' H p t Hp.
  - eapply extends_frame; [apply extends_woodbury_factor|exact H|exact Hp].
  - eapply extends_frame; [apply extends_woodbury_solve|exact H|exact Hp].
Qed.

Local Open Scope R_scope.

(** ** Tensor operations on real entries *)

Lemma map_tab (A B : Type) (g : A -> B) n (f : nat -> A) :
  map g (tab n f) = tab n (fun i => g (f i)).
Proof. unfold tab. now rewrite map_map. Qed.

Lemma nsum_tab_fin n f : nsum (tab n (fun i => Fin (f i))) = Fin (Rsum n f).
Proof.
  unfold tab. rewrite <- (map_map f Fin). now rewrite nsum_fin, Rlsum_seq.
Qed.

Lemma tab_map_nth (A B : Type) (g : A -> B) (l : list A) d n :
  length l = n -> map g l = tab n (fun i => g (nth i l d)).
Proof. intros <-. symmetry. apply tab_nth_map. Qed.

Lemma ent_rowsF r c g i j :
  (i < r)%nat -> (j < c)%nat -> ent (rowsF r c g) i j = Fin (g i j).
Proof.
  intros Hi Hj. unfold ent, rowsF.
  rewrite (nth_tab _ r _ i []) by assumption. now rewrite nth_tab.
Qed.

Lemma rowsF_length r c g : length (rowsF r c g) = r.
Proof. apply tab_length. Qed.

Lemma rowsF_ext r c g1 g2 :
  (forall i j, (i < r)%nat -> (j < c)%nat -> g1 i j = g2 i j) ->
  rowsF r c g1 = rowsF r c g2.
Proof.
  intros H. unfold rowsF. apply tab_ext. intros i Hi. apply tab_ext.
  intros j Hj. now rewrite H.
Qed.

Lemma emb_rowsF k n V :
  length V = k -> Forall (fun r => length r = n) V ->
  emb V = rowsF k n (entR V).
Proof.
  intros HL HR. unfold emb, rowsF.
  rewrite (tab_map_nth _ _ (map Fin) V [] k HL).
  apply tab_ext. intros i Hi. unfold entR.
  apply tab_map_nth. rewrite Forall_forall in HR. apply HR, nth_In. lia.
Qed.

Lemma vec_tab n (l : list R) :
  length l = n -> map Fin l = tab n (fun j => Fin (nth j l 0)).
Proof. intros H. now apply tab_map_nth. Qed.

(** Elementwise operations *)

Lemma nrecip_fin x : x <> 0 -> nrecip (Fin x) = Fin (1 / x).
Proof. intros H. unfold nrecip. simpl. now destruct (Req_dec_T x 0). Qed.

Lemma ndiv_fin x y : y <> 0 -> ndiv (Fin x) (Fin y) = Fin (x / y).
Proof. intros H. simpl. now destruct (Req_dec_T y 0). Qed.

Lemma nsqrt_fin x : 0 <= x -> nsqrt (Fin x) = Fin (sqrt x).
Proof. intros H. simpl. destruct (Rlt_dec x 0); [lra|reflexivity]. Qed.

(** The maximum *)

Lemma tmax_from_fin t : forall b bi i,
  fst (tmax_from (Fin b) bi i (map Fin t)) = Fin (fold_left Rmax t b).
Proof.
  induction t as [|x t IH]; intros b bi i; simpl; [reflexivity|].
  destruct (Rle_dec x b) as [H|H].
  - rewrite IH. now rewrite Rmax_left.
  - rewrite IH. rewrite Rmax_right by lra. reflexivity.
Qed.

Lemma tmax_fin l :
  l <> [] -> exists i, tmax (map Fin l) = Some (Fin (Rlmax l), i).
Proof.
  destruct l as [|x t]; [congruence|]. intros _. simpl.
  pose proof (tmax_from_fin t x 0%nat 1%nat) as H.
  destruct (tmax_from (Fin x) 0 1 (map Fin t)) as [v i]. simpl in H. subst v.
  now exists i.
Qed.

Lemma fold_Rmax_ge t : forall b, b <= fold_left Rmax t b.
Proof.
  induction t as [|x t IH]; intros b; simpl; [lra|].
  eapply Rle_trans; [apply (Rmax_l b x)|apply IH].
Qed.

Lemma Rlmax_pos l : l <> [] -> Forall (fun x => 0 < x) l -> 0 < Rlmax l.
Proof.
  destruct l as [|x t]; [congruence|]. intros _ H. inversion H; subst. simpl.
  pose proof (fold_Rmax_ge t x). lra.
Qed.

(** Broadcasting *)

Lemma t_bop_vec_scalar f f' n f1 s :
  (forall j, (j < n)%nat -> f (Fin (f1 j)) (Fin s) = Fin (f' (f1 j) s)) ->
  t_bop f (vecF n f1) (T0 (Fin s)) = Ok (vecF n (fun j => f' (f1 j) s)).
Proof.
  intros H. unfold t_bop, vecF. simpl. rewrite tab_length.
  assert (E : bdim n 1 = Some n).
  { unfold bdim. destruct (Nat.eqb_spec n 1) as [->|]; reflexivity. }
  rewrite E. unfold mk_tensor. f_equal. f_equal. apply tab_ext. intros j Hj.
  assert (E2 : nth (bidx n j) (tab n (fun j0 => Fin (f1 j0))) d0 = Fin (f1 j)).
  { unfold bidx. destruct (Nat.eqb_spec n 1).
    - subst n. assert (j = 0%nat) by lia. subst j. reflexivity.
    - now apply nth_tab. }
  rewrite E2. now apply H.
Qed.

Lemma t_bop_mat_scalar f f' r c g s :
  (forall i j, (i < r)%nat -> (j < c)%nat ->
     f (Fin (g i j)) (Fin s) = Fin (f' (g i j) s)) ->
  t_bop f (matF r c g) (T0 (Fin s)) = Ok (matF r c (fun i j => f' (g i j) s)).
Proof.
  intros H. unfold t_bop, matF. simpl. rewrite rowsF_length.
  assert (E : forall n, bdim n 1 = Some n).
  { intros n. unfold bdim. destruct (Nat.eqb_spec n 1) as [->|]; reflexivity. }
  rewrite !E. unfold mk_tensor. f_equal. f_equal. apply tab_ext. intros i Hi.
  apply tab_ext. intros j Hj.
  assert (E2 : ent (rowsF r c g) (bidx r i) (bidx c j) = Fin (g i j)).
  { unfold bidx. destruct (Nat.eqb_spec r 1), (Nat.eqb_spec c 1); subst;
      try (assert (i = 0%nat) by lia; subst i);
      try (assert (j = 0%nat) by lia; subst j);
      apply ent_rowsF; lia. }
  rewrite E2. now apply H.
Qed.

Lemma t_bop_mat_mat f f' r c g1 g2 :
  (forall i j, (i < r)%nat -> (j < c)%nat ->
     f (Fin (g1 i j)) (Fin (g2 i j)) = Fin (f' (g1 i j) (g2 i j))) ->
  t_bop f (matF r c g1) (matF r c g2) =
  Ok (matF r c (fun i j => f' (g1 i j) (g2 i j))).
Proof.
  intros H. unfold t_bop, matF. simpl. rewrite !rowsF_length.
  unfold bdim. rewrite !Nat.eqb_refl. unfold mk_tensor. f_equal. f_equal.
  apply tab_ext. intros i Hi. apply tab_ext. intros j Hj.
  assert (E2 : forall g, ent (rowsF r c g) (bidx r i) (bidx c j) = Fin (g i j)).
  { intros g. unfold bidx. destruct (Nat.eqb_spec r 1), (Nat.eqb_spec c 1); subst;
      try (assert (i = 0%nat) by lia; subst i);
      try (assert (j = 0%nat) by lia; subst j);
      apply ent_rowsF; lia. }
  rewrite !E2. now apply H.
Qed.

Lemma t_bop_col_mat f f' r c g1 g2 :
  (forall i j, (i < r)%nat -> (j < c)%nat ->
     f (Fin (g1 i 0%nat)) (Fin (g2 i j)) = Fin (f' (g1 i 0%nat) (g2 i j))) ->
  t_bop f (matF r 1 g1) (matF r c g2) =
  Ok (matF r c (fun i j => f' (g1 i 0%nat) (g2 i j))).
Proof.
  intros H. unfold t_bop, matF. simpl. rewrite !rowsF_length.
  assert (E : bdim 1 c = Some c).
  { unfold bdim. destruct (Nat.eqb_spec 1 c) as [<-|]; reflexivity. }
  rewrite E. unfold bdim at 1. rewrite Nat.eqb_refl.
  unfold mk_tensor. f_equal. f_equal.
  apply tab_ext. intros i Hi. apply tab_ext. intros j Hj.
  assert (E1 : ent (rowsF r 1 g1) (bidx r i) (bidx 1 j) = Fin (g1 i 0%nat)).
  { unfold bidx. simpl. destruct (Nat.eqb_spec r 1); subst;
      try (assert (i = 0%nat) by lia; subst i); apply ent_rowsF; lia. }
  assert (E2 : ent (rowsF r c g2) (bidx r i) (bidx c j) = Fin (g2 i j)).
  { unfold bidx. destruct (Nat.eqb_spec r 1), (Nat.eqb_spec c 1); subst;
      try (assert (i = 0%nat) by lia; subst i);
      try (assert (j = 0%nat) by lia; subst j);
      apply ent_rowsF; lia. }
  rewrite E1, E2. now apply H.
Qed.

Lemma t_bop_vec_vec f f' n f1 f2 :
  (forall j, (j < n)%nat ->
     f (Fin (f1 j)) (Fin (f2 j)) = Fin (f' (f1 j) (f2 j))) ->
  t_bop f (vecF n f1) (vecF n f2) = Ok (vecF n (fun j => f' (f1 j) (f2 j))).
Proof.
  intros H. unfold t_bop, vecF. simpl. rewrite !tab_length.
  unfold bdim. rewrite !Nat.eqb_refl. unfold mk_tensor. f_equal. f_equal.
  apply tab_ext. intros j Hj.
  assert (E2 : forall g, nth (bidx n j) (tab n (fun j0 => Fin (g j0))) d0 = Fin (g j)).
  { intros g. unfold bidx. destruct (Nat.eqb_spec n 1).
    - subst n. assert (j = 0%nat) by lia. subst j. reflexivity.
    - now apply nth_tab. }
  rewrite !E2. now apply H.
Qed.

(** Views and products *)

Lemma t_unsqueeze_vecF n f :
  t_unsqueeze (vecF n f) = Ok (matF n 1 (fun i _ => f i)).
Proof. unfold t_unsqueeze, vecF, matF, rowsF. now rewrite map_tab. Qed.

Lemma t_transpose_matF r c g :
  t_transpose (matF r c g) = Ok (matF c r (fun i j => g j i)).
Proof.
  unfold t_transpose, matF. rewrite rowsF_length. f_equal. f_equal.
  unfold rowsF at 2. apply tab_ext. intros j Hj. apply tab_ext. intros i Hi.
  now apply ent_rowsF.
Qed.

Lemma t_matmul_matF r c c2 g1 g2 :
  t_matmul (matF r c g1) (matF c c2 g2) =
  Ok (matF r c2 (fun i j => Rsum c (fun l => g1 i l * g2 l j))).
Proof.
  unfold t_matmul, matF. rewrite !rowsF_length, Nat.eqb_refl. f_equal. f_equal.
  unfold rowsF at 3. apply tab_ext. intros i Hi. apply tab_ext. intros j Hj.
  rewrite <- nsum_tab_fin. f_equal. apply tab_ext. intros l Hl.
  now rewrite !ent_rowsF.
Qed.

Lemma t_matmul_matF_vecF r c g f :
  t_matmul (matF r c g) (vecF c f) =
  Ok (vecF r (fun i => Rsum c (fun l => g i l * f l))).
Proof.
  unfold t_matmul, matF, vecF. rewrite rowsF_length, tab_length, Nat.eqb_refl.
  f_equal. f_equal. apply tab_ext. intros i Hi.
  rewrite <- nsum_tab_fin. f_equal. apply tab_ext. intros l Hl.
  rewrite ent_rowsF by assumption. now rewrite nth_tab.
Qed.

Lemma t_eye_matF k :
  t_eye k = matF k k (fun i j => if (i =? j)%nat then 1 else 0).
Proof.
  unfold t_eye, matF, rowsF. f_equal. apply tab_ext. intros i _. apply tab_ext.
  intros j _. now destruct (i =? j)%nat.
Qed.

Lemma t_size_rows_matF r c g : t_size_rows (matF r c g) = Ok r.
Proof. unfold t_size_rows, matF. now rewrite rowsF_length. Qed.

(** ** The Cholesky factor and the triangular solves *)

Lemma Rsum_front k f : Rsum (S k) f = f 0%nat + Rsum k (fun i => f (S i)).
Proof.
  induction k as [|k IH]; simpl; [lra|].
  simpl in IH. rewrite IH. lra.
Qed.

Lemma tab_front (A : Type) k (f : nat -> A) :
  tab (S k) f = f 0%nat :: tab k (fun i => f (S i)).
Proof. unfold tab. simpl. f_equal. rewrite <- seq_shift. now rewrite map_map. Qed.

Lemma pd_diag_pos k G p : symmetric k G -> pd k G -> (p < k)%nat -> 0 < G p p.
Proof.
  intros HS HP Hp. rewrite <- (qform_delta k G HS p Hp). apply HP.
  exists p. split; [assumption|]. unfold delta. rewrite Nat.eqb_refl. lra.
Qed.

Lemma schur0_sym k G : symmetric (S k) G -> symmetric k (schur0 G).
Proof.
  intros H i j Hi Hj. unfold schur0. rewrite (H (S i) (S j)) by lia. lra.
Qed.

Lemma qform_xcons k G t x :
  symmetric (S k) G ->
  qform (S k) G (xcons t x) =
  t * t * G 0%nat 0%nat + 2 * t * Rsum k (fun a => x a * G (S a) 0%nat)
  + qform k (fun a b => G (S a) (S b)) x.
Proof.
  intros HS. unfold qform. rewrite Rsum_front. rewrite Rsum_front. cbn [xcons].
  rewrite (Rsum_ext k (fun i => Rsum (S k) (fun b => x i * G (S i) b * xcons t x b))
             (fun i => x i * G (S i) 0%nat * t
                       + Rsum k (fun b => x i * G (S i) (S b) * x b))).
  - rewrite Rsum_plus.
    rewrite (Rsum_ext k (fun i => t * G 0%nat (S i) * x i)
               (fun i => t * (x i * G (S i) 0%nat))).
    + rewrite Rsum_scal.
      rewrite (Rsum_ext k (fun i => x i * G (S i) 0%nat * t)
                 (fun i => t * (x i * G (S i) 0%nat))) by (intros; lra).
      rewrite Rsum_scal. lra.
    + intros i Hi. rewrite (HS 0%nat (S i)) by lia. lra.
  - intros i Hi. rewrite Rsum_front. reflexivity.
Qed.

Lemma qform_schur0 k G x :
  0 < G 0%nat 0%nat ->
  qform k (schur0 G) x =
  qform k (fun a b => G (S a) (S b)) x
  - Rsum k (fun a => x a * G (S a) 0%nat) * Rsum k (fun a => x a * G (S a) 0%nat)
    / G 0%nat 0%nat.
Proof.
  intros Hpos. set (c := Rsum k (fun a => x a * G (S a) 0%nat)).
  pose proof (sqrt_lt_R0 _ Hpos) as Hl.
  pose proof (sqrt_sqrt (G 0%nat 0%nat) ltac:(lra)) as Hll.
  unfold qform.
  rewrite (Rsum_ext k _ (fun a =>
     Rsum k (fun b => x a * G (S a) (S b) * x b)
     - (x a * G (S a) 0%nat) * (c / G 0%nat 0%nat))).
  - rewrite Rsum_minus, Rsum_scal_r. fold c. unfold Rdiv. lra.
  - intros a _.
    rewrite (Rsum_ext k _ (fun b =>
       x a * G (S a) (S b) * x b
       - (x a * G (S a) 0%nat / G 0%nat 0%nat) * (x b * G (S b) 0%nat))).
    + rewrite Rsum_minus, Rsum_scal. fold c. unfold Rdiv. lra.
    + intros b _. unfold schur0. rewrite <- Hll at 3. field. lra.
Qed.

Lemma schur0_pd k G : symmetric (S k) G -> pd (S k) G -> pd k (schur0 G).
Proof.
  intros HS HP x (a & Ha & Hx).
  pose proof (pd_diag_pos (S k) G 0%nat HS HP ltac:(lia)) as Hpos.
  set (c := Rsum k (fun a => x a * G (S a) 0%nat)).
  pose proof (HP (xcons (- c / G 0%nat 0%nat) x)) as H.
  rewrite qform_xcons in H by assumption. fold c in H.
  rewrite qform_schur0 by assumption. fold c.
  specialize (H ltac:(exists (S a); split; [lia|exact Hx])).
  replace (qform k (fun a b => G (S a) (S b)) x - c * c / G 0%nat 0%nat)
    with (- c / G 0%nat 0%nat * (- c / G 0%nat 0%nat) * G 0%nat 0%nat
          + 2 * (- c / G 0%nat 0%nat) * c
          + qform k (fun a b => G (S a) (S b)) x) by (field; lra).
  exact H.
Qed.

Lemma ngtb_fin_pos x : 0 < x -> ngtb (Fin x) (Fin 0) = true.
Proof. intros H. simpl. destruct (Rlt_dec 0 x); [reflexivity|contradiction]. Qed.

(** [chol] succeeds on a positive definite matrix. *)
Lemma chol_rowsF k : forall G,
  symmetric k G -> pd k G ->
  chol k (rowsF k k G) = Some (rowsF k k (chol_fun k G)).
Proof.
  induction k as [|k IH]; intros G HS HP; [reflexivity|].
  pose proof (pd_diag_pos (S k) G 0%nat HS HP ltac:(lia)) as Hpos.
  pose proof (sqrt_lt_R0 _ Hpos) as Hl.
  cbn [chol]. rewrite ent_rowsF by lia. rewrite ngtb_fin_pos by assumption.
  rewrite nsqrt_fin by lra.
  assert (EM : tab k (fun i => tab k (fun j =>
             nsub (ent (rowsF (S k) (S k) G) (S i) (S j))
               (nmul (ndiv (ent (rowsF (S k) (S k) G) (S i) 0) (Fin (sqrt (G 0%nat 0%nat))))
                     (ndiv (ent (rowsF (S k) (S k) G) (S j) 0) (Fin (sqrt (G 0%nat 0%nat)))))))
             = rowsF k k (schur0 G)).
  { unfold rowsF at 4. apply tab_ext. intros i Hi. apply tab_ext. intros j Hj.
    rewrite !ent_rowsF by lia. rewrite !ndiv_fin by lra. reflexivity. }
  rewrite EM. rewrite (IH (schur0 G) (schur0_sym k G HS) (schur0_pd k G HS HP)).
  f_equal. unfold rowsF at 2. apply tab_ext. intros i Hi. apply tab_ext. intros j Hj.
  destruct i as [|i], j as [|j]; cbn [chol_fun]; try reflexivity.
  - rewrite ent_rowsF by lia. now rewrite ndiv_fin by lra.
  - apply ent_rowsF; lia.
Qed.

Lemma rowsF_front k n X :
  rowsF (S k) n X =
  tab n (fun j => Fin (X 0%nat j)) :: rowsF k n (fun i j => X (S i) j).
Proof. unfold rowsF. now rewrite tab_front. Qed.

(** The two substitutions on the factor of a positive definite matrix. *)
Lemma potrs_rowsF k : forall n G B,
  symmetric k G -> pd k G ->
  bwd k n (rowsF k k (chol_fun k G)) (fwd k n (rowsF k k (chol_fun k G)) (rowsF k n B))
  = rowsF k n (potrs_fun k G B).
Proof.
  induction k as [|k IH]; intros n G B HS HP; [reflexivity|].
  pose proof (pd_diag_pos (S k) G 0%nat HS HP ltac:(lia)) as Hpos.
  pose proof (sqrt_lt_R0 _ Hpos) as Hl.
  set (L := rowsF (S k) (S k) (chol_fun (S k) G)).
  assert (EL : tab k (fun i => tab k (fun j => ent L (S i) (S j)))
               = rowsF k k (chol_fun k (schur0 G))).
  { unfold rowsF at 1. apply tab_ext. intros i Hi. apply tab_ext. intros j Hj.
    unfold L. rewrite ent_rowsF by lia. reflexivity. }
  assert (E00 : ent L 0 0 = Fin (sqrt (G 0%nat 0%nat))).
  { unfold L. rewrite ent_rowsF by lia. reflexivity. }
  assert (Ei0 : forall i, (i < k)%nat ->
            ent L (S i) 0 = Fin (G (S i) 0%nat / sqrt (G 0%nat 0%nat))).
  { intros i Hi. unfold L. rewrite ent_rowsF by lia. reflexivity. }
  cbn [fwd bwd tl]. rewrite EL, E00.
  set (y0 := tab n (fun j => ndiv (ent (rowsF (S k) n B) 0 j) (Fin (sqrt (G 0%nat 0%nat))))).
  assert (Ey : forall j, (j < n)%nat ->
            nth j y0 d0 = Fin (B 0%nat j / sqrt (G 0%nat 0%nat))).
  { intros j Hj. unfold y0. rewrite nth_tab by assumption.
    rewrite ent_rowsF by lia. now rewrite ndiv_fin by lra. }
  assert (EB : tab k (fun i => tab n (fun j =>
             nsub (ent (rowsF (S k) n B) (S i) j) (nmul (ent L (S i) 0) (nth j y0 d0))))
             = rowsF k n (fun a c => B (S a) c
                 - G (S a) 0%nat / sqrt (G 0%nat 0%nat) * (B 0%nat c / sqrt (G 0%nat 0%nat)))).
  { unfold rowsF at 2. apply tab_ext. intros i Hi. apply tab_ext. intros j Hj.
    rewrite ent_rowsF by lia. rewrite Ei0, Ey by assumption. reflexivity. }
  rewrite EB.
  rewrite (IH n (schur0 G) _ (schur0_sym k G HS) (schur0_pd k G HS HP)).
  rewrite (rowsF_front k n (potrs_fun (S k) G B)). f_equal.
  apply tab_ext. intros j Hj.
  change (ent (y0 :: _) 0 j) with (nth j y0 d0). rewrite Ey by assumption.
  rewrite (tab_ext _ k _ (fun i => Fin (G (S i) 0%nat / sqrt (G 0%nat 0%nat)
       * potrs_fun k (schur0 G)
           (fun a c => B (S a) c
              - G (S a) 0%nat / sqrt (G 0%nat 0%nat) * (B 0%nat c / sqrt (G 0%nat 0%nat)))
           i j))).
  - rewrite nsum_tab_fin. simpl nsub. rewrite ndiv_fin by lra. reflexivity.
  - intros i Hi. rewrite Ei0 by assumption. rewrite ent_rowsF by assumption. reflexivity.
Qed.

(** The solution solves the system. *)
Lemma potrs_fun_solves k : forall G B a j,
  symmetric k G -> pd k G -> (a < k)%nat ->
  Rsum k (fun c => G a c * potrs_fun k G B c j) = B a j.
Proof.
  induction k as [|k IH]; intros G B a j HS HP Ha; [lia|].
  pose proof (pd_diag_pos (S k) G 0%nat HS HP ltac:(lia)) as Hpos.
  pose proof (sqrt_lt_R0 _ Hpos) as Hl.
  pose proof (sqrt_sqrt (G 0%nat 0%nat) ltac:(lra)) as Hll.
  set (l := sqrt (G 0%nat 0%nat)) in *.
  set (B' := fun a c => B (S a) c - G (S a) 0%nat / l * (B 0%nat c / l)).
  set (X' := potrs_fun k (schur0 G) B').
  assert (HX : forall a', (a' < k)%nat ->
            Rsum k (fun c => schur0 G a' c * X' c j) = B' a' j).
  { intros a' Ha'. apply IH; auto using schur0_sym, schur0_pd. }
  set (s := Rsum k (fun i => G (S i) 0%nat / l * X' i j)).
  rewrite Rsum_front.
  assert (E0 : potrs_fun (S k) G B 0 j = (B 0%nat j / l - s) / l) by reflexivity.
  rewrite E0.
  rewrite (Rsum_ext k (fun i => G a (S i) * potrs_fun (S k) G B (S i) j)
             (fun i => G a (S i) * X' i j)) by reflexivity.
  destruct a as [|a].
  - rewrite (Rsum_ext k (fun i => G 0%nat (S i) * X' i j)
               (fun i => l * (G (S i) 0%nat / l * X' i j))).
    + rewrite Rsum_scal. fold s. rewrite <- Hll at 1. field. lra.
    + intros i Hi. rewrite (HS 0%nat (S i)) by lia. field. lra.
  - specialize (HX a ltac:(lia)).
    rewrite (Rsum_ext k (fun i => G (S a) (S i) * X' i j)
               (fun i => schur0 G a i * X' i j
                         + G (S a) 0%nat / l * (G (S i) 0%nat / l * X' i j))).
    + rewrite Rsum_plus, Rsum_scal, HX. fold s. unfold B'.
      replace (G (S a) 0%nat) with (G (S a) 0%nat / l * l) at 1 by (field; lra).
      field. lra.
    + intros i Hi. unfold schur0. fold l. lra.
Qed.

(** ** The Woodbury identity *)

Lemma Rsum_delta_l n p f :
  (p < n)%nat ->
  Rsum n (fun c => (if (p =? c)%nat then 1 else 0) * f c) = f p.
Proof.
  intros H.
  rewrite (Rsum_ext n _ (fun c => if (c =? p)%nat then f c else 0)).
  - now apply Rsum_delta.
  - intros c _. rewrite Nat.eqb_sym. destruct (c =? p)%nat; lra.
Qed.

Section Woodbury.

Variables (n k : nat).
Variables (v X : nat -> nat -> R) (sh b : nat -> R) (s : R).
Hypothesis Hs : 0 < s.
Hypothesis Hsh : forall i, (i < n)%nat -> sh i <> 0.

Let d (j : nat) : R := 1 / sh j / s.
Let Mm (a c : nat) : R :=
  Rsum n (fun j => v a j * (d j * v c j)) + (if (a =? c)%nat then 1 else 0) / s.

Hypothesis HX : forall a j, (a < k)%nat -> (j < n)%nat ->
  Rsum k (fun c => Mm a c * X c j) = v a j.

Let w (l : nat) : R := d l * b l.
Let y (a : nat) : R := Rsum n (fun l => X a l * w l).
Let x (i : nat) : R :=
  (w i - d i * Rsum n (fun l => Rsum k (fun a => v a i * X a l) * w l)) * s.

Lemma wb_x_alt i :
  x i = (w i - d i * Rsum k (fun a => v a i * y a)) * s.
Proof using.
  unfold x. f_equal. f_equal. f_equal. unfold y.
  rewrite (Rsum_ext n _ (fun l => Rsum k (fun a => v a i * X a l * w l))).
  - rewrite Rsum_swap. apply Rsum_ext. intros a _.
    rewrite <- Rsum_scal. apply Rsum_ext. intros l _. lra.
  - intros l _. rewrite <- Rsum_scal_r. reflexivity.
Qed.

Lemma wb_My a :
  (a < k)%nat -> Rsum k (fun c => Mm a c * y c) = Rsum n (fun l => v a l * w l).
Proof using HX.
  intros Ha. unfold y.
  rewrite (Rsum_ext k _ (fun c => Rsum n (fun l => Mm a c * X c l * w l))).
  - rewrite Rsum_swap. apply Rsum_ext. intros l Hl.
    rewrite <- (HX a l Ha Hl). rewrite <- Rsum_scal_r. reflexivity.
  - intros c _. rewrite <- Rsum_scal. apply Rsum_ext. intros l _. lra.
Qed.

Lemma wb_Vx a :
  (a < k)%nat -> Rsum n (fun j => v a j * x j) = y a.
Proof using Hs HX.
  intros Ha.
  rewrite (Rsum_ext n _ (fun j =>
     s * (v a j * w j) - s * Rsum k (fun c => v a j * (d j * v c j) * y c))).
  - rewrite Rsum_minus, !Rsum_scal. rewrite Rsum_swap.
    rewrite (Rsum_ext k _ (fun c => Mm a c * y c
                                    - (if (a =? c)%nat then 1 else 0) * (y c / s))).
    + rewrite Rsum_minus, (wb_My a Ha), (Rsum_delta_l k a (fun c => y c / s) Ha).
      field. lra.
    + intros c _. rewrite Rsum_scal_r. unfold Mm. lra.
  - intros j _. rewrite wb_x_alt.
    rewrite (Rsum_ext k (fun c => v a j * (d j * v c j) * y c)
               (fun c => (v a j * d j) * (v c j * y c))) by (intros; lra).
    rewrite Rsum_scal. lra.
Qed.

(** [(diag(sh) + v' v) x = b] *)
Lemma woodbury_identity i :
  (i < n)%nat ->
  sh i * x i + Rsum k (fun a => v a i * Rsum n (fun j => v a j * x j)) = b i.
Proof using Hs Hsh HX.
  intros Hi.
  rewrite (Rsum_ext k _ (fun a => v a i * y a))
    by (intros a Ha; now rewrite (wb_Vx a Ha)).
  rewrite wb_x_alt. unfold w, d. specialize (Hsh i Hi). field. lra.
Qed.

End Woodbury.

(** ** Running the two functions *)

Lemma nth_error_snoc_new (h : heap) v : nth_error (h ++ [v]) (length h) = Some v.
Proof. rewrite nth_error_app2 by lia. now rewrite Nat.sub_diag. Qed.

Lemma nth_error_snoc_old (h : heap) v r t :
  nth_error h r = Some t -> nth_error (h ++ [v]) r = Some t.
Proof.
  intros H. rewrite nth_error_app1; [assumption|].
  apply nth_error_Some. congruence.
Qed.

Lemma op1_run f r t v (h : heap) :
  nth_error h r = Some t -> f t = Ok v ->
  op1 f r h = Ok (length h, h ++ [v]).
Proof. intros H1 H2. unfold op1, bind, load, lift, alloc. now rewrite H1, H2. Qed.

Lemma op2_run f r1 r2 t1 t2 v (h : heap) :
  nth_error h r1 = Some t1 -> nth_error h r2 = Some t2 -> f t1 t2 = Ok v ->
  op2 f r1 r2 h = Ok (length h, h ++ [v]).
Proof.
  intros H1 H2 H3. unfold op2, bind, load, lift, alloc. now rewrite H1, H2, H3.
Qed.

Lemma bind_run (A B : Type) (c : M A) (K : A -> M B) h a h' :
  c h = Ok (a, h') -> bind c K h = K a h'.
Proof. intros H. unfold bind. now rewrite H. Qed.

Lemma size_rows_run r t k (h : heap) :
  nth_error h r = Some t -> t_size_rows t = Ok k -> size_rows r h = Ok (k, h).
Proof. intros H1 H2. unfold size_rows, bind, load, lift. now rewrite H1, H2. Qed.

Lemma ndimension_run r t (h : heap) :
  nth_error h r = Some t -> ndimension r h = Ok (rank t, h).
Proof. intros H1. unfold ndimension, bind, load, ret. now rewrite H1. Qed.

Ltac lookup :=
  repeat first [ apply nth_error_snoc_new
               | eassumption
               | apply nth_error_snoc_old ].

Lemma vecF_ext n f g :
  (forall j, (j < n)%nat -> f j = g j) -> vecF n f = vecF n g.
Proof. intros H. unfold vecF. f_equal. apply tab_ext. intros j Hj. now rewrite H. Qed.

Lemma t_cholesky_matF k G :
  symmetric k G -> pd k G ->
  t_cholesky (matF k k G) = Ok (matF k k (chol_fun k G)).
Proof.
  intros HS HP. unfold t_cholesky, matF. rewrite rowsF_length, Nat.eqb_refl.
  now rewrite chol_rowsF.
Qed.

Lemma t_potrs_matF k n G B :
  symmetric k G -> pd k G ->
  t_potrs (matF k n B) (matF k k (chol_fun k G)) = Ok (matF k n (potrs_fun k G B)).
Proof.
  intros HS HP. unfold t_potrs, matF. rewrite !rowsF_length, Nat.eqb_refl. simpl.
  now rewrite potrs_rowsF.
Qed.

Lemma wb_scale_pos shift :
  shift <> [] -> Forall (fun s => s <> 0) shift -> 0 < wb_scale shift.
Proof.
  intros Hne Hnz. unfold wb_scale. apply Rlmax_pos.
  - destruct shift; [congruence|discriminate].
  - apply Forall_forall. intros x Hx. apply in_map_iff in Hx.
    destruct Hx as (s & <- & Hs). rewrite Forall_forall in Hnz.
    apply Rabs_pos_lt. specialize (Hnz s Hs).
    unfold Rdiv. rewrite Rmult_1_l. now apply Rinv_neq_0_compat.
Qed.

Lemma wb_M_sym V shift k : symmetric k (wb_M V shift).
Proof.
  intros a c _ _. unfold wb_M. rewrite (Nat.eqb_sym a c). f_equal.
  apply Rsum_ext. intros j _. lra.
Qed.

(** The first four lines of both functions: [inv_shift] and [scale]. *)
Lemma scale_run shift (h : heap) rs (B : Type) (K : ref -> ref -> M B) :
  shift <> [] -> Forall (fun s => s <> 0) shift ->
  nth_error h rs = Some (T1 (map Fin shift)) ->
  exists h1 ri rc,
    (forall p t, nth_error h p = Some t -> nth_error h1 p = Some t) /\
    nth_error h1 ri = Some (vecF (length shift) (wb_inv shift)) /\
    nth_error h1 rc = Some (T0 (Fin (wb_scale shift))) /\
    (inv_shift <- reciprocal rs ;;
     a <- tabs inv_shift ;;
     scale <- tmaxall a ;;
     inv_shift <- tdiv inv_shift scale ;;
     K inv_shift scale) h
    = K ri rc h1.
Proof.
  intros Hne Hnz Hs.
  pose proof (wb_scale_pos shift Hne Hnz) as Hpos.
  set (v1 := T1 (map Fin (map (fun s => 1 / s) shift))).
  set (v2 := T1 (map Fin (map (fun s => Rabs (1 / s)) shift))).
  set (v3 := T0 (Fin (wb_scale shift))).
  set (v4 := vecF (length shift) (wb_inv shift)).
  exists ((((h ++ [v1]) ++ [v2]) ++ [v3]) ++ [v4]).
  exists (length (((h ++ [v1]) ++ [v2]) ++ [v3])), (length ((h ++ [v1]) ++ [v2])).
  split; [intros p t Hp; lookup|].
  split; [lookup|]. split; [lookup|].
  unfold reciprocal, tabs, tmaxall, tdiv.
  erewrite bind_run; cycle 1.
  { eapply op1_run with (v := v1); [lookup|].
    unfold v1. simpl. f_equal. f_equal. rewrite ?map_map. apply map_ext_in.
    intros s Hs'. rewrite Forall_forall in Hnz. apply nrecip_fin; auto. }
  erewrite bind_run; cycle 1.
  { eapply op1_run with (v := v2); [lookup|].
    unfold v1, v2. simpl. now rewrite !map_map. }
  erewrite bind_run; cycle 1.
  { eapply op1_run with (v := v3); [lookup|].
    unfold v2, v3, t_max.
    destruct (tmax_fin (map (fun s => Rabs (1 / s)) shift)) as [i ->];
      [destruct shift; [congruence|discriminate]|reflexivity]. }
  erewrite bind_run; cycle 1.
  { eapply op2_run with (v := v4); [lookup|lookup|].
    unfold v1, v3, v4.
    rewrite (vec_tab (length shift) (map (fun s => 1 / s) shift)) by apply length_map.
    change (T1 (tab (length shift) (fun j => Fin (nth j (map (fun s => 1 / s) shift) 0))))
      with (vecF (length shift) (fun j => nth j (map (fun s => 1 / s) shift) 0)).
    rewrite (t_bop_vec_scalar ndiv Rdiv) by (intros; apply ndiv_fin; lra).
    f_equal. apply vecF_ext. intros j Hj. unfold wb_inv.
    now rewrite (nth_map_in _ _ (fun s => 1 / s) shift j 0 0 Hj). }
  reflexivity.
Qed.

Lemma emb_matF k n V :
  length V = k -> Forall (fun r => length r = n) V ->
  T2 n (emb V) = matF k n (entR V).
Proof. intros. unfold matF. f_equal. now apply emb_rowsF. Qed.

(** The lines of [woodbury_factor] up to [shifted_mat]. *)
Ltac factor_prefix :=
  erewrite bind_run;
    [|eapply op1_run; [lookup|apply t_unsqueeze_vecF]];
  erewrite bind_run;
    [|eapply op1_run; [lookup|apply t_transpose_matF]];
  erewrite bind_run;
    [|eapply op2_run; [lookup|lookup|apply (t_bop_col_mat nmul Rmult); reflexivity]];
  erewrite bind_run;
    [|eapply op2_run; [lookup|lookup|apply t_matmul_matF]];
  erewrite bind_run;
    [|unfold alloc; rewrite t_eye_matF; reflexivity];
  erewrite bind_run;
    [|eapply op2_run; [lookup|lookup|
        apply (t_bop_mat_scalar ndiv Rdiv); intros; apply ndiv_fin; lra]];
  erewrite bind_run;
    [|eapply op2_run; [lookup|lookup|
        rewrite (t_bop_mat_mat nadd Rplus) by reflexivity; reflexivity]].

(** [woodbury_factor] on a positive definite [M]. *)
Lemma woodbury_factor_run (h : heap) rV rs half k V shift :
  length V = k -> Forall (fun r => length r = length shift) V ->
  shift <> [] -> Forall (fun s => s <> 0) shift ->
  nth_error h rV = Some (T2 (length shift) (emb V)) ->
  nth_error h rs = Some (T1 (map Fin shift)) ->
  pd k (wb_M V shift) ->
  exists r h',
    woodbury_factor rV rs half h = Ok (r, h') /\
    nth_error h' r =
      Some (matF k (length shift) (potrs_fun k (wb_M V shift) (entR V))).
Proof.
  intros HL HR Hne Hnz HV Hs HP.
  pose proof (wb_scale_pos shift Hne Hnz) as Hpos.
  pose proof (wb_M_sym V shift k) as HS.
  set (n := length shift) in *.
  rewrite (emb_matF k n V HL HR) in HV.
  unfold woodbury_factor.
  erewrite bind_run; cycle 1.
  { eapply size_rows_run; [eassumption|apply t_size_rows_matF]. }
  match goal with
  | |- exists r h', bind (reciprocal _) (fun i => bind (tabs i) (fun a =>
         bind (tmaxall a) (fun s => bind (tdiv i s) (fun i' => @?K i' s)))) _ = _ /\ _ =>
      destruct (scale_run shift h rs _ K Hne Hnz Hs) as (h1 & ri & rc & Hfr & Hi & Hc & ->)
  end.
  fold n in Hi. apply Hfr in HV. clear Hfr Hs h.
  unfold unsqueeze, transpose, tmul, matmul, eye, tdiv, tadd, tcopy, cholesky,
    potrs, tsub, tnorm.
  set (v5 := matF n 1 (fun i _ => wb_inv shift i)).
  set (v6 := matF n k (fun i j => entR V j i)).
  set (v7 := matF n k (fun i j => wb_inv shift i * entR V j i)).
  set (v8 := matF k k (fun a c =>
               Rsum n (fun l => entR V a l * (wb_inv shift l * entR V c l)))).
  set (v9 := matF k k (fun i j => if (i =? j)%nat then 1 else 0)).
  set (v10 := matF k k (fun i j => (if (i =? j)%nat then 1 else 0) / wb_scale shift)).
  set (v11 := matF k k (wb_M V shift)).
  set (v12 := matF k k (chol_fun k (wb_M V shift))).
  set (v13 := matF k n (potrs_fun k (wb_M V shift) (entR V))).
  destruct half; do 2 eexists.
  - factor_prefix.
    erewrite bind_run; cycle 1.
    { eapply op1_run with (v := v11); [lookup|reflexivity]. }
    erewrite bind_run; cycle 1.
    { eapply op1_run with (v := v12); [lookup|]. now apply t_cholesky_matF. }
    erewrite bind_run; cycle 1.
    { eapply op1_run with (v := matF k n (entR V)); [lookup|reflexivity]. }
    erewrite bind_run; cycle 1.
    { eapply op2_run with (v := v13); [lookup|lookup|]. now apply t_potrs_matF. }
    split.
    + eapply op1_run with (v := v13); [lookup|reflexivity].
    + lookup.
  - factor_prefix.
    erewrite bind_run; cycle 1.
    { eapply op1_run with (v := v12); [lookup|]. now apply t_cholesky_matF. }
    erewrite bind_run; cycle 1.
    { eapply op2_run with (v := v13); [lookup|lookup|]. now apply t_potrs_matF. }
    erewrite bind_run; cycle 1.
    { eapply op2_run; [lookup|lookup|]. apply t_matmul_matF. }
    erewrite bind_run; cycle 1.
    { eapply op2_run; [lookup|lookup|].
      apply (t_bop_mat_mat nsub Rminus). reflexivity. }
    erewrite bind_run; cycle 1.
    { eapply op1_run; [lookup|reflexivity]. }
    split; [reflexivity|]. lookup.
Qed.

(** [woodbury_solve] on a vector and a real factor. *)
Lemma woodbury_solve_run (h : heap) rb rV rR rs V shift b X :
  Forall (fun r => length r = length shift) V ->
  shift <> [] -> Forall (fun s => s <> 0) shift ->
  length b = length shift ->
  nth_error h rb = Some (T1 (map Fin b)) ->
  nth_error h rV = Some (T2 (length shift) (emb V)) ->
  nth_error h rR = Some (matF (length V) (length shift) X) ->
  nth_error h rs = Some (T1 (map Fin shift)) ->
  exists r h',
    woodbury_solve rb rV rR rs h = Ok (r, h') /\
    nth_error h' r = Some (vecF (length shift) (wb_x V shift b X)).
Proof.
  intros HR Hne Hnz Hb Hrb HV HX Hs.
  pose proof (wb_scale_pos shift Hne Hnz) as Hpos.
  set (n := length shift) in *. set (k := length V) in *.
  rewrite (emb_matF k n V eq_refl HR) in HV.
  rewrite (vec_tab n b Hb) in Hrb.
  change (T1 (tab n (fun j => Fin (nth j b 0)))) with (vecF n (fun j => nth j b 0)) in Hrb.
  unfold woodbury_solve.
  match goal with
  | |- exists r h', bind (reciprocal _) (fun i => bind (tabs i) (fun a =>
         bind (tmaxall a) (fun s => bind (tdiv i s) (fun i' => @?K i' s)))) _ = _ /\ _ =>
      destruct (scale_run shift h rs _ K Hne Hnz Hs) as (h1 & ri & rc & Hfr & Hi & Hc & ->)
  end.
  fold n in Hi. apply Hfr in HV, HX, Hrb. clear Hfr Hs h.
  unfold unsqueeze, transpose, tmul, matmul, tsub.
  do 2 eexists.
  erewrite bind_run; cycle 1.
  { eapply ndimension_run. eassumption. }
  cbn [rank vecF Nat.ltb Nat.leb].
  erewrite bind_run; cycle 1.
  { reflexivity. }
  erewrite bind_run; cycle 1.
  { eapply op2_run; [lookup|lookup|].
    apply (t_bop_vec_vec nmul Rmult). reflexivity. }
  erewrite bind_run; cycle 1.
  { eapply op1_run; [lookup|apply t_transpose_matF]. }
  erewrite bind_run; cycle 1.
  { eapply op2_run; [lookup|lookup|apply t_matmul_matF]. }
  erewrite bind_run; cycle 1.
  { eapply op2_run; [lookup|lookup|apply t_matmul_matF_vecF]. }
  erewrite bind_run; cycle 1.
  { eapply op2_run; [lookup|lookup|].
    apply (t_bop_vec_vec nmul Rmult). reflexivity. }
  erewrite bind_run; cycle 1.
  { eapply op2_run; [lookup|lookup|].
    apply (t_bop_vec_vec nsub Rminus). reflexivity. }
  split.
  - eapply op2_run; [lookup|lookup|].
    apply (t_bop_vec_scalar nmul Rmult). reflexivity.
  - lookup.
Qed.

Lemma emb_tab k n X :
  emb (tab k (fun i => tab n (fun j => X i j))) = rowsF k n X.
Proof.
  unfold emb, rowsF. rewrite map_tab. apply tab_ext. intros i _. now rewrite map_tab.
Qed.

Lemma entR_tab k n X a j :
  (a < k)%nat -> (j < n)%nat ->
  entR (tab k (fun i => tab n (fun j => X i j))) a j = X a j.
Proof.
  intros Ha Hj. unfold entR. rewrite (nth_tab _ k _ a []) by assumption.
  now rewrite nth_tab.
Qed.

(** The two functions, one after the other. *)
Lemma woodbury_compose_run (h : heap) rb rV rs half V shift b :
  Forall (fun r => length r = length shift) V ->
  shift <> [] -> Forall (fun s => s <> 0) shift ->
  length b = length shift ->
  nth_error h rb = Some (T1 (map Fin b)) ->
  nth_error h rV = Some (T2 (length shift) (emb V)) ->
  nth_error h rs = Some (T1 (map Fin shift)) ->
  pd (length V) (wb_M V shift) ->
  exists rR h1 rx h2,
    woodbury_factor rV rs half h = Ok (rR, h1) /\
    woodbury_solve rb rV rR rs h1 = Ok (rx, h2) /\
    nth_error h2 rx =
      Some (vecF (length shift)
              (wb_x V shift b (potrs_fun (length V) (wb_M V shift) (entR V)))).
Proof.
  intros HR Hne Hnz Hb Hrb HV Hs HP.
  destruct (woodbury_factor_run h rV rs half (length V) V shift eq_refl HR Hne Hnz HV Hs HP)
    as (rR & h1 & E1 & HX).
  pose proof (extends_woodbury_factor rV rs half) as Hext.
  destruct (woodbury_solve_run h1 rb rV rR rs V shift b _ HR Hne Hnz Hb
              (extends_frame _ _ _ _ _ _ _ Hext E1 Hrb)
              (extends_frame _ _ _ _ _ _ _ Hext E1 HV) HX
              (extends_frame _ _ _ _ _ _ _ Hext E1 Hs))
    as (rx & h2 & E2 & Hx).
  exists rR, h1, rx, h2. auto.
Qed.

(** What [woodbury_solve] returns from the factor of a positive definite
    [M] solves the system. *)
Lemma wb_x_solves V shift b i :
  shift <> [] -> Forall (fun s => s <> 0) shift ->
  pd (length V) (wb_M V shift) ->
  (i < length shift)%nat ->
  wb_apply V shift
    (tab (length shift)
       (wb_x V shift b (potrs_fun (length V) (wb_M V shift) (entR V)))) i
  = nth i b 0.
Proof.
  intros Hne Hnz HP Hi.
  set (X := potrs_fun (length V) (wb_M V shift) (entR V)).
  unfold wb_apply. rewrite (nth_tab _ _ _ i 0 Hi).
  rewrite (Rsum_ext (length V) _ (fun a => entR V a i *
             Rsum (length shift) (fun j => entR V a j * wb_x V shift b X j))).
  - apply (woodbury_identity (length shift) (length V) (entR V) X
             (fun j => nth j shift 0) (fun j => nth j b 0) (wb_scale shift)).
    + now apply wb_scale_pos.
    + intros j Hj. rewrite Forall_forall in Hnz. apply Hnz, nth_In, Hj.
    + intros a j Ha Hj.
      apply (potrs_fun_solves (length V) (wb_M V shift) (entR V) a j);
        auto using wb_M_sym.
    + exact Hi.
  - intros a Ha. f_equal. apply Rsum_ext. intros j Hj.
    now rewrite (nth_tab _ _ _ j 0 Hj).
Qed.

(** C2.  For every [k x n] matrix [V] and every shift vector with [n >= 1]
    entries, all nonzero, such that [M = V diag(inv_shift) V' + I / scale]
    is positive definite, [woodbury_factor(V, shift)] returns a [k x n]
    matrix [R] with real entries such that [M R = V]. *)
Theorem woodbury_factor_correct (h : heap) rV rs half V shift :
  Forall (fun r => length r = length shift) V ->
  shift <> [] -> Forall (fun s => s <> 0) shift ->
  nth_error h rV = Some (T2 (length shift) (emb V)) ->
  nth_error h rs = Some (T1 (map Fin shift)) ->
  pd (length V) (wb_M V shift) ->
  exists r h' Rm,
    woodbury_factor rV rs half h = Ok (r, h') /\
    nth_error h' r = Some (T2 (length shift) (emb Rm)) /\
    length Rm = length V /\
    Forall (fun row => length row = length shift) Rm /\
    forall a j, (a < length V)%nat -> (j < length shift)%nat ->
      Rsum (length V) (fun c => wb_M V shift a c * entR Rm c j) = entR V a j.
Proof.
  intros HR Hne Hnz HV Hs HP.
  set (X := potrs_fun (length V) (wb_M V shift) (entR V)).
  destruct (woodbury_factor_run h rV rs half (length V) V shift eq_refl HR Hne Hnz HV Hs HP)
    as (r & h' & E1 & HX).
  exists r, h', (tab (length V) (fun i => tab (length shift) (fun j => X i j))).
  split; [exact E1|]. split; [|split; [|split]].
  - rewrite HX. unfold matF. now rewrite emb_tab.
  - apply tab_length.
  - apply Forall_forall. intros row Hrow. unfold tab in Hrow.
    apply in_map_iff in Hrow. destruct Hrow as (i & <- & _). apply tab_length.
  - intros a j Ha Hj.
    rewrite (Rsum_ext (length V) _ (fun c => wb_M V shift a c * X c j)).
    + apply (potrs_fun_solves (length V) (wb_M V shift) (entR V) a j);
        auto using wb_M_sym.
    + intros c Hc. now rewrite entR_tab.
Qed.

(** C1.  For every [k x n] matrix [V], every shift vector with [n >= 1]
    entries, all nonzero, and every right-hand side [b] of length [n]: if
    [M = V diag(inv_shift) V' + I / scale] is positive definite, then
    [woodbury_solve(b, V, woodbury_factor(V, shift), shift)] returns a
    vector [x] of [n] real entries such that
    [(diag(shift) + V' V) x = b]. *)
Theorem woodbury_solve_correct (h : heap) rb rV rs half V shift b :
  Forall (fun r => length r = length shift) V ->
  shift <> [] -> Forall (fun s => s <> 0) shift ->
  length b = length shift ->
  nth_error h rb = Some (T1 (map Fin b)) ->
  nth_error h rV = Some (T2 (length shift) (emb V)) ->
  nth_error h rs = Some (T1 (map Fin shift)) ->
  pd (length V) (wb_M V shift) ->
  exists rR h1 rx h2 x,
    woodbury_factor rV rs half h = Ok (rR, h1) /\
    woodbury_solve rb rV rR rs h1 = Ok (rx, h2) /\
    nth_error h2 rx = Some (T1 (map Fin x)) /\
    length x = length shift /\
    forall i, (i < length shift)%nat -> wb_apply V shift x i = nth i b 0.
Proof.
  intros HR Hne Hnz Hb Hrb HV Hs HP.
  destruct (woodbury_compose_run h rb rV rs half V shift b HR Hne Hnz Hb Hrb HV Hs HP)
    as (rR & h1 & rx & h2 & E1 & E2 & Hx).
  exists rR, h1, rx, h2.
  exists (tab (length shift)
            (wb_x V shift b (potrs_fun (length V) (wb_M V shift) (entR V)))).
  split; [exact E1|]. split; [exact E2|]. split; [|split].
  - rewrite Hx. unfold vecF. now rewrite map_tab.
  - apply tab_length.
  - intros i Hi. now apply wb_x_solves.
Qed.

(** ** The worked example *)

Lemma wb_scale_ex : wb_scale shift_ex = 1.
Proof.
  unfold wb_scale, shift_ex, Rlmax. simpl.
  replace (1 / 1) with 1 by lra. rewrite Rabs_R1.
  rewrite (Rmax_left 1 1) by lra. apply Rmax_left. lra.
Qed.

Lemma V_ex_shape : Forall (fun r => length r = length shift_ex) V_ex.
Proof. repeat constructor. Qed.

Lemma shift_ex_nonzero : Forall (fun s => s <> 0) shift_ex.
Proof. repeat constructor; lra. Qed.

Lemma shift_ex_nonempty : shift_ex <> [].
Proof. discriminate. Qed.

Lemma wb_M_ex_pd : pd (length V_ex) (wb_M V_ex shift_ex).
Proof.
  intros x (a & Ha & Hx). unfold qform, wb_M, wb_inv. rewrite wb_scale_ex.
  simpl. unfold entR. simpl.
  assert (H : 0 < x 0%nat * x 0%nat + x 1%nat * x 1%nat).
  { destruct a as [|[|a]]; [| |simpl in Ha; lia].
    - pose proof (Rsqr_pos_lt _ Hx) as H1. pose proof (Rle_0_sqr (x 1%nat)) as H2.
      unfold Rsqr in *. lra.
    - pose proof (Rsqr_pos_lt _ Hx) as H1. pose proof (Rle_0_sqr (x 0%nat)) as H2.
      unfold Rsqr in *. lra. }
  lra.
Qed.

(** C3.  For [V = [[1,0,0],[0,1,0]]], [shift = [1,1,1]] and
    [b = [2,2,1]], [woodbury_solve(b, V, woodbury_factor(V, shift), shift)]
    returns exactly [[1,1,1]], whichever branch of the dtype test
    [woodbury_factor] takes. *)
Theorem woodbury_example half :
  exists rR h1 rx h2,
    woodbury_factor 1%nat 2%nat half h_ex = Ok (rR, h1) /\
    woodbury_solve 0%nat 1%nat rR 2%nat h1 = Ok (rx, h2) /\
    nth_error h2 rx = Some (T1 [Fin 1; Fin 1; Fin 1]).
Proof.
  destruct (woodbury_compose_run h_ex 0%nat 1%nat 2%nat half V_ex shift_ex b_ex
              V_ex_shape shift_ex_nonempty shift_ex_nonzero eq_refl
              eq_refl eq_refl eq_refl wb_M_ex_pd)
    as (rR & h1 & rx & h2 & E1 & E2 & Hx).
  exists rR, h1, rx, h2. split; [exact E1|]. split; [exact E2|].
  rewrite Hx. unfold vecF. f_equal. f_equal.
  set (x := wb_x V_ex shift_ex b_ex
              (potrs_fun (length V_ex) (wb_M V_ex shift_ex) (entR V_ex))).
  pose proof (wb_x_solves V_ex shift_ex b_ex 0%nat shift_ex_nonempty
                shift_ex_nonzero wb_M_ex_pd ltac:(simpl; lia)) as H0.
  pose proof (wb_x_solves V_ex shift_ex b_ex 1%nat shift_ex_nonempty
                shift_ex_nonzero wb_M_ex_pd ltac:(simpl; lia)) as H1.
  pose proof (wb_x_solves V_ex shift_ex b_ex 2%nat shift_ex_nonempty
                shift_ex_nonzero wb_M_ex_pd ltac:(simpl; lia)) as H2.
  fold x in H0, H1, H2.
  unfold wb_apply, entR in H0, H1, H2. simpl in H0, H1, H2.
  unfold tab. simpl.
  assert (x 0%nat = 1) by lra. assert (x 1%nat = 1) by lra.
  assert (x 2%nat = 1) by lra.
  congruence.
Qed.

(** ** The theorems at the worked example *)

Lemma woodbury_solve_correct_witness :
  pd (length V_ex) (wb_M V_ex shift_ex) /\
  exists rR h1 rx h2 x,
    woodbury_factor 1%nat 2%nat false h_ex = Ok (rR, h1) /\
    woodbury_solve 0%nat 1%nat rR 2%nat h1 = Ok (rx, h2) /\
    nth_error h2 rx = Some (T1 (map Fin x)) /\
    length x = length shift_ex /\
    forall i, (i < length shift_ex)%nat ->
      wb_apply V_ex shift_ex x i = nth i b_ex 0.
Proof.
  split; [apply wb_M_ex_pd|].
  apply (woodbury_solve_correct h_ex 0%nat 1%nat 2%nat false V_ex shift_ex b_ex).
  - apply V_ex_shape.
  - apply shift_ex_nonempty.
  - apply shift_ex_nonzero.
  - reflexivity.
  - reflexivity.
  - reflexivity.
  - reflexivity.
  - apply wb_M_ex_pd.
Defined.

Lemma woodbury_factor_correct_witness :
  pd (length V_ex) (wb_M V_ex shift_ex) /\
  exists r h' Rm,
    woodbury_factor 1%nat 2%nat false h_ex = Ok (r, h') /\
    nth_error h' r = Some (T2 (length shift_ex) (emb Rm)) /\
    length Rm = length V_ex /\
    Forall (fun row => length row = length shift_ex) Rm /\
    forall a j, (a < length V_ex)%nat -> (j < length shift_ex)%nat ->
      Rsum (length V_ex) (fun c => wb_M V_ex shift_ex a c * entR Rm c j)
      = entR V_ex a j.
Proof.
  split; [apply wb_M_ex_pd|].
  apply (woodbury_factor_correct h_ex 1%nat 2%nat false V_ex shift_ex).
  - apply V_ex_shape.
  - apply shift_ex_nonempty.
  - apply shift_ex_nonzero.
  - reflexivity.
  - reflexivity.
  - apply wb_M_ex_pd.
Defined.

Lemma woodbury_inputs_unchanged_witness :
  exists rR h1 rx h2,
    woodbury_factor 1%nat 2%nat false h_ex = Ok (rR, h1) /\
    woodbury_solve 0%nat 1%nat rR 2%nat h1 = Ok (rx, h2) /\
    nth_error h1 1%nat = Some (T2 3%nat (emb V_ex)) /\
    nth_error h1 2%nat = Some (T1 (map Fin shift_ex)) /\
    nth_error h2 0%nat = Some (T1 (map Fin b_ex)) /\
    nth_error h2 1%nat = Some (T2 3%nat (emb V_ex)) /\
    nth_error h2 2%nat = Some (T1 (map Fin shift_ex)) /\
    nth_error h2 rR = nth_error h1 rR.
Proof.
  destruct (woodbury_compose_run h_ex 0%nat 1%nat 2%nat false V_ex shift_ex b_ex
              V_ex_shape shift_ex_nonempty shift_ex_nonzero eq_refl
              eq_refl eq_refl eq_refl wb_M_ex_pd)
    as (rR & h1 & rx & h2 & E1 & E2 & _).
  exists rR, h1, rx, h2.
  pose proof (proj1 (woodbury_inputs_unchanged h_ex 0%nat 1%nat rR 2%nat false) rR h1 E1) as F1.
  pose proof (proj2 (woodbury_inputs_unchanged h1 0%nat 1%nat rR 2%nat false) rx h2 E2) as F2.
  split; [exact E1|]. split; [exact E2|].
  split; [apply F1; reflexivity|]. split; [apply F1; reflexivity|].
  split; [apply F2, F1; reflexivity|]. split; [apply F2, F1; reflexivity|].
  split; [apply F2, F1; reflexivity|].
  destruct (nth_error h1 rR) as [t|] eqn:ER.
  - now apply F2.
  - exfalso.
    destruct (woodbury_factor_run h_ex 1%nat 2%nat false (length V_ex) V_ex shift_ex eq_refl
                V_ex_shape shift_ex_nonempty shift_ex_nonzero eq_refl eq_refl wb_M_ex_pd)
      as (r' & h' & E' & HX).
    rewrite E1 in E'. injection E' as <- <-. congruence.
Defined.

Local Close Scope R_scope.

(* ================================================================= *)
(** * Part III: further properties of the three functions *)
(* ================================================================= *)

(** ** What [pivoted_cholesky] returns: shape and zero pattern *)

Lemma pc_loop_reach n mats max_iter tol fuel : forall st st',
  pc_reach n mats max_iter tol st ->
  pc_loop fuel n mats max_iter tol st = Ok st' ->
  pc_reach n mats max_iter tol st'.
Proof.
  induction fuel as [|f IH]; intros st st' HR H; simpl in H.
  - injection H as <-. exact HR.
  - destruct (pc_cond max_iter tol st) as [[|]|] eqn:EC; simpl in H; try discriminate.
    + destruct (pc_body n mats st) as [st1|] eqn:EB; simpl in H; [|discriminate].
      eapply IH; [|exact H]. eapply reach_pass; eauto.
    + injection H as <-. exact HR.
Qed.

Lemma pc_run_ok_nonempty matrix max_iter tol st :
  pc_run matrix max_iter tol = Ok st -> bt_mats matrix <> [].
Proof.
  intros E H0. unfold pc_run in E. rewrite H0 in E. discriminate.
Qed.

Lemma pc_run_inv matrix max_iter tol st :
  pc_run matrix max_iter tol = Ok st ->
  (0 <= max_iter)%Z /\
  pc_reach (bt_n matrix) (bt_mats matrix)
    (Z.to_nat (Z.min max_iter (Z.of_nat (bt_n matrix)))) tol st.
Proof.
  intros E0. pose proof (pc_run_ok_nonempty _ _ _ _ E0) as Hne.
  rewrite pc_run_nonempty in E0 by exact Hne. revert E0.
  destruct (Z.ltb_spec (Z.min max_iter (Z.of_nat (bt_n matrix))) 0) as [H|H];
    [discriminate|].
  intros E. split; [lia|].
  eapply pc_loop_reach; [apply reach_start|exact E].
Qed.

Lemma pivoted_cholesky_inv matrix max_iter tol Ls :
  pivoted_cholesky matrix max_iter tol = Ok Ls ->
  exists st, pc_run matrix max_iter tol = Ok st /\
             Ls = map (fun e => firstn (pc_m st) (pc_L e)) (pc_elems st).
Proof.
  unfold pivoted_cholesky. destruct (pc_run matrix max_iter tol) as [st|]; simpl;
    [|discriminate].
  intros H; injection H as <-. eauto.
Qed.

Lemma In_firstn (A : Type) (x : A) m l : In x (firstn m l) -> In x l.
Proof.
  intros H. rewrite <- (firstn_skipn m l). apply in_or_app. now left.
Qed.

(** X1.  The factors that a call returns have one shape: as many rows as the
    loop made passes, at most [max_iter] and at most [n], and [n] columns. *)
Theorem factor_shape matrix max_iter tol Ls :
  pivoted_cholesky matrix max_iter tol = Ok Ls ->
  length Ls = length (bt_mats matrix) /\
  exists m, (Z.of_nat m <= max_iter)%Z /\ m <= bt_n matrix /\
    Forall (fun L => length L = m /\
                     Forall (fun row => length row = bt_n matrix) L) Ls.
Proof.
  intros H. apply pivoted_cholesky_inv in H. destruct H as (st & HR & ->).
  apply pc_run_inv in HR. destruct HR as [Hmi HR].
  apply pc_reach_wf in HR. destruct HR as (Hm & HW & HL).
  split; [now rewrite length_map|].
  exists (pc_m st). split; [lia|]. split; [lia|].
  apply Forall_forall. intros L HLin. apply in_map_iff in HLin.
  destruct HLin as (e & <- & He).
  rewrite Forall_forall in HW. destruct (HW e He) as (_ & _ & HLe & HRows).
  split.
  - rewrite length_firstn. lia.
  - apply Forall_forall. intros row Hrow. apply In_firstn in Hrow.
    rewrite Forall_forall in HRows. now apply HRows.
Qed.

Lemma ent_zeros n max_iter j a :
  j < max_iter -> a < n -> ent (repeat (repeat (Fin 0) n) max_iter) j a = Fin 0.
Proof.
  intros Hj Ha. unfold ent.
  rewrite (nth_indep _ [] (repeat (Fin 0) n)) by now rewrite repeat_length.
  rewrite nth_repeat. rewrite (nth_indep _ d0 (Fin 0)) by now rewrite repeat_length.
  apply nth_repeat.
Qed.

Lemma pc_tri_init n max_iter A : pc_tri n max_iter 0 (pc_init n max_iter A).
Proof.
  split.
  - intros j a _ Hj Ha. now apply ent_zeros.
  - intros i j _ Hj. lia.
Qed.

Lemma ent_upd_other L m row j a : j <> m -> ent (upd m row L) j a = ent L j a.
Proof. intros H. unfold ent. now rewrite nth_upd_other. Qed.

Lemma ent_upd_same L m row a : m < length L -> ent (upd m row L) m a = nth a row d0.
Proof. intros H. unfold ent. now rewrite nth_upd_same. Qed.

Lemma pc_tri_update n max_iter A m e v i :
  pc_wf n max_iter e -> m < max_iter -> i + m < n ->
  pc_tri n max_iter m e ->
  pc_tri n max_iter (m + 1) (pc_update n A m e v i).
Proof.
  intros HW Hm Hi [HZ HT].
  pose proof (pc_update_fields n max_iter A m e v i HW Hm Hi) as (EP & _ & EL & _).
  pose proof (pc_wf_update n max_iter A m e v i HW Hm Hi) as (HP' & _).
  pose proof HW as (HP & _ & HL & _).
  pose proof (perm_length _ _ HP) as Hlen.
  assert (Hlow : forall k, k < m ->
            nth k (pc_perm (pc_update n A m e v i)) 0 = nth k (pc_perm e) 0).
  { intros k Hk. rewrite EP, pc_swap_nth by lia.
    destruct (Nat.eqb_spec k m); [lia|]. destruct (Nat.eqb_spec k (i + m)); [lia|].
    reflexivity. }
  split.
  - intros j a H1 H2 Ha. rewrite EL, ent_upd_other by lia. apply HZ; auto. lia.
  - intros k j Hk Hj. destruct (Nat.eq_dec j m) as [->|Hne].
    + rewrite EL at 1. rewrite ent_upd_same by lia.
      assert (Hkn : nth k (pc_perm (pc_update n A m e v i)) 0 < n)
        by (apply perm_bound; [assumption|lia]).
      rewrite nth_scatter_out.
      * rewrite nth_upd_other.
        -- apply (HZ m); auto.
        -- rewrite <- EP. intro E.
           apply (proj1 (NoDup_nth _ 0) (perm_NoDup _ _ HP')) in E;
             rewrite ?(perm_length _ _ HP'); lia.
      * rewrite <- EP. apply NoDup_skipn_notin.
        -- eapply perm_NoDup; eauto.
        -- lia.
        -- rewrite (perm_length _ _ HP'). lia.
    + rewrite EL, ent_upd_other by assumption.
      rewrite Hlow by lia. apply HT; lia.
Qed.

Lemma pc_reach_tri n mats max_iter tol st :
  pc_reach n mats max_iter tol st ->
  Forall (pc_tri n max_iter (pc_m st)) (pc_elems st).
Proof.
  induction 1 as [|st st' HR IH HC HB].
  - simpl. apply Forall_forall. intros e He. apply in_map_iff in He.
    destruct He as (A & <- & _). apply pc_tri_init.
  - pose proof (pc_reach_wf _ _ _ _ _ HR) as (_ & HW & _).
    apply pc_cond_true in HC. apply pc_body_inv in HB. destruct HB as [E1 E2].
    rewrite E1. apply Forall_forall. intros e' He'.
    destruct (osequence_map2_In _ _ _ _ _ _ _ E2 _ He') as (A & e & _ & He & E).
    apply pc_step_inv in E. destruct E as (v & i & Hp & ->).
    rewrite Forall_forall in HW, IH.
    apply pc_tri_update; auto.
    apply pc_pivot_spec in Hp. destruct Hp as [Hp _].
    destruct (HW _ He) as (HP & _). now rewrite (perm_length _ _ HP) in Hp.
Qed.

(** X2.  Up to the order in which the pivots were selected, a returned factor
    is upper trapezoidal: there is an ordering of the [n] column indices such
    that row [j] is zero in the columns that come before position [j]. *)
Theorem factor_trapezoidal matrix max_iter tol Ls L :
  pivoted_cholesky matrix max_iter tol = Ok Ls -> In L Ls ->
  exists perm, Permutation (seq 0 (bt_n matrix)) perm /\
    forall i j, i < j -> j < length L -> ent L j (nth i perm 0) = Fin 0.
Proof.
  intros H HL. apply pivoted_cholesky_inv in H. destruct H as (st & HR & ->).
  apply pc_run_inv in HR. destruct HR as [Hmi HR].
  pose proof (pc_reach_wf _ _ _ _ _ HR) as (Hm & HW & _).
  pose proof (pc_reach_tri _ _ _ _ _ HR) as HT.
  apply in_map_iff in HL. destruct HL as (e & <- & He).
  rewrite Forall_forall in HW, HT.
  destruct (HW e He) as (HP & _ & HLe & _). destruct (HT e He) as [_ HTe].
  exists (pc_perm e). split; [exact HP|].
  intros i j Hij Hj. rewrite length_firstn in Hj.
  rewrite ent_firstn by lia. apply HTe; lia.
Qed.

Local Open Scope R_scope.

(** ** The pivot rule *)

Lemma tmax_from_first l : forall best bi i,
  finite best -> Forall finite l ->
  let r := tmax_from best bi i l in
  (snd r = bi /\ fst r = best /\ Forall (fun y => val y <= val best) l) \/
  ((i <= snd r < i + length l)%nat /\ fst r = nth (snd r - i) l d0 /\
   val best < val (fst r) /\
   (forall k, (k < snd r - i)%nat -> val (nth k l d0) < val (fst r)) /\
   Forall (fun y => val y <= val (fst r)) l).
Proof.
  induction l as [|x t IH]; intros best bi i Hb Hl; simpl.
  - left. auto.
  - inversion Hl as [|? ? Hx Ht]; subst.
    destruct best as [b|]; [|contradiction]. destruct x as [x|]; [|contradiction].
    simpl. destruct (Rle_dec x b) as [Hle|Hgt].
    + destruct (IH (Fin b) bi (S i) I Ht) as [(E1 & E2 & A)|(B1 & E2 & B2 & B3 & A)].
      * left. repeat split; auto.
      * right. set (r := tmax_from (Fin b) bi (S i) t) in *.
        replace (snd r - i)%nat with (S (snd r - S i)) by lia.
        split; [lia|]. split; [exact E2|]. split; [exact B2|]. split.
        -- intros [|k] Hk; simpl in *; [lra|]. apply B3. lia.
        -- constructor; [simpl in *; lra|exact A].
    + assert (Hlt : b < x) by lra.
      destruct (IH (Fin x) i (S i) I Ht) as [(E1 & E2 & A)|(B1 & E2 & B2 & B3 & A)];
        right; set (r := tmax_from (Fin x) i (S i) t) in *.
      * rewrite E1, E2, Nat.sub_diag. simpl.
        split; [lia|]. split; [reflexivity|]. split; [exact Hlt|]. split.
        -- intros k Hk. lia.
        -- constructor; [simpl; lra|exact A].
      * replace (snd r - i)%nat with (S (snd r - S i)) by lia.
        split; [lia|]. split; [exact E2|]. split; [simpl in *; lra|]. split.
        -- intros [|k] Hk; simpl in *; [lra|]. apply B3. lia.
        -- constructor; [simpl in *; lra|exact A].
Qed.

Lemma tmax_first l v i :
  Forall finite l -> tmax l = Some (v, i) ->
  (i < length l)%nat /\ v = nth i l d0 /\
  Forall (fun y => val y <= val v) l /\
  (forall k, (k < i)%nat -> val (nth k l d0) < val v).
Proof.
  destruct l as [|x t]; simpl; [discriminate|].
  intros Hl H. injection H as H. inversion Hl as [|? ? Hx Ht]; subst.
  pose proof (tmax_from_first t x 0%nat 1%nat Hx Ht) as S. simpl in S.
  rewrite H in S. simpl in S.
  destruct S as [(-> & -> & A)|(B1 & E2 & B2 & B3 & A)].
  - split; [lia|]. split; [reflexivity|]. split.
    + constructor; [lra|exact A].
    + intros k Hk. lia.
  - destruct i as [|i]; [lia|]. replace (S i - 1)%nat with i in * by lia.
    split; [lia|]. split; [exact E2|]. split.
    + constructor; [lra|exact A].
    + intros [|k] Hk; [exact B2|]. apply B3. lia.
Qed.

(** X3.  The pivot of a pass is the largest diagonal entry that is left, and
    the first one where several are equal: when the entries of the working
    diagonal at the permutation positions [m..] are real, the selected value
    is the one at position [m + i], no entry at a position [m + k] is larger,
    and those before it are smaller. *)
Theorem pivot_is_first_maximum m e v i :
  Forall finite (gather d0 (pc_diag e) (skipn m (pc_perm e))) ->
  pc_pivot m e = Some (v, i) ->
  v = nth (nth (m + i) (pc_perm e) 0%nat) (pc_diag e) d0 /\
  (forall k, (m + k < length (pc_perm e))%nat ->
     val (nth (nth (m + k) (pc_perm e) 0%nat) (pc_diag e) d0) <= val v) /\
  (forall k, (k < i)%nat ->
     val (nth (nth (m + k) (pc_perm e) 0%nat) (pc_diag e) d0) < val v).
Proof.
  intros HF Hp. unfold pc_pivot in Hp.
  destruct (tmax_first _ v i HF Hp) as (Hi & Ev & Hall & Hfirst).
  rewrite gather_length, length_skipn in Hi.
  assert (Hnth : forall k, (m + k < length (pc_perm e))%nat ->
            nth k (gather d0 (pc_diag e) (skipn m (pc_perm e))) d0
            = nth (nth (m + k) (pc_perm e) 0%nat) (pc_diag e) d0).
  { intros k Hk. unfold gather.
    rewrite (nth_map_in _ _ (fun j => nth j (pc_diag e) d0) _ k d0 0%nat)
      by (rewrite length_skipn; lia).
    now rewrite nth_skipn. }
  split; [|split].
  - rewrite Ev. apply Hnth. lia.
  - intros k Hk. rewrite <- Hnth by assumption.
    rewrite Forall_forall in Hall. apply Hall. apply nth_In.
    rewrite gather_length, length_skipn. lia.
  - intros k Hk. rewrite <- Hnth by lia. now apply Hfirst.
Qed.

Local Close Scope R_scope.

(** ** Calls of [pivoted_cholesky] that make no pass *)

Lemma pc_run_no_pass matrix max_iter tol v i :
  (0 <= max_iter)%Z ->
  tmax (map (fun A => norm1 (mdiag (bt_n matrix) A)) (bt_mats matrix))
    = Some (v, i) ->
  ngtb v tol = false ->
  pivoted_cholesky matrix max_iter tol = Ok (map (fun _ => []) (bt_mats matrix)).
Proof.
  intros Hmi Hmax Hv.
  assert (Hne : bt_mats matrix <> [])
    by (intros H0; rewrite H0 in Hmax; discriminate).
  unfold pivoted_cholesky. rewrite pc_run_nonempty by exact Hne.
  destruct (Z.ltb_spec (Z.min max_iter (Z.of_nat (bt_n matrix))) 0) as [H|_]; [lia|].
  destruct (Z.to_nat (Z.min max_iter (Z.of_nat (bt_n matrix)))) as [|f] eqn:E.
  - simpl. now rewrite map_map.
  - cbn [pc_loop]. unfold pc_cond, pc_start. cbn [pc_m pc_elems Nat.ltb Nat.leb].
    rewrite map_map. cbn [pc_err pc_init]. rewrite Hmax. cbn [obind]. rewrite Hv.
    simpl. now rewrite map_map.
Qed.

(** X4.  When the 1-norm of the diagonal of every matrix of the batch is
    within the tolerance, the loop does not start: the factors have no
    rows. *)
Theorem within_tolerance_no_rows matrix max_iter t :
  bt_mats matrix <> [] -> (0 <= max_iter)%Z ->
  (forall A, In A (bt_mats matrix) ->
     exists x, norm1 (mdiag (bt_n matrix) A) = Fin x /\ (x <= t)%R) ->
  pivoted_cholesky matrix max_iter (Fin t)
  = Ok (map (fun _ => []) (bt_mats matrix)).
Proof.
  intros Hne Hmi Hall.
  destruct (tmax_some (map (fun A => norm1 (mdiag (bt_n matrix) A)) (bt_mats matrix)))
    as (v & i & Hmax).
  { destruct (bt_mats matrix); [congruence|discriminate]. }
  apply (pc_run_no_pass matrix max_iter (Fin t) v i Hmi Hmax).
  apply tmax_spec in Hmax. destruct Hmax as [Hi ->].
  assert (Hin : In (nth i (map (fun A => norm1 (mdiag (bt_n matrix) A)) (bt_mats matrix)) d0)
                  (map (fun A => norm1 (mdiag (bt_n matrix) A)) (bt_mats matrix)))
    by now apply nth_In.
  apply in_map_iff in Hin. destruct Hin as (A & <- & HA).
  destruct (Hall A HA) as (x & -> & Hx). simpl.
  destruct (Rlt_dec t x); [lra|reflexivity].
Qed.

Lemma nsum_nan l : In NaN l -> nsum l = NaN.
Proof.
  induction l as [|x l IH]; simpl; [contradiction|].
  intros [->|H]; [reflexivity|].
  change (fold_right nadd (Fin 0) l) with (nsum l). rewrite (IH H). now destruct x.
Qed.

Lemma norm1_nan v : In NaN v -> norm1 v = NaN.
Proof.
  intros H. unfold norm1. apply nsum_nan.
  change NaN with (nabs NaN). now apply in_map.
Qed.

Lemma tmax_from_nan l : forall best bi i,
  best = NaN \/ In NaN l -> fst (tmax_from best bi i l) = NaN.
Proof.
  induction l as [|x t IH]; intros best bi i H; simpl.
  - destruct H as [H|[]]. exact H.
  - destruct best as [b|]; [|reflexivity]. simpl.
    destruct H as [H|[->|H]]; [discriminate| |].
    + simpl. apply IH. now left.
    + destruct (nleb x (Fin b)); apply IH; now right.
Qed.

Lemma tmax_nan l : In NaN l -> exists i, tmax l = Some (NaN, i).
Proof.
  destruct l as [|x t]; simpl; [contradiction|]. intros H.
  pose proof (tmax_from_nan t x 0 1) as E.
  destruct (tmax_from x 0 1 t) as [v i]. simpl in E.
  rewrite E; [now exists i|]. destruct H as [<-|H]; auto.
Qed.

(** X5.  A nan on the diagonal of one matrix of the batch ends the call before
    its first pass, for the whole batch and without an error: the norm of that
    diagonal is nan, so is the maximum of the errors, and the loop test
    [max > error_tol] is false. *)
Theorem nan_diagonal_no_rows matrix max_iter tol A i :
  (0 <= max_iter)%Z -> In A (bt_mats matrix) ->
  i < bt_n matrix -> ent A i i = NaN ->
  pivoted_cholesky matrix max_iter tol
  = Ok (map (fun _ => []) (bt_mats matrix)).
Proof.
  intros Hmi HA Hi Hnan.
  destruct (tmax_nan (map (fun A => norm1 (mdiag (bt_n matrix) A)) (bt_mats matrix)))
    as [j Hmax].
  { apply in_map_iff. exists A. split; [|exact HA].
    apply norm1_nan. unfold mdiag, tab. apply in_map_iff. exists i. split.
    - exact Hnan.
    - apply in_seq. lia. }
  now apply (pc_run_no_pass matrix max_iter tol NaN j).
Qed.


(** ** A pass whose pivot value is zero *)

Lemma nsqrt_zero : nsqrt (Fin 0) = Fin 0.
Proof. simpl. destruct (Rlt_dec 0 0); [lra|]. now rewrite sqrt_0. Qed.

(** X7.  A pass divides by the square root of the selected value with no test
    for zero: when the value is zero, every entry that the pass computes for
    row [m] of [L], and every entry of the working diagonal that it updates,
    has no real value. *)
Theorem zero_pivot_row_undefined n mats max_iter tol st A e i :
  pc_reach n mats max_iter tol st ->
  pc_cond max_iter tol st = Ok true ->
  In e (pc_elems st) ->
  pc_pivot (pc_m st) e = Some (Fin 0, i) ->
  exists e', pc_step n A (pc_m st) e = Ok e' /\
    forall q, In q (skipn (pc_m st + 1) (pc_perm e')) ->
      ent (pc_L e') (pc_m st) q = NaN /\ nth q (pc_diag e') d0 = NaN.
Proof.
  intros HR HC He Hp.
  apply pc_reach_wf in HR. destruct HR as (_ & HW & _).
  rewrite Forall_forall in HW. specialize (HW _ He).
  apply pc_cond_true in HC.
  unfold pc_step. rewrite Hp. eexists; split; [reflexivity|].
  pose proof HW as (HP & HD & HL & HRows).
  apply pc_pivot_spec in Hp. destruct Hp as [Hb _].
  rewrite (perm_length _ _ HP) in Hb.
  pose proof (pc_update_fields n max_iter A (pc_m st) e (Fin 0) i HW HC Hb)
    as (EP & ED & EL & _).
  pose proof (pc_wf_update n max_iter A (pc_m st) e (Fin 0) i HW HC Hb) as (HP' & _).
  intros q Hq. rewrite EP in Hq.
  assert (ND : NoDup (skipn (pc_m st + 1) (pc_swap (pc_m st) (i + pc_m st) (pc_perm e)))).
  { rewrite <- EP. pose proof (perm_NoDup _ _ HP') as ND.
    rewrite <- (firstn_skipn (pc_m st + 1) _) in ND. now apply NoDup_app_remove_l in ND. }
  assert (Hqn : q < n).
  { assert (Hq' : In q (pc_swap (pc_m st) (i + pc_m st) (pc_perm e))).
    { rewrite <- (firstn_skipn (pc_m st + 1) _). apply in_or_app. now right. }
    rewrite <- EP in Hq'. clear Hq. rename Hq' into Hq.
    apply (Permutation_in _ (Permutation_sym HP')) in Hq. apply in_seq in Hq. lia. }
  assert (Hlv : forall p, pc_lval A (pc_L e) (pc_m st) p (Fin 0) q = NaN).
  { intros p. unfold pc_lval. rewrite nsqrt_zero. apply ndiv_zero_r. }
  split.
  - rewrite EL, ent_upd_same by lia.
    rewrite (nth_scatter_in _ _ _
      (pc_lval A (pc_L e) (pc_m st)
         (nth (pc_m st) (pc_swap (pc_m st) (i + pc_m st) (pc_perm e)) 0) (Fin 0)));
      auto.
    rewrite upd_length. rewrite Forall_forall in HRows.
    rewrite (HRows (nth (pc_m st) (pc_L e) [])); [assumption|]. apply nth_In. lia.
  - rewrite ED.
    rewrite (nth_scatter_in _ _ _
      (fun k => nsub (nth k (pc_diag e) d0)
         (nmul (pc_lval A (pc_L e) (pc_m st)
                  (nth (pc_m st) (pc_swap (pc_m st) (i + pc_m st) (pc_perm e)) 0)
                  (Fin 0) k)
               (pc_lval A (pc_L e) (pc_m st)
                  (nth (pc_m st) (pc_swap (pc_m st) (i + pc_m st) (pc_perm e)) 0)
                  (Fin 0) k)))); auto; [|lia].
    rewrite Hlv. simpl. apply nsub_nan_r.
Qed.

Local Open Scope R_scope.

(** ** [pivoted_cholesky] on a positive semi-definite matrix *)

Lemma resid_firstn A L m a b : resid A (firstn m L) m a b = resid A L m a b.
Proof.
  unfold resid, gram. f_equal. apply Rsum_ext. intros j Hj.
  now rewrite !ent_firstn.
Qed.

Lemma Rlsum_map_zero (f : nat -> R) l :
  (forall k, In k l -> f k = 0) -> Rlsum (map f l) = 0.
Proof.
  induction l as [|a l IH]; intros H; simpl; [reflexivity|].
  rewrite IH by (intros; apply H; now right).
  rewrite (H a) by now left. lra.
Qed.

(** The trace of the residual is the sum of its diagonal over the indices
    that are still candidates. *)
Lemma good_trace n max_iter A m e :
  sym_psd n A -> pc_good n max_iter A m e ->
  Rsum n (fun a => resid A (pc_L e) m a a) =
  Rlsum (map (fun k => Rabs (resid A (pc_L e) m k k)) (skipn m (pc_perm e))).
Proof.
  intros HA HG. pose proof HG as ((HP & _) & _ & Hmn & _ & _ & HZ & _).
  rewrite <- Rlsum_seq.
  rewrite (Rlsum_perm _ _ (Permutation_map (fun a => resid A (pc_L e) m a a) HP)).
  rewrite <- (firstn_skipn m (pc_perm e)) at 1.
  rewrite map_app, Rlsum_app.
  rewrite Rlsum_map_zero.
  - rewrite Rplus_0_l. f_equal. apply map_ext_in. intros k Hk.
    assert (Hkn : (k < n)%nat).
    { assert (In k (pc_perm e))
        by (rewrite <- (firstn_skipn m (pc_perm e)); apply in_or_app; now right).
      apply (Permutation_in _ (Permutation_sym HP)) in H. apply in_seq in H. lia. }
    pose proof (good_resid_nonneg _ _ _ _ _ k HA HG Hkn).
    rewrite Rabs_right by lra. reflexivity.
  - intros k Hk. apply (In_nth _ _ 0%nat) in Hk. destruct Hk as (j & Hj & <-).
    rewrite length_firstn in Hj. rewrite nth_firstn.
    destruct (Nat.ltb_spec j m); [|lia].
    apply HZ; [lia|]. apply perm_bound; [assumption|]. lia.
Qed.

(** X8.  For one symmetric positive semi-definite matrix [A] and a tolerance
    that is not negative, the call returns a factor [L] with real entries such
    that what is left of [A], [A - L' L], is positive semi-definite and
    vanishes on the rows of [length L] distinct indices (the pivots); and
    either [L] has all [min(max_iter, n)] rows or the trace of what is left is
    within the tolerance. *)
Theorem psd_approximation n A max_iter t :
  sym_psd n A -> (0 <= max_iter)%Z -> 0 <= t ->
  exists L piv,
    pivoted_cholesky {| bt_n := n; bt_mats := [emb A] |} max_iter (Fin t)
      = Ok [L] /\
    (forall j a, (j < length L)%nat -> (a < n)%nat -> finite (ent L j a)) /\
    psd n (resid A L (length L)) /\
    NoDup piv /\ length piv = length L /\
    (forall p b, In p piv -> (b < n)%nat ->
       (p < n)%nat /\ gram L (length L) p b = entR A p b) /\
    (length L = Z.to_nat (Z.min max_iter (Z.of_nat n)) \/
     Rsum n (fun a => resid A L (length L) a a) <= t).
Proof.
  intros HA Hmi Ht. unfold pivoted_cholesky.
  rewrite pc_run_nonempty by discriminate. cbn [bt_n bt_mats].
  destruct (Z.ltb_spec (Z.min max_iter (Z.of_nat n)) 0) as [H|_]; [lia|].
  set (mi := Z.to_nat (Z.min max_iter (Z.of_nat n))).
  assert (Hle : (mi <= n)%nat) by (unfold mi; lia).
  unfold pc_start. cbn [map].
  destruct (pc_loop_good n mi A t HA Hle Ht mi 0%nat
              (pc_init n mi (emb A)) (pc_good_init n mi A HA Hle)
              ltac:(lia)) as (m & e & -> & HG & Hend).
  cbn [obind pc_m pc_elems map].
  pose proof HG as ((HP & _ & HL & _) & Hm & Hmn & HF & _ & HZ & _ & Hpsd & _).
  assert (Hlen : length (firstn m (pc_L e)) = m) by (rewrite length_firstn; lia).
  exists (firstn m (pc_L e)), (firstn m (pc_perm e)).
  rewrite Hlen. split; [reflexivity|]. split; [|split; [|split; [|split; [|split]]]].
  - intros j a Hj Ha. rewrite ent_firstn by assumption. apply HF; auto. lia.
  - apply (psd_ext n (resid A (pc_L e) m)); [|assumption].
    intros a b _ _. now rewrite resid_firstn.
  - pose proof (perm_NoDup _ _ HP) as ND.
    rewrite <- (firstn_skipn m (pc_perm e)) in ND. now apply NoDup_app_remove_r in ND.
  - rewrite length_firstn, (perm_length _ _ HP). lia.
  - intros p b Hp Hb. apply (In_nth _ _ 0%nat) in Hp. destruct Hp as (j & Hj & <-).
    rewrite length_firstn, (perm_length _ _ HP) in Hj. rewrite nth_firstn.
    destruct (Nat.ltb_spec j m); [|lia].
    assert (Hpn : (nth j (pc_perm e) 0 < n)%nat) by (apply perm_bound; [assumption|lia]).
    split; [assumption|].
    pose proof (HZ j b ltac:(lia) Hb) as H0. rewrite <- resid_firstn in H0.
    unfold resid in H0. lra.
  - destruct Hend as [->|(x & Hx & Hxt)]; [now left|].
    destruct (Nat.eq_dec m n) as [->|Hne].
    + left. lia.
    + right. rewrite (good_err _ _ _ _ _ HG ltac:(lia)) in Hx. injection Hx as Hx.
      rewrite (Rsum_ext n _ (fun a => resid A (pc_L e) m a a))
        by (intros; apply resid_firstn).
      rewrite (good_trace n mi A m e HA HG). lra.
Qed.

(** X9.  In a run on symmetric positive semi-definite matrices the values
    selected as pivots do not grow: after a pass with a positive pivot value
    [r], the value selected in the next pass is a real number between 0 and
    [r]. *)
Theorem pivots_nonincreasing n As max_iter tol st st' k e e' r i v' i' :
  Forall (sym_psd n) As -> (max_iter <= n)%nat ->
  pc_reach n (map emb As) max_iter tol st ->
  pc_cond max_iter tol st = Ok true ->
  pc_body n (map emb As) st = Ok st' ->
  nth_error (pc_elems st) k = Some e ->
  nth_error (pc_elems st') k = Some e' ->
  pc_pivot (pc_m st) e = Some (Fin r, i) -> 0 < r ->
  pc_pivot (pc_m st') e' = Some (v', i') ->
  exists r', v' = Fin r' /\ 0 <= r' <= r.
Proof.
  intros HAs Hmi HR HC HB He He' Hp Hr Hp'.
  pose proof (pc_cond_true _ _ _ HC) as Hm.
  apply pc_body_inv in HB. destruct HB as [E1 E2].
  destruct (osequence_map2_nth _ _ _ _ _ _ _ E2 _ _ He') as (a & b & Ha & Hb & Hs).
  rewrite He in Hb. injection Hb as <-.
  rewrite nth_error_map in Ha. destruct (nth_error As k) as [A|] eqn:EA; [|discriminate].
  simpl in Ha. injection Ha as <-.
  assert (HA : sym_psd n A).
  { rewrite Forall_forall in HAs. eapply HAs, nth_error_In; eauto. }
  destruct (pc_reach_inv n As max_iter tol st HAs Hmi HR k A e EA He) as [HG|HBad];
    [|pose proof (pc_bad_pivot _ _ _ _ _ _ HBad Hp) as X; discriminate X].
  unfold pc_step in Hs. rewrite Hp in Hs. injection Hs as <-.
  rewrite E1 in Hp'.
  set (m := pc_m st) in *.
  pose proof (pc_good_step n max_iter A m e r i HA HG Hm Hp Hr) as HG'.
  pose proof (gs_bound n max_iter A m e r i HA HG Hm Hp Hr) as Hbd.
  pose proof (gs_wf n max_iter A m e r i HA HG Hm Hp Hr) as HW.
  pose proof (pc_update_fields n max_iter (emb A) m e (Fin r) i HW Hm Hbd)
    as (EP & _).
  set (e1 := pc_update n (emb A) m e (Fin r) i) in *.
  pose proof HG' as ((HP' & _) & _ & _ & _ & _ & _ & HD' & _).
  pose proof HW as (HP & _). pose proof (perm_length _ _ HP) as Hlen.
  pose proof (pc_pivot_spec _ _ _ _ Hp') as [Hb' Hv'].
  rewrite (perm_length _ _ HP') in Hb'.
  rewrite HD' in Hv' by lia.
  set (q := nth (i' + (m + 1)) (pc_perm e1) 0%nat) in *.
  assert (Hq : (q < n)%nat) by (apply perm_bound; auto).
  eexists; split; [exact Hv'|].
  split; [now apply (good_resid_nonneg n max_iter A (m + 1) e1)|].
  unfold e1. rewrite (gs_resid n max_iter A m e r i HA HG Hm Hp Hr) by assumption.
  fold e1. set (G := resid A (pc_L e) m).
  set (p := nth m (pc_swap m (i + m) (pc_perm e)) 0%nat).
  pose proof (gs_r n max_iter A m e r i HA HG Hm Hp Hr) as Er. fold G p in Er.
  assert (Hsq : 0 <= G p q * G p q / G p p).
  { rewrite <- Er. apply Rmult_le_pos; [nra|]. left. now apply Rinv_0_lt_compat. }
  assert (Hmax : G q q <= r).
  { unfold pc_pivot in Hp. rewrite (good_candidates _ _ _ _ _ HG) in Hp.
    apply tmax_ge in Hp.
    - destruct Hp as [_ Hall]. rewrite Forall_forall in Hall.
      apply (Hall (Fin (G q q))).
      rewrite map_map. apply in_map_iff. exists q. split; [reflexivity|].
      apply (Permutation_in q (Permutation_sym (swap_skipn m (i + m) (pc_perm e)
                                   ltac:(lia) ltac:(lia)))).
      rewrite <- EP. unfold q.
      replace (i' + (m + 1))%nat with (m + (i' + 1))%nat by lia.
      rewrite <- nth_skipn. apply nth_In.
      rewrite length_skipn, (perm_length _ _ HP'). lia.
    - apply Forall_forall. intros y Hy. apply in_map_iff in Hy.
      destruct Hy as (z & <- & _). exact I. }
  lra.
Qed.

Local Close Scope R_scope.

(** ** A smaller [max_iter] gives the first rows of the same factor *)

Lemma firstn_upd (A : Type) j m (x : A) l :
  j <= m -> firstn j (upd m x l) = firstn j l.
Proof.
  revert j m. induction l as [|a l IH]; intros j m H.
  - now destruct m.
  - destruct m as [|m]; simpl.
    + assert (j = 0) by lia. now subst.
    + destruct j as [|j]; simpl; [reflexivity|]. f_equal. apply IH. lia.
Qed.

Lemma upd_firstn (A : Type) k m (x : A) l :
  upd m x (firstn k l) = firstn k (upd m x l).
Proof.
  revert k m. induction l as [|a l IH]; intros k m.
  - rewrite firstn_nil. destruct m; simpl; now rewrite firstn_nil.
  - destruct k as [|k]; simpl.
    + now destruct m.
    + destruct m as [|m]; simpl; [reflexivity|]. f_equal. apply IH.
Qed.

Lemma firstn_repeat_le (A : Type) (x : A) k k' :
  k <= k' -> firstn k (repeat x k') = repeat x k.
Proof.
  revert k'. induction k as [|k IH]; intros k' H; [reflexivity|].
  destruct k' as [|k']; [lia|]. simpl. f_equal. apply IH. lia.
Qed.

Lemma pc_init_trunc n k k' A :
  k <= k' -> pc_init n k A = pc_trunc k (pc_init n k' A).
Proof.
  intros H. unfold pc_init, pc_trunc. simpl. now rewrite firstn_repeat_le.
Qed.

Lemma pc_update_trunc n A k m e v i :
  m < k ->
  pc_update n A m (pc_trunc k e) v i = pc_trunc k (pc_update n A m e v i).
Proof.
  intros H. unfold pc_update, pc_trunc. cbn [pc_diag pc_perm pc_L pc_err].
  assert (E1 : nth m (firstn k (pc_L e)) [] = nth m (pc_L e) []).
  { rewrite nth_firstn. destruct (Nat.ltb_spec m k); [reflexivity|lia]. }
  assert (E2 : firstn m (firstn k (pc_L e)) = firstn m (pc_L e)).
  { rewrite firstn_firstn. f_equal. lia. }
  rewrite E1, E2.
  destruct (m + 1 <? n); cbn [pc_diag pc_perm pc_L pc_err]; now rewrite upd_firstn.
Qed.

Lemma pc_step_trunc n A k m e e' :
  m < k -> pc_step n A m e = Ok e' ->
  pc_step n A m (pc_trunc k e) = Ok (pc_trunc k e').
Proof.
  intros H. unfold pc_step.
  change (pc_pivot m (pc_trunc k e)) with (pc_pivot m e).
  destruct (pc_pivot m e) as [[v i]|]; [|discriminate].
  intros E; injection E as <-. now rewrite pc_update_trunc.
Qed.

Lemma pc_steps_trunc n k m mats : forall es es',
  m < k ->
  osequence (map2 (fun A e => pc_step n A m e) mats es) = Ok es' ->
  osequence (map2 (fun A e => pc_step n A m e) mats (map (pc_trunc k) es))
  = Ok (map (pc_trunc k) es').
Proof.
  induction mats as [|A mats IH]; intros [|e es] es' Hm H; simpl in *;
    try (injection H as <-; reflexivity).
  destruct (pc_step n A m e) as [e1|] eqn:E; simpl in H; [|discriminate].
  destruct (osequence (map2 (fun A e => pc_step n A m e) mats es)) as [r|] eqn:E2;
    simpl in H; [|discriminate].
  injection H as <-.
  rewrite (pc_step_trunc n A k m e e1 Hm E). simpl.
  rewrite (IH es r Hm E2). reflexivity.
Qed.

Lemma pc_update_rows_below n A m e v i j :
  j <= m -> firstn j (pc_L (pc_update n A m e v i)) = firstn j (pc_L e).
Proof.
  intros H. unfold pc_update.
  destruct (m + 1 <? n); cbn [pc_L]; now apply firstn_upd.
Qed.

(** A pass leaves the rows of [L] above row [m] as they are. *)
Lemma pc_steps_rows_below n m j mats : forall es es',
  j <= m -> length es = length mats ->
  osequence (map2 (fun A e => pc_step n A m e) mats es) = Ok es' ->
  map (fun e => firstn j (pc_L e)) es' = map (fun e => firstn j (pc_L e)) es.
Proof.
  induction mats as [|A mats IH]; intros [|e es] es' Hj HL H; simpl in *;
    try discriminate; try (injection H as <-; reflexivity).
  destruct (pc_step n A m e) as [e1|] eqn:E; simpl in H; [|discriminate].
  destruct (osequence (map2 (fun A e => pc_step n A m e) mats es)) as [r|] eqn:E2;
    simpl in H; [|discriminate].
  injection H as <-. simpl. f_equal.
  - apply pc_step_inv in E. destruct E as (v & i & _ & ->).
    now apply pc_update_rows_below.
  - apply IH; auto.
Qed.

Lemma pc_loop_rows_below n mats max_iter tol fuel : forall st out,
  length (pc_elems st) = length mats ->
  pc_loop fuel n mats max_iter tol st = Ok out ->
  pc_m st <= pc_m out /\
  map (fun e => firstn (pc_m st) (pc_L e)) (pc_elems out)
  = map (fun e => firstn (pc_m st) (pc_L e)) (pc_elems st).
Proof.
  induction fuel as [|f IH]; intros st out HL H; simpl in H.
  - injection H as <-. auto.
  - destruct (pc_cond max_iter tol st) as [[|]|]; simpl in H; try discriminate.
    + destruct (pc_body n mats st) as [st1|] eqn:EB; simpl in H; [|discriminate].
      apply pc_body_inv in EB. destruct EB as [E1 E2].
      assert (HL1 : length (pc_elems st1) = length mats).
      { rewrite (osequence_map2_length _ _ _ _ _ _ _ E2). lia. }
      destruct (IH st1 out HL1 H) as [Hm Hrows]. split; [lia|].
      rewrite <- (pc_steps_rows_below n (pc_m st) (pc_m st) mats _ _
                    (Nat.le_refl _) HL E2).
      apply (f_equal (map (firstn (pc_m st)))) in Hrows.
      rewrite !map_map in Hrows.
      rewrite (map_ext _ (fun e => firstn (pc_m st) (pc_L e))) in Hrows
        by (intros; rewrite firstn_firstn; f_equal; lia).
      rewrite Hrows. apply map_ext. intros. rewrite firstn_firstn. f_equal. lia.
    + injection H as <-. auto.
Qed.

(** The loop with [k] rows allocated follows the loop with [k' >= k] rows
    pass by pass until it has made [k] of them. *)
Lemma pc_loop_trunc n mats k k' tol :
  k <= k' ->
  forall f1 f2 st out2,
    length (pc_elems st) = length mats ->
    pc_m st <= k -> k - pc_m st <= f1 -> k' - pc_m st <= f2 ->
    pc_loop f2 n mats k' tol st = Ok out2 ->
    exists out1,
      pc_loop f1 n mats k tol
        {| pc_m := pc_m st; pc_elems := map (pc_trunc k) (pc_elems st) |}
      = Ok out1 /\
      pc_m out1 = Nat.min k (pc_m out2) /\
      map (fun e => firstn (pc_m out1) (pc_L e)) (pc_elems out1)
      = map (fun e => firstn (pc_m out1) (pc_L e)) (pc_elems out2).
Proof.
  intros Hk. induction f1 as [|f1 IH]; intros f2 st out2 HL Hm Hf1 Hf2 H.
  - assert (Em : pc_m st = k) by lia.
    destruct (pc_loop_rows_below n mats k' tol f2 st out2 HL H) as [Hle Hrows].
    eexists; split; [reflexivity|]. cbn [pc_m pc_elems].
    split; [lia|]. rewrite Hrows, map_map. apply map_ext. intros e.
    cbn [pc_L pc_trunc]. rewrite firstn_firstn. f_equal. lia.
  - destruct (Nat.eq_dec (pc_m st) k) as [Em|Hne].
    + destruct (pc_loop_rows_below n mats k' tol f2 st out2 HL H) as [Hle Hrows].
      exists {| pc_m := pc_m st; pc_elems := map (pc_trunc k) (pc_elems st) |}.
      split.
      * cbn [pc_loop]. unfold pc_cond. cbn [pc_m].
        destruct (Nat.ltb_spec (pc_m st) k); [lia|reflexivity].
      * cbn [pc_m pc_elems]. split; [lia|]. rewrite Hrows, map_map.
        apply map_ext. intros e. cbn [pc_L pc_trunc].
        rewrite firstn_firstn. f_equal. lia.
    + destruct f2 as [|f2]; [lia|].
      cbn [pc_loop] in H |- *. unfold pc_cond in H |- *. cbn [pc_m pc_elems] in *.
      destruct (Nat.ltb_spec (pc_m st) k'); [|lia].
      destruct (Nat.ltb_spec (pc_m st) k); [|lia].
      rewrite map_map. cbn [pc_err pc_trunc].
      destruct (tmax (map pc_err (pc_elems st))) as [[v j]|]; [|discriminate].
      cbn [obind] in H |- *.
      destruct (ngtb v tol).
      * destruct (pc_body n mats st) as [st1|] eqn:EB; [|discriminate].
        cbn [obind] in H.
        pose proof (pc_body_inv _ _ _ _ EB) as [E1 E2].
        assert (HL1 : length (pc_elems st1) = length mats).
        { rewrite (osequence_map2_length _ _ _ _ _ _ _ E2). lia. }
        destruct (IH f2 st1 out2 HL1 ltac:(lia) ltac:(lia) ltac:(lia) H)
          as (out1 & Hout & Hm1 & Hrows).
        exists out1. split; [|auto].
        unfold pc_body. cbn [pc_m pc_elems].
        rewrite (pc_steps_trunc n k (pc_m st) mats _ _ ltac:(lia) E2).
        cbn [obind]. rewrite <- E1. exact Hout.
      * injection H as <-. eexists; split; [reflexivity|]. cbn [pc_m pc_elems].
        split; [lia|]. rewrite map_map. apply map_ext. intros e.
        cbn [pc_L pc_trunc]. rewrite firstn_firstn. f_equal. lia.
Qed.

(** X10.  The rows of the factor do not depend on how many more are asked for:
    a call with a smaller [max_iter] returns, for every batch element, the
    first [max_iter] rows of what the call with the larger one returns. *)
Theorem max_iter_prefix matrix k k' tol Ls' :
  (0 <= k <= k')%Z ->
  pivoted_cholesky matrix k' tol = Ok Ls' ->
  pivoted_cholesky matrix k tol = Ok (map (firstn (Z.to_nat k)) Ls').
Proof.
  intros Hk H. apply pivoted_cholesky_inv in H. destruct H as (out2 & HR & ->).
  pose proof (pc_run_inv _ _ _ _ HR) as [_ Hreach].
  apply pc_reach_wf in Hreach. destruct Hreach as (Hm2 & _ & _).
  pose proof (pc_run_ok_nonempty _ _ _ _ HR) as Hne.
  unfold pivoted_cholesky. rewrite pc_run_nonempty in HR |- * by exact Hne.
  set (n := bt_n matrix) in *. set (mats := bt_mats matrix) in *.
  destruct (Z.ltb_spec (Z.min k' (Z.of_nat n)) 0) as [H|_]; [discriminate|].
  destruct (Z.ltb_spec (Z.min k (Z.of_nat n)) 0) as [H|_]; [lia|].
  set (mi1 := Z.to_nat (Z.min k (Z.of_nat n))) in *.
  set (mi2 := Z.to_nat (Z.min k' (Z.of_nat n))) in *.
  assert (Hle : mi1 <= mi2) by (unfold mi1, mi2; lia).
  destruct (pc_loop_trunc n mats mi1 mi2 tol Hle mi1 mi2 (pc_start n mi2 mats) out2)
    as (out1 & Hout & Hm1 & Hrows); simpl; try lia.
  - apply length_map.
  - exact HR.
  - unfold pc_start in Hout |- *. cbn [pc_m pc_elems] in Hout.
    rewrite map_map in Hout.
    rewrite (map_ext (pc_init n mi1) (fun A => pc_trunc mi1 (pc_init n mi2 A)))
      by (intros; now apply pc_init_trunc).
    rewrite Hout. cbn [obind]. f_equal. rewrite Hrows, map_map.
    apply map_ext. intros e. rewrite firstn_firstn. f_equal.
    rewrite Hm1. unfold mi1. unfold mi2 in Hm2. lia.
Qed.

(** ** A looser tolerance gives the first rows of the same factor *)

Lemma ngtb_mono v t t' : (t <= t')%R -> ngtb v (Fin t') = true -> ngtb v (Fin t) = true.
Proof.
  intros Ht. destruct v as [x|]; simpl; [|discriminate].
  destruct (Rlt_dec t' x); [|discriminate]. intros _.
  destruct (Rlt_dec t x); [reflexivity|lra].
Qed.

Lemma pc_loop_tol n mats max_iter t t' :
  (t <= t')%R ->
  forall fuel st out,
    length (pc_elems st) = length mats ->
    pc_loop fuel n mats max_iter (Fin t) st = Ok out ->
    exists out',
      pc_loop fuel n mats max_iter (Fin t') st = Ok out' /\
      pc_m out' <= pc_m out /\
      map (fun e => firstn (pc_m out') (pc_L e)) (pc_elems out')
      = map (fun e => firstn (pc_m out') (pc_L e)) (pc_elems out).
Proof.
  intros Ht. induction fuel as [|f IH]; intros st out HL H.
  - simpl in H |- *. injection H as <-. eauto.
  - pose proof (pc_loop_rows_below n mats max_iter (Fin t) (S f) st out HL H)
      as [Hle Hrows].
    cbn [pc_loop] in H |- *. unfold pc_cond in H |- *.
    destruct (pc_m st <? max_iter).
    + destruct (tmax (map pc_err (pc_elems st))) as [[v j]|]; [|discriminate].
      cbn [obind] in H |- *.
      destruct (ngtb v (Fin t')) eqn:Ec'.
      * rewrite (ngtb_mono v t t' Ht Ec') in H.
        destruct (pc_body n mats st) as [st1|] eqn:EB; [|discriminate].
        cbn [obind] in H |- *.
        apply pc_body_inv in EB. destruct EB as [E1 E2].
        apply IH; [|exact H].
        rewrite (osequence_map2_length _ _ _ _ _ _ _ E2). lia.
      * exists st. split; [reflexivity|]. split; [exact Hle|]. now rewrite Hrows.
    + cbn [obind] in H |- *. injection H as <-. eauto.
Qed.

(** X11.  The tolerance only decides where the loop stops: with a larger
    tolerance the call returns, for every batch element, the first rows of
    what it returns with the smaller one. *)
Theorem tolerance_prefix matrix max_iter t t' Ls :
  (t <= t')%R ->
  pivoted_cholesky matrix max_iter (Fin t) = Ok Ls ->
  exists m, pivoted_cholesky matrix max_iter (Fin t') = Ok (map (firstn m) Ls).
Proof.
  intros Ht H. apply pivoted_cholesky_inv in H. destruct H as (out & HR & ->).
  pose proof (pc_run_ok_nonempty _ _ _ _ HR) as Hne.
  unfold pivoted_cholesky. rewrite pc_run_nonempty in HR |- * by exact Hne.
  destruct (Z.ltb_spec (Z.min max_iter (Z.of_nat (bt_n matrix))) 0) as [H|_];
    [discriminate|].
  destruct (pc_loop_tol _ _ _ t t' Ht _
              (pc_start (bt_n matrix)
                 (Z.to_nat (Z.min max_iter (Z.of_nat (bt_n matrix)))) (bt_mats matrix))
              out (length_map _ _) HR)
    as (out' & Hout & Hm & Hrows).
  exists (pc_m out'). rewrite Hout. cbn [obind]. f_equal.
  rewrite Hrows, map_map. apply map_ext. intros e.
  rewrite firstn_firstn. f_equal. lia.
Qed.

(** ** A matrix alone and in a batch *)

Lemma nth_error_map_firstn j (es1 es2 : list pc_elem) k e1 e2 :
  map (fun e => firstn j (pc_L e)) es1 = map (fun e => firstn j (pc_L e)) es2 ->
  nth_error es1 k = Some e1 -> nth_error es2 k = Some e2 ->
  firstn j (pc_L e1) = firstn j (pc_L e2).
Proof.
  intros E H1 H2.
  apply (f_equal (fun l => nth_error l k)) in E.
  rewrite !nth_error_map, H1, H2 in E. simpl in E. now injection E.
Qed.

Lemma pc_loop_elem_total n mats max_iter tol fuel : forall st out k e,
  length (pc_elems st) = length mats ->
  pc_loop fuel n mats max_iter tol st = Ok out ->
  nth_error (pc_elems st) k = Some e ->
  exists e', nth_error (pc_elems out) k = Some e'.
Proof.
  induction fuel as [|f IH]; intros st out k e HL H He; simpl in H.
  - injection H as <-. eauto.
  - destruct (pc_cond max_iter tol st) as [[|]|]; simpl in H; try discriminate.
    + destruct (pc_body n mats st) as [st1|] eqn:EB; simpl in H; [|discriminate].
      apply pc_body_inv in EB. destruct EB as [E1 E2].
      pose proof (osequence_map2_length _ _ _ _ _ _ _ E2) as HL1.
      assert (Hk : k < length (pc_elems st1)).
      { rewrite HL1, <- HL, Nat.min_id. apply nth_error_Some. congruence. }
      destruct (nth_error (pc_elems st1) k) as [e1|] eqn:E;
        [|apply nth_error_None in E; lia].
      apply (IH st1 out k e1); auto. lia.
    + injection H as <-. eauto.
Qed.

(** The loop on one matrix and the loop on a batch that holds it make the
    same passes on it, for as long as both go on. *)
Lemma pc_loop_single n mats max_iter tol k A :
  nth_error mats k = Some A ->
  forall f1 f2 m e es out1 out2,
    length es = length mats -> nth_error es k = Some e ->
    pc_loop f1 n [A] max_iter tol {| pc_m := m; pc_elems := [e] |} = Ok out1 ->
    pc_loop f2 n mats max_iter tol {| pc_m := m; pc_elems := es |} = Ok out2 ->
    exists e1 e2,
      pc_elems out1 = [e1] /\ nth_error (pc_elems out2) k = Some e2 /\
      firstn (Nat.min (pc_m out1) (pc_m out2)) (pc_L e1)
      = firstn (Nat.min (pc_m out1) (pc_m out2)) (pc_L e2).
Proof.
  intros HA.
  assert (Stop1 : forall f2 m e es out2,
            length es = length mats -> nth_error es k = Some e ->
            pc_loop f2 n mats max_iter tol {| pc_m := m; pc_elems := es |} = Ok out2 ->
            exists e2, nth_error (pc_elems out2) k = Some e2 /\
              m <= pc_m out2 /\ firstn m (pc_L e) = firstn m (pc_L e2)).
  { intros f2 m e es out2 HL He H2.
    destruct (pc_loop_elem_total n mats max_iter tol f2
                {| pc_m := m; pc_elems := es |} out2 k e HL H2 He) as [e2 He2].
    destruct (pc_loop_rows_below n mats max_iter tol f2
                {| pc_m := m; pc_elems := es |} out2 HL H2) as [Hle Hrows].
    cbn [pc_m pc_elems] in *.
    exists e2. split; [exact He2|]. split; [exact Hle|]. symmetry.
    exact (nth_error_map_firstn m _ _ k e2 e Hrows He2 He). }
  assert (Stop2 : forall f1 m e out1,
            pc_loop f1 n [A] max_iter tol {| pc_m := m; pc_elems := [e] |} = Ok out1 ->
            exists e1, pc_elems out1 = [e1] /\
              m <= pc_m out1 /\ firstn m (pc_L e1) = firstn m (pc_L e)).
  { intros f1 m e out1 H1.
    destruct (pc_loop_elem_total n [A] max_iter tol f1
                {| pc_m := m; pc_elems := [e] |} out1 0 e eq_refl H1 eq_refl)
      as [e1 He1].
    destruct (pc_loop_rows_below n [A] max_iter tol f1
                {| pc_m := m; pc_elems := [e] |} out1 eq_refl H1) as [Hle Hrows].
    cbn [pc_m pc_elems] in *.
    assert (HL1 : length (pc_elems out1) = 1).
    { apply (f_equal (@length _)) in Hrows. now rewrite !length_map in Hrows. }
    destruct (pc_elems out1) as [|x [|y l]]; try discriminate.
    simpl in He1. injection He1 as ->.
    exists e1. split; [reflexivity|]. split; [exact Hle|].
    simpl in Hrows. now injection Hrows. }
  induction f1 as [|f1 IH]; intros f2 m e es out1 out2 HL He H1 H2.
  - simpl in H1. injection H1 as <-. cbn [pc_m pc_elems].
    destruct (Stop1 f2 m e es out2 HL He H2) as (e2 & He2 & Hle & Hrows).
    exists e, e2. split; [reflexivity|]. split; [exact He2|].
    now rewrite Nat.min_l by assumption.
  - assert (Here : forall out, out = {| pc_m := m; pc_elems := [e] |} ->
              out1 = out ->
              exists e1 e2,
                pc_elems out1 = [e1] /\ nth_error (pc_elems out2) k = Some e2 /\
                firstn (Nat.min (pc_m out1) (pc_m out2)) (pc_L e1)
                = firstn (Nat.min (pc_m out1) (pc_m out2)) (pc_L e2)).
    { intros out -> ->. cbn [pc_m pc_elems].
      destruct (Stop1 f2 m e es out2 HL He H2) as (e2 & He2 & Hle & Hrows).
      exists e, e2. split; [reflexivity|]. split; [exact He2|].
      now rewrite Nat.min_l by assumption. }
    assert (There : forall out, out = {| pc_m := m; pc_elems := es |} ->
              out2 = out ->
              exists e1 e2,
                pc_elems out1 = [e1] /\ nth_error (pc_elems out2) k = Some e2 /\
                firstn (Nat.min (pc_m out1) (pc_m out2)) (pc_L e1)
                = firstn (Nat.min (pc_m out1) (pc_m out2)) (pc_L e2)).
    { intros out -> ->. cbn [pc_m pc_elems].
      destruct (Stop2 (S f1) m e out1 H1) as (e1 & He1 & Hle & Hrows).
      exists e1, e. split; [exact He1|]. split; [exact He|].
      now rewrite Nat.min_r by assumption. }
    pose proof H1 as H1'. pose proof H2 as H2'.
    cbn [pc_loop] in H1. unfold pc_cond in H1. cbn [pc_m pc_elems map tmax tmax_from] in H1.
    destruct (m <? max_iter) eqn:Em; cbn [obind] in H1;
      [|injection H1 as H1; symmetry in H1; now apply (Here _ eq_refl)].
    destruct (ngtb (pc_err e) tol); cbn [obind] in H1;
      [|injection H1 as H1; symmetry in H1; now apply (Here _ eq_refl)].
    unfold pc_body in H1. cbn [pc_m pc_elems map2 osequence] in H1.
    destruct (pc_step n A m e) as [e'|] eqn:Es; cbn [obind] in H1; [|discriminate].
    destruct f2 as [|f2];
      [simpl in H2; injection H2 as H2; symmetry in H2; now apply (There _ eq_refl)|].
    cbn [pc_loop] in H2. unfold pc_cond in H2. cbn [pc_m pc_elems] in H2.
    rewrite Em in H2.
    destruct (tmax (map pc_err es)) as [[v j]|]; [|discriminate].
    cbn [obind] in H2.
    destruct (ngtb v tol); cbn [obind] in H2;
      [|injection H2 as H2; symmetry in H2; now apply (There _ eq_refl)].
    destruct (pc_body n mats {| pc_m := m; pc_elems := es |}) as [st2|] eqn:EB;
      cbn [obind] in H2; [|discriminate].
    apply pc_body_inv in EB. cbn [pc_m pc_elems] in EB. destruct EB as [E1 E2].
    pose proof (osequence_map2_length _ _ _ _ _ _ _ E2) as HL2.
    assert (Hk : k < length (pc_elems st2)).
    { rewrite HL2, <- HL, Nat.min_id. apply nth_error_Some. congruence. }
    destruct (nth_error (pc_elems st2) k) as [e''|] eqn:E;
      [|apply nth_error_None in E; lia].
    destruct (osequence_map2_nth _ _ _ _ _ _ _ E2 _ _ E) as (a & b & Ha & Hb & Hs).
    rewrite HA in Ha. injection Ha as <-. rewrite He in Hb. injection Hb as <-.
    rewrite Es in Hs. injection Hs as <-.
    destruct st2 as [m2 es2]. cbn [pc_m pc_elems] in *. subst m2.
    apply (IH f2 (m + 1) e' es2 out1 out2); auto. lia.
Qed.

(** X12.  Batching changes how many rows are computed, never what they are:
    the factor of a matrix computed alone and the factor of the same matrix
    computed within a batch, with the same [max_iter] and [error_tol], agree
    on their common rows, so that one is the first rows of the other. *)
Theorem batch_agrees_with_single matrix k A max_iter tol Ls L1 :
  nth_error (bt_mats matrix) k = Some A ->
  pivoted_cholesky matrix max_iter tol = Ok Ls ->
  pivoted_cholesky {| bt_n := bt_n matrix; bt_mats := [A] |} max_iter tol
    = Ok [L1] ->
  exists Lk m,
    nth_error Ls k = Some Lk /\ (L1 = firstn m Lk \/ Lk = firstn m L1).
Proof.
  intros HA H2 H1.
  apply pivoted_cholesky_inv in H1, H2.
  destruct H1 as (out1 & HR1 & E1). destruct H2 as (out2 & HR2 & ->).
  pose proof (pc_run_ok_nonempty _ _ _ _ HR2) as Hne.
  rewrite pc_run_nonempty in HR1 by discriminate.
  rewrite pc_run_nonempty in HR2 by exact Hne. cbn [bt_n bt_mats] in HR1.
  destruct (Z.ltb_spec (Z.min max_iter (Z.of_nat (bt_n matrix))) 0) as [H|_];
    [discriminate|].
  unfold pc_start in HR1, HR2. cbn [map] in HR1.
  set (n := bt_n matrix) in *. set (mats := bt_mats matrix) in *.
  set (mi := Z.to_nat (Z.min max_iter (Z.of_nat n))) in *.
  assert (He0 : nth_error (map (pc_init n mi) mats) k = Some (pc_init n mi A))
    by (rewrite nth_error_map, HA; reflexivity).
  destruct (pc_loop_single n mats mi tol k A HA mi mi 0 (pc_init n mi A)
              (map (pc_init n mi) mats) out1 out2 (length_map _ _) He0 HR1 HR2)
    as (e1 & e2 & He1 & He2 & Hrows).
  rewrite He1 in E1. cbn [map] in E1. injection E1 as ->.
  exists (firstn (pc_m out2) (pc_L e2)), (Nat.min (pc_m out1) (pc_m out2)).
  split.
  - rewrite nth_error_map, He2. reflexivity.
  - destruct (Nat.le_ge_cases (pc_m out1) (pc_m out2)) as [Hle|Hge].
    + left. rewrite firstn_firstn.
      replace (Nat.min (Nat.min (pc_m out1) (pc_m out2)) (pc_m out2))
        with (Nat.min (pc_m out1) (pc_m out2)) by lia.
      rewrite <- Hrows. f_equal. lia.
    + right. rewrite firstn_firstn.
      replace (Nat.min (Nat.min (pc_m out1) (pc_m out2)) (pc_m out1))
        with (Nat.min (pc_m out1) (pc_m out2)) by lia.
      rewrite Hrows. f_equal. lia.
Qed.

Local Open Scope R_scope.

(** ** Positive shifts *)

Lemma Rsum_nonneg n f : (forall i, (i < n)%nat -> 0 <= f i) -> 0 <= Rsum n f.
Proof.
  induction n as [|n IH]; intros H; simpl; [lra|].
  pose proof (IH ltac:(intros; apply H; lia)). pose proof (H n ltac:(lia)). lra.
Qed.

Lemma Rsum_squares_pos k (x : nat -> R) :
  (exists a, (a < k)%nat /\ x a <> 0) -> 0 < Rsum k (fun a => x a * x a).
Proof.
  induction k as [|k IH]; intros (a & Ha & Hx); [lia|]. simpl.
  destruct (Nat.eq_dec a k) as [->|Hne].
  - pose proof (Rsum_nonneg k (fun a => x a * x a)
                  ltac:(intros; apply Rle_0_sqr)).
    assert (0 < x k * x k) by (destruct (Rtotal_order (x k) 0) as [|[|]]; nra).
    lra.
  - pose proof (IH ltac:(exists a; split; [lia|assumption])).
    pose proof (Rle_0_sqr (x k)) as Hs. unfold Rsqr in Hs. lra.
Qed.

(** The form of [M] as a sum of squares. *)
Lemma qform_wb_M V shift k x :
  qform k (wb_M V shift) x =
  Rsum (length shift)
    (fun j => wb_inv shift j
              * (Rsum k (fun a => x a * entR V a j) * Rsum k (fun a => x a * entR V a j)))
  + Rsum k (fun a => x a * x a) / wb_scale shift.
Proof.
  unfold qform, wb_M. set (n := length shift). set (s := wb_scale shift).
  rewrite (Rsum_ext k _ (fun a =>
     Rsum n (fun j => wb_inv shift j * (x a * entR V a j)
                      * Rsum k (fun c => x c * entR V c j))
     + x a * x a / s)).
  - rewrite Rsum_plus. f_equal.
    + rewrite Rsum_swap. apply Rsum_ext. intros j _.
      rewrite <- Rsum_scal_r, <- Rsum_scal. apply Rsum_ext. intros a _. lra.
    + unfold Rdiv. now rewrite Rsum_scal_r.
  - intros a Ha.
    rewrite (Rsum_ext k _ (fun c =>
       Rsum n (fun j => wb_inv shift j * (x a * entR V a j) * (x c * entR V c j))
       + (if (a =? c)%nat then 1 else 0) * (x a * x c / s))).
    + rewrite Rsum_plus, (Rsum_delta_l k a (fun c => x a * x c / s) Ha). f_equal.
      rewrite Rsum_swap. apply Rsum_ext. intros j _. now rewrite Rsum_scal.
    + intros c _. rewrite Rmult_plus_distr_l, Rmult_plus_distr_r. f_equal.
      * rewrite <- Rsum_scal, <- Rsum_scal_r. apply Rsum_ext. intros j _. lra.
      * unfold Rdiv. lra.
Qed.

Lemma wb_M_pd_positive V shift :
  shift <> [] -> Forall (fun s => 0 < s) shift -> pd (length V) (wb_M V shift).
Proof.
  intros Hne Hpos x Hx.
  assert (Hnz : Forall (fun s => s <> 0) shift).
  { eapply Forall_impl; [|exact Hpos]. intros s Hs. simpl in Hs. lra. }
  pose proof (wb_scale_pos shift Hne Hnz) as Hs.
  rewrite qform_wb_M.
  assert (H1 : 0 <= Rsum (length shift)
            (fun j => wb_inv shift j
               * (Rsum (length V) (fun a => x a * entR V a j)
                  * Rsum (length V) (fun a => x a * entR V a j)))).
  { apply Rsum_nonneg. intros j Hj. apply Rmult_le_pos; [|apply Rle_0_sqr].
    unfold wb_inv. rewrite Forall_forall in Hpos.
    pose proof (Hpos (nth j shift 0) (nth_In _ _ Hj)) as Hj0.
    left. apply Rdiv_lt_0_compat; [|assumption].
    apply Rdiv_lt_0_compat; [lra|assumption]. }
  pose proof (Rsum_squares_pos (length V) x Hx) as H2.
  assert (0 < Rsum (length V) (fun a => x a * x a) / wb_scale shift)
    by now apply Rdiv_lt_0_compat.
  lra.
Qed.

(** X13.  With positive shifts (a diagonal of variances) the matrix that
    [woodbury_factor] factors is always positive definite: the two functions
    never raise, and [woodbury_solve] on the factor that [woodbury_factor]
    returns gives the solution [x] of [(diag(shift) + V' V) x = b], for every
    real [k x n] matrix [V] and every right-hand side [b]. *)
Theorem woodbury_positive_shift (h : heap) rb rV rs half V shift b :
  Forall (fun r => length r = length shift) V ->
  shift <> [] -> Forall (fun s => 0 < s) shift ->
  length b = length shift ->
  nth_error h rb = Some (T1 (map Fin b)) ->
  nth_error h rV = Some (T2 (length shift) (emb V)) ->
  nth_error h rs = Some (T1 (map Fin shift)) ->
  exists rR h1 rx h2 x,
    woodbury_factor rV rs half h = Ok (rR, h1) /\
    woodbury_solve rb rV rR rs h1 = Ok (rx, h2) /\
    nth_error h2 rx = Some (T1 (map Fin x)) /\
    length x = length shift /\
    forall i, (i < length shift)%nat -> wb_apply V shift x i = nth i b 0.
Proof.
  intros HR Hne Hpos Hb Hrb HV Hs.
  assert (Hnz : Forall (fun s => s <> 0) shift).
  { eapply Forall_impl; [|exact Hpos]. intros s Hs'. simpl in Hs'. lra. }
  pose proof (wb_M_pd_positive V shift Hne Hpos) as HP.
  destruct (woodbury_compose_run h rb rV rs half V shift b HR Hne Hnz Hb Hrb HV Hs HP)
    as (rR & h1 & rx & h2 & E1 & E2 & Hx).
  exists rR, h1, rx, h2.
  exists (tab (length shift)
            (wb_x V shift b (potrs_fun (length V) (wb_M V shift) (entR V)))).
  split; [exact E1|]. split; [exact E2|]. split; [|split].
  - rewrite Hx. unfold vecF. now rewrite map_tab.
  - apply tab_length.
  - intros i Hi. now apply wb_x_solves.
Qed.

(** ** [woodbury_solve] on a factor that the caller holds *)

(** X14.  [woodbury_solve] asks one thing of its third argument: for every
    real [k x n] matrix [R] with [M R = V], wherever it comes from, the call
    returns the solution [x] of [(diag(shift) + V' V) x = b]. *)
Theorem woodbury_solve_given_factor (h : heap) rb rV rR rs V shift b Rm :
  Forall (fun r => length r = length shift) V ->
  shift <> [] -> Forall (fun s => s <> 0) shift ->
  length b = length shift ->
  length Rm = length V -> Forall (fun r => length r = length shift) Rm ->
  nth_error h rb = Some (T1 (map Fin b)) ->
  nth_error h rV = Some (T2 (length shift) (emb V)) ->
  nth_error h rR = Some (T2 (length shift) (emb Rm)) ->
  nth_error h rs = Some (T1 (map Fin shift)) ->
  (forall a j, (a < length V)%nat -> (j < length shift)%nat ->
     Rsum (length V) (fun c => wb_M V shift a c * entR Rm c j) = entR V a j) ->
  exists rx h' x,
    woodbury_solve rb rV rR rs h = Ok (rx, h') /\
    nth_error h' rx = Some (T1 (map Fin x)) /\
    length x = length shift /\
    forall i, (i < length shift)%nat -> wb_apply V shift x i = nth i b 0.
Proof.
  intros HR Hne Hnz Hb HRl HRr Hrb HV HrR Hs HMR.
  rewrite (emb_matF (length V) (length shift) Rm HRl HRr) in HrR.
  destruct (woodbury_solve_run h rb rV rR rs V shift b (entR Rm) HR Hne Hnz Hb
              Hrb HV HrR Hs) as (rx & h' & E & Hx).
  exists rx, h', (tab (length shift) (wb_x V shift b (entR Rm))).
  split; [exact E|]. split; [|split].
  - rewrite Hx. unfold vecF. now rewrite map_tab.
  - apply tab_length.
  - intros i Hi. unfold wb_apply. rewrite (nth_tab _ _ _ i 0 Hi).
    rewrite (Rsum_ext (length V) _ (fun a => entR V a i *
               Rsum (length shift) (fun j => entR V a j * wb_x V shift b (entR Rm) j))).
    + apply (woodbury_identity (length shift) (length V) (entR V) (entR Rm)
               (fun j => nth j shift 0) (fun j => nth j b 0) (wb_scale shift)).
      * now apply wb_scale_pos.
      * intros j Hj. rewrite Forall_forall in Hnz. apply Hnz, nth_In, Hj.
      * exact HMR.
      * exact Hi.
    + intros a Ha. f_equal. apply Rsum_ext. intros j Hj.
      now rewrite (nth_tab _ _ _ j 0 Hj).
Qed.

(** ** [woodbury_solve] on a matrix of right-hand sides *)

Lemma nth_wb_col B j i :
  (i < length B)%nat -> nth i (wb_col B j) 0 = entR B i j.
Proof.
  intros H. unfold wb_col, entR.
  now rewrite (nth_map_in _ _ (fun row => nth j row 0) B i 0 [] H).
Qed.

Lemma matF_ext r c g1 g2 :
  (forall i j, (i < r)%nat -> (j < c)%nat -> g1 i j = g2 i j) ->
  matF r c g1 = matF r c g2.
Proof. intros H. unfold matF. f_equal. now apply rowsF_ext. Qed.

(** [woodbury_solve] on an [n x t] matrix and a real factor: the branch
    [vector.ndimension() > 1]. *)
Lemma woodbury_solve_run_mat (h : heap) rB rV rR rs V shift B t X :
  Forall (fun r => length r = length shift) V ->
  shift <> [] -> Forall (fun s => s <> 0) shift ->
  length B = length shift -> Forall (fun r => length r = t) B ->
  nth_error h rB = Some (T2 t (emb B)) ->
  nth_error h rV = Some (T2 (length shift) (emb V)) ->
  nth_error h rR = Some (matF (length V) (length shift) X) ->
  nth_error h rs = Some (T1 (map Fin shift)) ->
  exists r h',
    woodbury_solve rB rV rR rs h = Ok (r, h') /\
    nth_error h' r =
      Some (matF (length shift) t (fun i j => wb_x V shift (wb_col B j) X i)).
Proof.
  intros HR Hne Hnz HB HBt HrB HV HX Hs.
  pose proof (wb_scale_pos shift Hne Hnz) as Hpos.
  set (n := length shift) in *. set (k := length V) in *.
  rewrite (emb_matF k n V eq_refl HR) in HV.
  rewrite (emb_matF n t B HB HBt) in HrB.
  unfold woodbury_solve.
  match goal with
  | |- exists r h', bind (reciprocal _) (fun i => bind (tabs i) (fun a =>
         bind (tmaxall a) (fun s => bind (tdiv i s) (fun i' => @?K i' s)))) _ = _ /\ _ =>
      destruct (scale_run shift h rs _ K Hne Hnz Hs) as (h1 & ri & rc & Hfr & Hi & Hc & ->)
  end.
  fold n in Hi. apply Hfr in HV, HX, HrB. clear Hfr Hs h.
  unfold unsqueeze, transpose, tmul, matmul, tsub.
  do 2 eexists.
  erewrite bind_run; cycle 1.
  { eapply ndimension_run. eassumption. }
  cbn [rank matF Nat.ltb Nat.leb].
  erewrite bind_run; cycle 1.
  { eapply op1_run; [lookup|apply t_unsqueeze_vecF]. }
  erewrite bind_run; cycle 1.
  { eapply op2_run; [lookup|lookup|].
    apply (t_bop_col_mat nmul Rmult). reflexivity. }
  erewrite bind_run; cycle 1.
  { eapply op1_run; [lookup|apply t_transpose_matF]. }
  erewrite bind_run; cycle 1.
  { eapply op2_run; [lookup|lookup|apply t_matmul_matF]. }
  erewrite bind_run; cycle 1.
  { eapply op2_run; [lookup|lookup|apply t_matmul_matF]. }
  erewrite bind_run; cycle 1.
  { eapply op2_run; [lookup|lookup|].
    apply (t_bop_col_mat nmul Rmult). reflexivity. }
  erewrite bind_run; cycle 1.
  { eapply op2_run; [lookup|lookup|].
    apply (t_bop_mat_mat nsub Rminus). reflexivity. }
  split.
  - eapply op2_run; [lookup|lookup|].
    apply (t_bop_mat_scalar nmul Rmult). reflexivity.
  - rewrite nth_error_snoc_new. f_equal. apply matF_ext. intros i j Hi' Hj.
    unfold wb_x. fold n k. rewrite nth_wb_col by (rewrite HB; exact Hi').
    f_equal. f_equal. f_equal. apply Rsum_ext. intros l Hl.
    rewrite nth_wb_col by (rewrite HB; exact Hl). reflexivity.
Qed.

(** X15.  For an [n x t] matrix [B] of right-hand sides, [woodbury_solve] on
    the factor that [woodbury_factor] returns gives an [n x t] matrix [X] with
    [(diag(shift) + V' V) X = B], column by column. *)
Theorem woodbury_solve_matrix_rhs (h : heap) rB rV rs half V shift B t :
  Forall (fun r => length r = length shift) V ->
  shift <> [] -> Forall (fun s => s <> 0) shift ->
  length B = length shift -> Forall (fun r => length r = t) B ->
  nth_error h rB = Some (T2 t (emb B)) ->
  nth_error h rV = Some (T2 (length shift) (emb V)) ->
  nth_error h rs = Some (T1 (map Fin shift)) ->
  pd (length V) (wb_M V shift) ->
  exists rR h1 rx h2 X,
    woodbury_factor rV rs half h = Ok (rR, h1) /\
    woodbury_solve rB rV rR rs h1 = Ok (rx, h2) /\
    nth_error h2 rx = Some (T2 t (emb X)) /\
    length X = length shift /\
    Forall (fun r => length r = t) X /\
    forall i j, (i < length shift)%nat -> (j < t)%nat ->
      wb_apply V shift (wb_col X j) i = entR B i j.
Proof.
  intros HR Hne Hnz HB HBt HrB HV Hs HP.
  destruct (woodbury_factor_run h rV rs half (length V) V shift eq_refl HR Hne Hnz HV Hs HP)
    as (rR & h1 & E1 & HX).
  pose proof (extends_woodbury_factor rV rs half) as Hext.
  destruct (woodbury_solve_run_mat h1 rB rV rR rs V shift B t _ HR Hne Hnz HB HBt
              (extends_frame _ _ _ _ _ _ _ Hext E1 HrB)
              (extends_frame _ _ _ _ _ _ _ Hext E1 HV) HX
              (extends_frame _ _ _ _ _ _ _ Hext E1 Hs))
    as (rx & h2 & E2 & Hx).
  set (Xp := potrs_fun (length V) (wb_M V shift) (entR V)) in *.
  exists rR, h1, rx, h2.
  exists (tab (length shift) (fun i => tab t (fun j => wb_x V shift (wb_col B j) Xp i))).
  split; [exact E1|]. split; [exact E2|]. split; [|split; [|split]].
  - rewrite Hx. unfold matF. now rewrite emb_tab.
  - apply tab_length.
  - apply Forall_forall. intros row Hrow. unfold tab in Hrow.
    apply in_map_iff in Hrow. destruct Hrow as (i & <- & _). apply tab_length.
  - intros i j Hi Hj.
    assert (Ecol : wb_col (tab (length shift)
                     (fun i => tab t (fun j => wb_x V shift (wb_col B j) Xp i))) j
                   = tab (length shift) (wb_x V shift (wb_col B j) Xp)).
    { unfold wb_col. rewrite map_tab. apply tab_ext. intros a Ha.
      now rewrite nth_tab. }
    rewrite Ecol. unfold Xp. rewrite wb_x_solves by assumption.
    apply nth_wb_col. rewrite HB. exact Hi.
Qed.

(** ** The difference that [woodbury_factor] prints *)

Lemma nsum_zeros l :
  Forall (fun x => exists y, x = Fin y /\ y = 0) l -> nsum l = Fin 0.
Proof.
  induction 1 as [|x l (y & -> & ->) _ IH]; [reflexivity|].
  simpl. change (fold_right nadd (Fin 0) l) with (nsum l). rewrite IH.
  simpl. f_equal. lra.
Qed.

Lemma t_norm_zero r c g :
  (forall i j, (i < r)%nat -> (j < c)%nat -> g i j = 0) ->
  t_norm (matF r c g) = T0 (Fin 0).
Proof.
  intros H. unfold t_norm, matF. f_equal.
  rewrite nsum_zeros.
  - simpl. destruct (Rlt_dec 0 0); [lra|]. now rewrite sqrt_0.
  - apply Forall_forall. intros x Hx. apply in_map_iff in Hx.
    destruct Hx as (y & <- & Hy). apply in_concat in Hy.
    destruct Hy as (row & Hrow & Hy). unfold rowsF, tab in Hrow.
    apply in_map_iff in Hrow. destruct Hrow as (i & <- & Hi).
    apply in_map_iff in Hy. destruct Hy as (j & <- & Hj).
    apply in_seq in Hi, Hj. rewrite H by lia.
    exists (0 * 0). split; [reflexivity|lra].
Qed.

(** X16.  On its main branch [woodbury_factor] computes the norm of
    [shifted_mat @ R - low_rank_mat] to print it (line 119). It is the last
    tensor that the call allocates, and in exact arithmetic, for a positive
    definite [M], it is zero. *)
Theorem woodbury_factor_prints_zero (h : heap) rV rs V shift :
  Forall (fun r => length r = length shift) V ->
  shift <> [] -> Forall (fun s => s <> 0) shift ->
  nth_error h rV = Some (T2 (length shift) (emb V)) ->
  nth_error h rs = Some (T1 (map Fin shift)) ->
  pd (length V) (wb_M V shift) ->
  exists r h0,
    woodbury_factor rV rs false h = Ok (r, h0 ++ [T0 (Fin 0)]).
Proof.
  intros HR Hne Hnz HV Hs HP.
  pose proof (wb_scale_pos shift Hne Hnz) as Hpos.
  set (k := length V) in *.
  pose proof (wb_M_sym V shift k) as HS.
  set (n := length shift) in *.
  rewrite (emb_matF k n V eq_refl HR) in HV.
  unfold woodbury_factor.
  erewrite bind_run; cycle 1.
  { eapply size_rows_run; [eassumption|apply t_size_rows_matF]. }
  match goal with
  | |- exists r h', bind (reciprocal _) (fun i => bind (tabs i) (fun a =>
         bind (tmaxall a) (fun s => bind (tdiv i s) (fun i' => @?K i' s)))) _ = _ =>
      destruct (scale_run shift h rs _ K Hne Hnz Hs) as (h1 & ri & rc & Hfr & Hi & Hc & ->)
  end.
  fold n in Hi. apply Hfr in HV. clear Hfr Hs h.
  unfold unsqueeze, transpose, tmul, matmul, eye, tdiv, tadd, tcopy, cholesky,
    potrs, tsub, tnorm.
  set (v12 := matF k k (chol_fun k (wb_M V shift))).
  set (v13 := matF k n (potrs_fun k (wb_M V shift) (entR V))).
  do 2 eexists.
  factor_prefix.
  erewrite bind_run; cycle 1.
  { eapply op1_run with (v := v12); [lookup|]. now apply t_cholesky_matF. }
  erewrite bind_run; cycle 1.
  { eapply op2_run with (v := v13); [lookup|lookup|]. now apply t_potrs_matF. }
  erewrite bind_run; cycle 1.
  { eapply op2_run; [lookup|lookup|]. apply t_matmul_matF. }
  erewrite bind_run; cycle 1.
  { eapply op2_run; [lookup|lookup|].
    apply (t_bop_mat_mat nsub Rminus). reflexivity. }
  erewrite bind_run; cycle 1.
  { eapply op1_run with (v := T0 (Fin 0)); [lookup|]. f_equal.
    apply t_norm_zero. intros a j Ha Hj.
    change (Rsum k (fun c => wb_M V shift a c
                             * potrs_fun k (wb_M V shift) (entR V) c j)
            - entR V a j = 0).
    rewrite (potrs_fun_solves k (wb_M V shift) (entR V) a j HS HP Ha). lra. }
  reflexivity.
Qed.

Local Close Scope R_scope.

(** ** Where the Woodbury functions raise *)

Lemma bind_raise (A B : Type) (c : M A) (K : A -> M B) h e :
  c h = Raise e -> bind c K h = Raise e.
Proof. intros H. unfold bind. now rewrite H. Qed.

Lemma op1_raise f r t e (h : heap) :
  nth_error h r = Some t -> f t = Raise e -> op1 f r h = Raise e.
Proof. intros H1 H2. unfold op1, bind, load, lift. now rewrite H1, H2. Qed.

Lemma op2_raise f r1 r2 t1 t2 e (h : heap) :
  nth_error h r1 = Some t1 -> nth_error h r2 = Some t2 -> f t1 t2 = Raise e ->
  op2 f r1 r2 h = Raise e.
Proof.
  intros H1 H2 H3. unfold op2, bind, load, lift. now rewrite H1, H2, H3.
Qed.

(** X17.  With a shift that has no entries, both functions raise where they
    take the maximum of [|1 / shift|]. *)
Theorem empty_shift_raises (h : heap) vector low_rank_mat factor shift half nc rows :
  nth_error h shift = Some (T1 []) ->
  nth_error h low_rank_mat = Some (T2 nc rows) ->
  woodbury_factor low_rank_mat shift half h = Raise EmptyReduction /\
  woodbury_solve vector low_rank_mat factor shift h = Raise EmptyReduction.
Proof.
  intros Hs HV.
  assert (E : forall (B : Type) (K : ref -> ref -> M B),
            (inv_shift <- reciprocal shift ;;
             a <- tabs inv_shift ;;
             scale <- tmaxall a ;;
             inv_shift <- tdiv inv_shift scale ;;
             K inv_shift scale) h = Raise EmptyReduction).
  { intros B K. unfold reciprocal, tabs, tmaxall.
    erewrite bind_run; cycle 1.
    { eapply op1_run; [eassumption|reflexivity]. }
    erewrite bind_run; cycle 1.
    { eapply op1_run; [lookup|reflexivity]. }
    apply bind_raise. eapply op1_raise; [lookup|reflexivity]. }
  split.
  - unfold woodbury_factor.
    erewrite bind_run; cycle 1.
    { eapply size_rows_run; [eassumption|reflexivity]. }
    apply E.
  - unfold woodbury_solve. apply E.
Qed.

Lemma bdim_none a b : a <> b -> a <> 1 -> b <> 1 -> bdim a b = None.
Proof.
  intros H1 H2 H3. unfold bdim.
  destruct (Nat.eqb_spec a b); [contradiction|].
  destruct (Nat.eqb_spec a 1); [contradiction|].
  destruct (Nat.eqb_spec b 1); [contradiction|reflexivity].
Qed.

(** X18.  A right-hand side whose length is neither that of the shift nor 1
    does not broadcast against [inv_shift]: [woodbury_solve] raises at its
    first product, whatever the other two arguments are. *)
Theorem woodbury_solve_length_mismatch (h : heap) rb rV rR rs shift b :
  shift <> [] -> Forall (fun s => s <> 0%R) shift ->
  nth_error h rs = Some (T1 (map Fin shift)) ->
  nth_error h rb = Some (T1 b) ->
  length b <> length shift -> length b <> 1 -> length shift <> 1 ->
  woodbury_solve rb rV rR rs h = Raise ShapeMismatch.
Proof.
  intros Hne Hnz Hs Hb H1 H2 H3. unfold woodbury_solve.
  match goal with
  | |- bind (reciprocal _) (fun i => bind (tabs i) (fun a =>
         bind (tmaxall a) (fun s => bind (tdiv i s) (fun i' => @?K i' s)))) _ = _ =>
      destruct (scale_run shift h rs _ K Hne Hnz Hs) as (h1 & ri & rc & Hfr & Hi & Hc & ->)
  end.
  apply Hfr in Hb.
  erewrite bind_run; cycle 1.
  { eapply ndimension_run. eassumption. }
  cbn [rank Nat.ltb Nat.leb].
  erewrite bind_run; cycle 1.
  { reflexivity. }
  apply bind_raise. unfold tmul. eapply op2_raise; [eassumption|eassumption|].
  unfold t_bop, vecF. cbn [shape2]. rewrite tab_length.
  rewrite (bdim_none (length shift) (length b)) by auto.
  now destruct (bdim 1 1).
Qed.

(** X19.  A matrix whose number of columns is not the length of the shift (a
    shift of one entry apart, which broadcasts) makes [woodbury_factor] raise:
    at the product with [inv_shift], or at the matrix product that follows
    it. *)
Theorem woodbury_factor_width_mismatch (h : heap) rV rs half shift c rows :
  shift <> [] -> Forall (fun s => s <> 0%R) shift ->
  nth_error h rs = Some (T1 (map Fin shift)) ->
  nth_error h rV = Some (T2 c rows) ->
  c <> length shift -> length shift <> 1 ->
  woodbury_factor rV rs half h = Raise ShapeMismatch.
Proof.
  intros Hne Hnz Hs HV H1 H2. unfold woodbury_factor.
  erewrite bind_run; cycle 1.
  { eapply size_rows_run; [eassumption|reflexivity]. }
  match goal with
  | |- bind (reciprocal _) (fun i => bind (tabs i) (fun a =>
         bind (tmaxall a) (fun s => bind (tdiv i s) (fun i' => @?K i' s)))) _ = _ =>
      destruct (scale_run shift h rs _ K Hne Hnz Hs) as (h1 & ri & rc & Hfr & Hi & Hc & ->)
  end.
  apply Hfr in HV.
  unfold unsqueeze, transpose, tmul, matmul.
  erewrite bind_run; cycle 1.
  { eapply op1_run; [lookup|apply t_unsqueeze_vecF]. }
  erewrite bind_run; cycle 1.
  { eapply op1_run; [lookup|reflexivity]. }
  destruct (Nat.eq_dec c 1) as [->|Hc1].
  - erewrite bind_run; cycle 1.
    { eapply op2_run; [lookup|lookup|].
      unfold t_bop, matF. cbn [shape2]. rewrite rowsF_length, !tab_length.
      assert (E1 : bdim (length shift) 1 = Some (length shift)).
      { unfold bdim. destruct (Nat.eqb_spec (length shift) 1); [contradiction|].
        reflexivity. }
      assert (E2 : bdim 1 (length rows) = Some (length rows)).
      { unfold bdim. destruct (Nat.eqb_spec 1 (length rows)) as [<-|]; reflexivity. }
      rewrite E1, E2. reflexivity. }
    apply bind_raise. eapply op2_raise; [lookup|lookup|].
    cbn [rank Nat.max mk_tensor t_matmul]. rewrite tab_length.
    destruct (Nat.eqb_spec 1 (length shift)); [congruence|reflexivity].
  - apply bind_raise. eapply op2_raise; [lookup|lookup|].
    unfold t_bop, matF. cbn [shape2]. rewrite rowsF_length, !tab_length.
    rewrite (bdim_none (length shift) c) by auto. reflexivity.
Qed.

(** ** What the Woodbury functions return is a tensor of their own *)

Lemma bind_inv (A B : Type) (c : M A) (K : A -> M B) h b h' :
  bind c K h = Ok (b, h') ->
  exists a h1, c h = Ok (a, h1) /\ K a h1 = Ok (b, h').
Proof.
  unfold bind. destruct (c h) as [[a h1]|]; [|discriminate]. eauto.
Qed.

Lemma op1_inv f r (h : heap) a h1 :
  op1 f r h = Ok (a, h1) -> a = length h /\ length h1 = S (length h).
Proof.
  unfold op1, bind, load, lift, alloc.
  destruct (nth_error h r); [|discriminate]. destruct (f t); [|discriminate].
  intros H; injection H as <- <-. rewrite length_app. simpl. lia.
Qed.

Lemma op2_inv f r1 r2 (h : heap) a h1 :
  op2 f r1 r2 h = Ok (a, h1) -> a = length h /\ length h1 = S (length h).
Proof.
  unfold op2, bind, load, lift, alloc.
  destruct (nth_error h r1); [|discriminate].
  destruct (nth_error h r2); [|discriminate].
  destruct (f t t0); [|discriminate].
  intros H; injection H as <- <-. rewrite length_app. simpl. lia.
Qed.

Lemma size_rows_inv r (h : heap) k h1 : size_rows r h = Ok (k, h1) -> h1 = h.
Proof.
  unfold size_rows, bind, load, lift.
  destruct (nth_error h r); [|discriminate]. destruct (t_size_rows t); [|discriminate].
  intros H; now injection H as _ <-.
Qed.

Lemma ndimension_inv r (h : heap) k h1 : ndimension r h = Ok (k, h1) -> h1 = h.
Proof.
  unfold ndimension, bind, load, ret.
  destruct (nth_error h r); [|discriminate].
  intros H; now injection H as _ <-.
Qed.

Lemma eye_inv k (h : heap) a h1 :
  eye k h = Ok (a, h1) -> a = length h /\ length h1 = S (length h).
Proof.
  unfold eye, alloc. intros H; injection H as <- <-. rewrite length_app. simpl. lia.
Qed.

Ltac step_inv H :=
  let a := fresh "a" in let h1 := fresh "h" in let E := fresh "E" in
  apply bind_inv in H; destruct H as (a & h1 & E & H);
  first [ apply op1_inv in E | apply op2_inv in E | apply eye_inv in E
        | apply size_rows_inv in E | apply ndimension_inv in E ].

(** X20.  Every call that returns gives back a reference to a tensor that was
    not in the store before the call: neither function returns one of its
    arguments, or any other tensor of the caller. *)
Theorem woodbury_results_are_new h vector V R shift half :
  (forall r h', woodbury_factor V shift half h = Ok (r, h') ->
     length h <= r < length h') /\
  (forall r h', woodbury_solve vector V R shift h = Ok (r, h') ->
     length h <= r < length h').
Proof.
  split; intros r h' H.
  - unfold woodbury_factor, reciprocal, tabs, tmaxall, tdiv, unsqueeze, transpose,
      tmul, matmul, tadd, tcopy, cholesky, potrs, tsub, tnorm in H.
    do 12 step_inv H. destruct half.
    + do 4 step_inv H. apply op1_inv in H. subst. lia.
    + do 5 step_inv H. unfold ret in H. injection H as <- <-. subst. lia.
  - unfold woodbury_solve, reciprocal, tabs, tmaxall, tdiv, unsqueeze, transpose,
      tmul, matmul, tsub in H.
    do 5 step_inv H.
    apply bind_inv in H. destruct H as (a4 & h5 & E4 & H).
    assert (HL : length h4 <= length h5).
    { destruct (1 <? a3).
      - apply op1_inv in E4. lia.
      - unfold ret in E4. injection E4 as <- <-. lia. }
    do 6 step_inv H. apply op2_inv in H. subst. lia.
Qed.

Local Open Scope R_scope.

(** ** [woodbury_factor] raises exactly when [M] is not positive definite *)

Lemma qform_ext n G x y :
  (forall a, (a < n)%nat -> x a = y a) -> qform n G x = qform n G y.
Proof.
  intros H. unfold qform. apply Rsum_ext. intros a Ha. apply Rsum_ext.
  intros b Hb. now rewrite (H a Ha), (H b Hb).
Qed.

Lemma zero_below_dec k (x : nat -> R) :
  (exists a, (a < k)%nat /\ x a <> 0) \/ (forall a, (a < k)%nat -> x a = 0).
Proof.
  induction k as [|k [(a & Ha & Hx)|Hz]].
  - right. intros a Ha. lia.
  - left. exists a. split; [lia|assumption].
  - destruct (Req_dec_T (x k) 0) as [E|NE].
    + right. intros a Ha. destruct (Nat.eq_dec a k) as [->|]; [assumption|].
      apply Hz. lia.
    + left. exists k. split; [lia|assumption].
Qed.

(** A form whose first diagonal entry and whose reduced form are positive
    definite is positive definite. *)
Lemma pd_from_schur0 k G :
  symmetric (S k) G -> 0 < G 0%nat 0%nat -> pd k (schur0 G) -> pd (S k) G.
Proof.
  intros HS Hpos HP x (a & Ha & Hx).
  set (t := x 0%nat). set (x' := fun i => x (S i)).
  set (c := Rsum k (fun a => x' a * G (S a) 0%nat)).
  rewrite (qform_ext (S k) G x (xcons t x')) by (intros [|b] _; reflexivity).
  rewrite (qform_xcons k G t x' HS). fold c.
  pose proof (qform_schur0 k G x' Hpos) as E. fold c in E.
  assert (Hsq : 0 <= G 0%nat 0%nat * ((t + c / G 0%nat 0%nat) * (t + c / G 0%nat 0%nat))).
  { apply Rmult_le_pos; [lra|]. apply Rle_0_sqr. }
  assert (Eq : t * t * G 0%nat 0%nat + 2 * t * c
               + qform k (fun a b => G (S a) (S b)) x'
               = G 0%nat 0%nat * ((t + c / G 0%nat 0%nat) * (t + c / G 0%nat 0%nat))
                 + qform k (schur0 G) x').
  { rewrite E. field. lra. }
  rewrite Eq.
  destruct (zero_below_dec k x') as [Hnz|Hz].
  - pose proof (HP x' Hnz). lra.
  - assert (Ht : t <> 0).
    { destruct a as [|a]; [exact Hx|]. exfalso. apply Hx. apply (Hz a). lia. }
    rewrite (qform_ext k (schur0 G) x' (fun _ => 0)) by assumption.
    rewrite qform_zero.
    assert (Ec : c = 0).
    { unfold c. apply Rsum_zero. intros b Hb. rewrite (Hz b Hb). lra. }
    rewrite Ec. unfold Rdiv. rewrite Rmult_0_l, !Rplus_0_r.
    apply Rmult_lt_0_compat; [assumption|].
    destruct (Rtotal_order t 0) as [Hn|[E0|Hp]]; [nra|contradiction|nra].
Qed.

(** [chol] succeeds only on a positive definite matrix. *)
Lemma chol_some_pd k : forall G,
  symmetric k G -> chol k (rowsF k k G) <> None -> pd k G.
Proof.
  induction k as [|k IH]; intros G HS H.
  - intros x (a & Ha & _). lia.
  - cbn [chol] in H. rewrite ent_rowsF in H by lia. cbn [ngtb] in H.
    destruct (Rlt_dec 0 (G 0%nat 0%nat)) as [Hpos|]; [|congruence].
    pose proof (sqrt_lt_R0 _ Hpos) as Hl.
    rewrite nsqrt_fin in H by lra.
    assert (EM : tab k (fun i => tab k (fun j =>
               nsub (ent (rowsF (S k) (S k) G) (S i) (S j))
                 (nmul (ndiv (ent (rowsF (S k) (S k) G) (S i) 0) (Fin (sqrt (G 0%nat 0%nat))))
                       (ndiv (ent (rowsF (S k) (S k) G) (S j) 0) (Fin (sqrt (G 0%nat 0%nat)))))))
               = rowsF k k (schur0 G)).
    { unfold rowsF at 4. apply tab_ext. intros i Hi. apply tab_ext. intros j Hj.
      rewrite !ent_rowsF by lia. rewrite !ndiv_fin by lra. reflexivity. }
    rewrite EM in H.
    apply pd_from_schur0; auto.
    apply IH; [now apply schur0_sym|].
    intro E. rewrite E in H. congruence.
Qed.

Lemma t_cholesky_not_pd k G :
  symmetric k G -> ~ pd k G ->
  t_cholesky (matF k k G) = Raise NotPositiveDefinite.
Proof.
  intros HS HP. unfold t_cholesky, matF. rewrite rowsF_length, Nat.eqb_refl.
  destruct (chol k (rowsF k k G)) as [L|] eqn:E; [|reflexivity].
  exfalso. apply HP. apply chol_some_pd; [assumption|]. congruence.
Qed.

(** X21.  For a real [k x n] matrix [V] and [n >= 1] nonzero real shifts,
    [woodbury_factor] raises the error of [torch.cholesky] if and only if the
    matrix [M = V diag(inv_shift) V' + I / scale] that it factors is not
    positive definite. *)
Theorem woodbury_factor_raises_iff_not_pd (h : heap) rV rs half V shift :
  Forall (fun r => length r = length shift) V ->
  shift <> [] -> Forall (fun s => s <> 0) shift ->
  nth_error h rV = Some (T2 (length shift) (emb V)) ->
  nth_error h rs = Some (T1 (map Fin shift)) ->
  (woodbury_factor rV rs half h = Raise NotPositiveDefinite
   <-> ~ pd (length V) (wb_M V shift)).
Proof.
  intros HR Hne Hnz HV Hs. split.
  - intros E HP.
    destruct (woodbury_factor_run h rV rs half (length V) V shift eq_refl HR Hne Hnz
                HV Hs HP) as (r & h' & E' & _).
    rewrite E in E'. discriminate E'.
  - intros HP.
    pose proof (wb_scale_pos shift Hne Hnz) as Hpos.
    pose proof (wb_M_sym V shift (length V)) as HS.
    set (n := length shift) in *. set (k := length V) in *.
    rewrite (emb_matF k n V eq_refl HR) in HV.
    unfold woodbury_factor.
    erewrite bind_run; cycle 1.
    { eapply size_rows_run; [eassumption|apply t_size_rows_matF]. }
    match goal with
    | |- bind (reciprocal _) (fun i => bind (tabs i) (fun a =>
           bind (tmaxall a) (fun s => bind (tdiv i s) (fun i' => @?K i' s)))) _ = _ =>
        destruct (scale_run shift h rs _ K Hne Hnz Hs) as (h1 & ri & rc & Hfr & Hi & Hc & ->)
    end.
    fold n in Hi. apply Hfr in HV. clear Hfr Hs h.
    unfold unsqueeze, transpose, tmul, matmul, eye, tdiv, tadd, tcopy, cholesky.
    set (v11 := matF k k (wb_M V shift)).
    destruct half.
    + factor_prefix.
      erewrite bind_run; cycle 1.
      { eapply op1_run with (v := v11); [lookup|reflexivity]. }
      apply bind_raise. eapply op1_raise; [lookup|]. now apply t_cholesky_not_pd.
    + factor_prefix.
      apply bind_raise. eapply op1_raise with (t := v11); [lookup|].
      now apply t_cholesky_not_pd.
Qed.

Local Close Scope R_scope.

(** ** A zero in the shift *)

Lemma bdim_same a : bdim a a = Some a.
Proof. unfold bdim. now rewrite Nat.eqb_refl. Qed.

Lemma bdim_one_r a : bdim a 1 = Some a.
Proof. unfold bdim. destruct (Nat.eqb_spec a 1) as [->|]; reflexivity. Qed.

Lemma bdim_one_l a : bdim 1 a = Some a.
Proof. unfold bdim. destruct (Nat.eqb_spec 1 a) as [<-|]; reflexivity. Qed.

Lemma nth_bidx_const (A : Type) n j (x d : A) :
  j < n -> nth (bidx n j) (tab n (fun _ => x)) d = x.
Proof.
  intros H. unfold bidx. destruct (n =? 1); apply nth_tab; lia.
Qed.

Lemma ent_bidx_const r c i j x :
  i < r -> j < c ->
  ent (tab r (fun _ => tab c (fun _ => x))) (bidx r i) (bidx c j) = x.
Proof.
  intros Hi Hj. unfold ent.
  rewrite (nth_bidx_const _ r i (tab c (fun _ => x)) [] Hi).
  now apply nth_bidx_const.
Qed.

Lemma tab_const_repeat (A : Type) n (x : A) : tab n (fun _ => x) = repeat x n.
Proof.
  unfold tab. generalize 0. induction n as [|n IH]; intros s; simpl; [reflexivity|].
  f_equal. apply IH.
Qed.

(** Elementwise operations where one operand has no real entry. *)
Lemma t_bop_vec_nan_scalar f v :
  (forall x, f x NaN = NaN) ->
  t_bop f (T1 v) (T0 NaN) = Ok (T1 (tab (length v) (fun _ => NaN))).
Proof.
  intros H. unfold t_bop. cbn [shape2 rank Nat.max].
  rewrite bdim_same, bdim_one_r. unfold mk_tensor. f_equal. f_equal.
  apply tab_ext. intros j Hj. apply H.
Qed.

Lemma t_bop_mat_nan_scalar f k :
  (forall x, f x NaN = NaN) ->
  t_bop f (t_eye k) (T0 NaN)
  = Ok (T2 k (tab k (fun _ => tab k (fun _ => NaN)))).
Proof.
  intros H. unfold t_bop, t_eye. cbn [shape2 rank Nat.max].
  rewrite tab_length, !bdim_one_r. unfold mk_tensor. f_equal. f_equal.
  apply tab_ext. intros i Hi. apply tab_ext. intros j Hj. apply H.
Qed.

Lemma t_bop_nanvec_vec f n v :
  (forall y, f NaN y = NaN) -> length v = n ->
  t_bop f (T1 (tab n (fun _ => NaN))) (T1 v) = Ok (T1 (tab n (fun _ => NaN))).
Proof.
  intros H Hv. unfold t_bop. cbn [shape2 rank Nat.max].
  rewrite tab_length, Hv, !bdim_same. unfold mk_tensor. f_equal. f_equal.
  apply tab_ext. intros j Hj. cbn [tent]. rewrite nth_bidx_const by assumption.
  apply H.
Qed.

Lemma t_bop_nanvec_scalar f n x :
  (forall y, f NaN y = NaN) ->
  t_bop f (T1 (tab n (fun _ => NaN))) (T0 x) = Ok (T1 (tab n (fun _ => NaN))).
Proof.
  intros H. unfold t_bop. cbn [shape2 rank Nat.max].
  rewrite tab_length, bdim_same, bdim_one_r. unfold mk_tensor. f_equal. f_equal.
  apply tab_ext. intros j Hj. cbn [tent]. rewrite nth_bidx_const by assumption.
  apply H.
Qed.

Lemma t_bop_nancol_mat f n k rows :
  (forall y, f NaN y = NaN) -> length rows = n ->
  t_bop f (T2 1 (tab n (fun _ => tab 1 (fun _ => NaN)))) (T2 k rows)
  = Ok (T2 k (tab n (fun _ => tab k (fun _ => NaN)))).
Proof.
  intros H Hr. unfold t_bop. cbn [shape2 rank Nat.max].
  rewrite tab_length, Hr, bdim_same, bdim_one_l. unfold mk_tensor. f_equal. f_equal.
  apply tab_ext. intros i Hi. apply tab_ext. intros j Hj. cbn [tent].
  unfold ent at 1. rewrite (nth_bidx_const _ n i (tab 1 (fun _ => NaN)) [] Hi).
  cbn. apply H.
Qed.

Lemma t_bop_nanmat_mat f r c rows :
  (forall y, f NaN y = NaN) -> length rows = r ->
  t_bop f (T2 c (tab r (fun _ => tab c (fun _ => NaN)))) (T2 c rows)
  = Ok (T2 c (tab r (fun _ => tab c (fun _ => NaN)))).
Proof.
  intros H Hr. unfold t_bop. cbn [shape2 rank Nat.max].
  rewrite tab_length, Hr, !bdim_same. unfold mk_tensor. f_equal. f_equal.
  apply tab_ext. intros i Hi. apply tab_ext. intros j Hj. cbn [tent].
  rewrite ent_bidx_const by assumption. apply H.
Qed.

Lemma nsum_tab_nan n (g : nat -> num) :
  0 < n -> (forall l, l < n -> g l = NaN) -> nsum (tab n g) = NaN.
Proof.
  intros Hn H. apply nsum_nan. rewrite <- (H 0 Hn).
  unfold tab. apply in_map. apply in_seq. lia.
Qed.

(** The first four lines of both functions when the shift has a zero:
    [scale] and every entry of [inv_shift] are without a real value. *)
Lemma scale_run_zero shift (h : heap) rs (B : Type) (K : ref -> ref -> M B) :
  In 0%R shift ->
  nth_error h rs = Some (T1 (map Fin shift)) ->
  exists h1 ri rc,
    (forall p t, nth_error h p = Some t -> nth_error h1 p = Some t) /\
    nth_error h1 ri = Some (T1 (tab (length shift) (fun _ => NaN))) /\
    nth_error h1 rc = Some (T0 NaN) /\
    (inv_shift <- reciprocal rs ;;
     a <- tabs inv_shift ;;
     scale <- tmaxall a ;;
     inv_shift <- tdiv inv_shift scale ;;
     K inv_shift scale) h
    = K ri rc h1.
Proof.
  intros Hz Hs.
  set (v1 := T1 (map nrecip (map Fin shift))).
  set (v2 := T1 (map nabs (map nrecip (map Fin shift)))).
  set (v3 := T0 NaN).
  set (v4 := T1 (tab (length shift) (fun _ : nat => NaN))).
  exists ((((h ++ [v1]) ++ [v2]) ++ [v3]) ++ [v4]).
  exists (length (((h ++ [v1]) ++ [v2]) ++ [v3])), (length ((h ++ [v1]) ++ [v2])).
  split; [intros p t Hp; lookup|].
  split; [lookup|]. split; [lookup|].
  unfold reciprocal, tabs, tmaxall, tdiv.
  erewrite bind_run; cycle 1.
  { eapply op1_run with (v := v1); [lookup|reflexivity]. }
  erewrite bind_run; cycle 1.
  { eapply op1_run with (v := v2); [lookup|reflexivity]. }
  erewrite bind_run; cycle 1.
  { eapply op1_run with (v := v3); [lookup|].
    unfold v2, v3, t_max.
    destruct (tmax_nan (map nabs (map nrecip (map Fin shift)))) as [i ->];
      [|reflexivity].
    rewrite !map_map. apply in_map_iff. exists 0%R. split; [|exact Hz].
    unfold nrecip. now rewrite ndiv_zero_r. }
  erewrite bind_run; cycle 1.
  { eapply op2_run with (v := v4); [lookup|lookup|].
    unfold v1, v3, v4. rewrite (t_bop_vec_nan_scalar ndiv) by apply ndiv_nan_r.
    now rewrite !length_map. }
  reflexivity.
Qed.

Lemma nmul_nan_r x : nmul x NaN = NaN.
Proof. now destruct x. Qed.

(** X22.  With a zero among the shifts the reciprocal has no real value, and
    neither has anything computed from it: on a matrix with at least one row,
    [woodbury_factor] raises the error of [torch.cholesky]. *)
Theorem zero_shift_factor_raises (h : heap) rV rs half shift rows :
  In 0%R shift -> rows <> [] ->
  nth_error h rs = Some (T1 (map Fin shift)) ->
  nth_error h rV = Some (T2 (length shift) rows) ->
  woodbury_factor rV rs half h = Raise NotPositiveDefinite.
Proof.
  intros Hz Hrows Hs HV.
  assert (Hn : 0 < length shift) by (destruct shift; [contradiction|simpl; lia]).
  set (n := length shift) in *. set (k := length rows).
  assert (Hk : 0 < k) by (unfold k; destruct rows; [congruence|simpl; lia]).
  unfold woodbury_factor.
  erewrite bind_run; cycle 1.
  { eapply size_rows_run; [eassumption|reflexivity]. }
  match goal with
  | |- bind (reciprocal _) (fun i => bind (tabs i) (fun a =>
         bind (tmaxall a) (fun s => bind (tdiv i s) (fun i' => @?K i' s)))) _ = _ =>
      destruct (scale_run_zero shift h rs _ K Hz Hs) as (h1 & ri & rc & Hfr & Hi & Hc & ->)
  end.
  fold n in Hi. apply Hfr in HV. clear Hfr Hs h.
  unfold unsqueeze, transpose, tmul, matmul, eye, tdiv, tadd, tcopy, cholesky.
  fold k.
  set (nanm := T2 k (tab k (fun _ : nat => tab k (fun _ : nat => NaN)))).
  assert (Echol : t_cholesky nanm = Raise NotPositiveDefinite).
  { unfold nanm, t_cholesky. rewrite tab_length, Nat.eqb_refl.
    destruct k as [|k']; [lia|]. cbn [chol].
    unfold ent at 1. rewrite (nth_tab _ (S k') _ 0 []) by lia.
    rewrite nth_tab by lia. reflexivity. }
  erewrite bind_run; cycle 1.
  { eapply op1_run; [lookup|]. cbn [t_unsqueeze]. rewrite map_tab. reflexivity. }
  erewrite bind_run; cycle 1.
  { eapply op1_run; [lookup|reflexivity]. }
  erewrite bind_run; cycle 1.
  { eapply op2_run; [lookup|lookup|].
    apply (t_bop_nancol_mat nmul n k); [reflexivity|apply tab_length]. }
  erewrite bind_run; cycle 1.
  { eapply op2_run with (v := nanm); [lookup|lookup|].
    unfold t_matmul. rewrite tab_length, Nat.eqb_refl. fold k. unfold nanm.
    f_equal. f_equal. apply tab_ext. intros i Hi'. apply tab_ext. intros j Hj.
    apply nsum_tab_nan; [assumption|]. intros l Hl.
    unfold ent at 2. rewrite (nth_tab _ n _ l []) by assumption.
    rewrite nth_tab by assumption. apply nmul_nan_r. }
  erewrite bind_run; cycle 1.
  { unfold alloc. reflexivity. }
  erewrite bind_run; cycle 1.
  { eapply op2_run with (v := nanm); [lookup|lookup|].
    apply (t_bop_mat_nan_scalar ndiv). apply ndiv_nan_r. }
  erewrite bind_run; cycle 1.
  { eapply op2_run with (v := nanm); [lookup|lookup|].
    apply (t_bop_nanmat_mat nadd k k); [reflexivity|].
    now rewrite tab_length. }
  destruct half.
  - erewrite bind_run; cycle 1.
    { eapply op1_run with (v := nanm); [lookup|reflexivity]. }
    apply bind_raise. eapply op1_raise; [lookup|exact Echol].
  - apply bind_raise. eapply op1_raise; [lookup|exact Echol].
Qed.

(** X23.  [woodbury_solve] has no test either: with a zero among the shifts it
    returns, without an error, a vector whose entries are all nan. *)
Theorem zero_shift_solve_is_nan (h : heap) rb rV rR rs shift b rowsV rowsR :
  In 0%R shift -> length b = length shift -> length rowsV = length rowsR ->
  nth_error h rs = Some (T1 (map Fin shift)) ->
  nth_error h rb = Some (T1 b) ->
  nth_error h rV = Some (T2 (length shift) rowsV) ->
  nth_error h rR = Some (T2 (length shift) rowsR) ->
  exists r h',
    woodbury_solve rb rV rR rs h = Ok (r, h') /\
    nth_error h' r = Some (T1 (repeat NaN (length shift))).
Proof.
  intros Hz Hb Hk Hs Hrb HV HR.
  assert (Hn : 0 < length shift) by (destruct shift; [contradiction|simpl; lia]).
  set (n := length shift) in *.
  unfold woodbury_solve.
  match goal with
  | |- exists r h', bind (reciprocal _) (fun i => bind (tabs i) (fun a =>
         bind (tmaxall a) (fun s => bind (tdiv i s) (fun i' => @?K i' s)))) _ = _ /\ _ =>
      destruct (scale_run_zero shift h rs _ K Hz Hs) as (h1 & ri & rc & Hfr & Hi & Hc & ->)
  end.
  fold n in Hi. apply Hfr in HV, HR, Hrb. clear Hfr Hs h.
  unfold unsqueeze, transpose, tmul, matmul, tsub.
  set (nanv := T1 (tab n (fun _ : nat => NaN))) in *.
  do 2 eexists.
  erewrite bind_run; cycle 1.
  { eapply ndimension_run. eassumption. }
  cbn [rank Nat.ltb Nat.leb].
  erewrite bind_run; cycle 1.
  { reflexivity. }
  erewrite bind_run; cycle 1.
  { eapply op2_run with (v := nanv); [lookup|lookup|].
    now apply (t_bop_nanvec_vec nmul). }
  erewrite bind_run; cycle 1.
  { eapply op1_run; [lookup|reflexivity]. }
  erewrite bind_run; cycle 1.
  { eapply op2_run; [lookup|lookup|].
    cbn [t_matmul]. rewrite Hk, Nat.eqb_refl. reflexivity. }
  erewrite bind_run; cycle 1.
  { eapply op2_run with (v := nanv); [lookup|lookup|].
    unfold nanv. cbn [t_matmul]. rewrite !tab_length, Nat.eqb_refl.
    f_equal. f_equal. apply tab_ext. intros i Hi'.
    apply nsum_tab_nan; [assumption|]. intros l Hl.
    rewrite nth_tab by assumption. apply nmul_nan_r. }
  erewrite bind_run; cycle 1.
  { eapply op2_run with (v := nanv); [lookup|lookup|].
    apply (t_bop_nanvec_vec nmul); [reflexivity|apply tab_length]. }
  erewrite bind_run; cycle 1.
  { eapply op2_run with (v := nanv); [lookup|lookup|].
    apply (t_bop_nanvec_vec nsub); [reflexivity|apply tab_length]. }
  split.
  - eapply op2_run with (v := nanv); [lookup|lookup|].
    now apply (t_bop_nanvec_scalar nmul).
  - rewrite nth_error_snoc_new. unfold nanv. now rewrite tab_const_repeat.
Qed.

Local Open Scope R_scope.

(** ** A shift of one entry *)

Lemma t_bop_one_mat f f' r c g1 g2 :
  (forall i j, (i < r)%nat -> (j < c)%nat ->
     f (Fin (g1 0%nat 0%nat)) (Fin (g2 i j)) = Fin (f' (g1 0%nat 0%nat) (g2 i j))) ->
  t_bop f (matF 1 1 g1) (matF r c g2) =
  Ok (matF r c (fun i j => f' (g1 0%nat 0%nat) (g2 i j))).
Proof.
  intros H. unfold t_bop, matF. cbn [shape2 rank Nat.max]. rewrite !rowsF_length.
  rewrite !bdim_one_l. unfold mk_tensor. f_equal. f_equal.
  apply tab_ext. intros i Hi. apply tab_ext. intros j Hj. cbn [tent].
  assert (E2 : ent (rowsF r c g2) (bidx r i) (bidx c j) = Fin (g2 i j)).
  { unfold bidx. destruct (Nat.eqb_spec r 1), (Nat.eqb_spec c 1); subst;
      try (assert (i = 0%nat) by lia; subst i);
      try (assert (j = 0%nat) by lia; subst j);
      apply ent_rowsF; lia. }
  rewrite E2. cbn. now apply H.
Qed.

Lemma t_bop_one_vec f f' n g1 g2 :
  (forall j, (j < n)%nat ->
     f (Fin (g1 0%nat)) (Fin (g2 j)) = Fin (f' (g1 0%nat) (g2 j))) ->
  t_bop f (vecF 1 g1) (vecF n g2) = Ok (vecF n (fun j => f' (g1 0%nat) (g2 j))).
Proof.
  intros H. unfold t_bop, vecF. cbn [shape2 rank Nat.max]. rewrite !tab_length.
  rewrite bdim_same, bdim_one_l. unfold mk_tensor. f_equal. f_equal.
  apply tab_ext. intros j Hj. cbn [tent].
  assert (E2 : nth (bidx n j) (tab n (fun j0 => Fin (g2 j0))) d0 = Fin (g2 j)).
  { unfold bidx. destruct (Nat.eqb_spec n 1).
    - subst n. assert (j = 0%nat) by lia. subst j. reflexivity.
    - now apply nth_tab. }
  rewrite E2. cbn. now apply H.
Qed.

Lemma fold_Rmax_repeat x n : fold_left Rmax (repeat x n) x = x.
Proof.
  induction n as [|n IH]; simpl; [reflexivity|].
  rewrite Rmax_left by lra. exact IH.
Qed.

Lemma wb_scale_repeat sigma n :
  (0 < n)%nat -> wb_scale (repeat sigma n) = wb_scale [sigma].
Proof.
  intros Hn. unfold wb_scale. destruct n as [|n]; [lia|]. simpl.
  rewrite map_repeat. apply fold_Rmax_repeat.
Qed.

Lemma wb_inv_repeat sigma n j :
  (j < n)%nat -> wb_inv (repeat sigma n) j = wb_inv [sigma] 0.
Proof.
  intros Hj. unfold wb_inv. rewrite wb_scale_repeat by lia.
  rewrite nth_repeat_lt by assumption. reflexivity.
Qed.

Lemma wb_M_repeat V sigma n a c :
  (0 < n)%nat ->
  Rsum n (fun l => entR V a l * (wb_inv [sigma] 0 * entR V c l))
  + (if (a =? c)%nat then 1 else 0) / wb_scale [sigma]
  = wb_M V (repeat sigma n) a c.
Proof.
  intros Hn. unfold wb_M. rewrite repeat_length, wb_scale_repeat by assumption.
  f_equal. apply Rsum_ext. intros l Hl. now rewrite wb_inv_repeat.
Qed.

(** [woodbury_factor] with a shift of one entry, which broadcasts against
    the [n] columns. *)
Lemma woodbury_factor_run_one (h : heap) rV rs half k n V sigma :
  length V = k -> Forall (fun r => length r = n) V ->
  (0 < n)%nat -> sigma <> 0 ->
  nth_error h rV = Some (T2 n (emb V)) ->
  nth_error h rs = Some (T1 [Fin sigma]) ->
  pd k (wb_M V (repeat sigma n)) ->
  exists r h',
    woodbury_factor rV rs half h = Ok (r, h') /\
    nth_error h' r =
      Some (matF k n (potrs_fun k (wb_M V (repeat sigma n)) (entR V))).
Proof.
  intros HL HR Hn Hsig HV Hs HP.
  assert (Hne : [sigma] <> []) by discriminate.
  assert (Hnz : Forall (fun s => s <> 0) [sigma]) by (constructor; auto).
  pose proof (wb_scale_pos [sigma] Hne Hnz) as Hpos.
  pose proof (wb_M_sym V (repeat sigma n) k) as HS.
  rewrite (emb_matF k n V HL HR) in HV.
  unfold woodbury_factor.
  erewrite bind_run; cycle 1.
  { eapply size_rows_run; [eassumption|apply t_size_rows_matF]. }
  match goal with
  | |- exists r h', bind (reciprocal _) (fun i => bind (tabs i) (fun a =>
         bind (tmaxall a) (fun s => bind (tdiv i s) (fun i' => @?K i' s)))) _ = _ /\ _ =>
      destruct (scale_run [sigma] h rs _ K Hne Hnz Hs) as (h1 & ri & rc & Hfr & Hi & Hc & ->)
  end.
  cbn [length] in Hi. apply Hfr in HV. clear Hfr Hs h.
  unfold unsqueeze, transpose, tmul, matmul, eye, tdiv, tadd, tcopy, cholesky,
    potrs, tsub, tnorm.
  set (G := wb_M V (repeat sigma n)) in *.
  set (v11 := matF k k G).
  set (v12 := matF k k (chol_fun k G)).
  set (v13 := matF k n (potrs_fun k G (entR V))).
  assert (Pre : forall (B : Type) (K : ref -> M B) h0,
            (forall p t, nth_error h1 p = Some t -> nth_error h0 p = Some t) ->
            exists h2 rm,
              (forall p t, nth_error h0 p = Some t -> nth_error h2 p = Some t) /\
              nth_error h2 rm = Some v11 /\
              (inv_shift <- op1 t_unsqueeze ri ;;
               vt <- op1 t_transpose rV ;;
               p <- op2 (t_bop nmul) inv_shift vt ;;
               shifted_mat <- op2 t_matmul rV p ;;
               e <- alloc (t_eye k) ;;
               e <- op2 (t_bop ndiv) e rc ;;
               shifted_mat <- op2 (t_bop nadd) shifted_mat e ;;
               K shifted_mat) h0 = K rm h2).
  { intros B K h0 Hfr.
    pose proof (Hfr _ _ HV) as HV0. pose proof (Hfr _ _ Hi) as Hi0.
    pose proof (Hfr _ _ Hc) as Hc0.
    do 2 eexists. split; [|split]; cycle 2.
    - erewrite bind_run; [|eapply op1_run; [lookup|apply t_unsqueeze_vecF]].
      erewrite bind_run; [|eapply op1_run; [lookup|apply t_transpose_matF]].
      erewrite bind_run;
        [|eapply op2_run; [lookup|lookup|apply (t_bop_one_mat nmul Rmult); reflexivity]].
      erewrite bind_run; [|eapply op2_run; [lookup|lookup|apply t_matmul_matF]].
      erewrite bind_run; [|unfold alloc; rewrite t_eye_matF; reflexivity].
      erewrite bind_run;
        [|eapply op2_run; [lookup|lookup|
            apply (t_bop_mat_scalar ndiv Rdiv); intros; apply ndiv_fin; lra]].
      erewrite bind_run;
        [|eapply op2_run; [lookup|lookup|
            rewrite (t_bop_mat_mat nadd Rplus) by reflexivity; reflexivity]].
      reflexivity.
    - intros p t Hp. lookup.
    - rewrite nth_error_snoc_new. f_equal. unfold v11. apply matF_ext.
      intros a c _ _. unfold G. now apply wb_M_repeat. }
  destruct half.
  - destruct (Pre _ (fun shifted_mat =>
        sf <- op1 (fun t => Ok t) shifted_mat ;;
        ch <- op1 t_cholesky sf ;;
        vf <- op1 (fun t => Ok t) rV ;;
        R <- op2 t_potrs vf ch ;; op1 (fun t => Ok t) R) h1 ltac:(auto))
      as (h2 & rm & Hfr2 & Hm & ->).
    apply Hfr2 in HV. do 2 eexists.
    erewrite bind_run; cycle 1.
    { eapply op1_run with (v := v11); [lookup|reflexivity]. }
    erewrite bind_run; cycle 1.
    { eapply op1_run with (v := v12); [lookup|]. now apply t_cholesky_matF. }
    erewrite bind_run; cycle 1.
    { eapply op1_run with (v := matF k n (entR V)); [lookup|reflexivity]. }
    erewrite bind_run; cycle 1.
    { eapply op2_run with (v := v13); [lookup|lookup|]. now apply t_potrs_matF. }
    split.
    + eapply op1_run with (v := v13); [lookup|reflexivity].
    + lookup.
  - destruct (Pre _ (fun shifted_mat =>
        ch <- op1 t_cholesky shifted_mat ;;
        R <- op2 t_potrs rV ch ;;
        t1 <- op2 t_matmul shifted_mat R ;;
        t2 <- op2 (t_bop nsub) t1 rV ;;
        _ <- op1 (fun t => Ok (t_norm t)) t2 ;; ret R) h1 ltac:(auto))
      as (h2 & rm & Hfr2 & Hm & ->).
    apply Hfr2 in HV. do 2 eexists.
    erewrite bind_run; cycle 1.
    { eapply op1_run with (v := v12); [lookup|]. now apply t_cholesky_matF. }
    erewrite bind_run; cycle 1.
    { eapply op2_run with (v := v13); [lookup|lookup|]. now apply t_potrs_matF. }
    erewrite bind_run; cycle 1.
    { eapply op2_run; [lookup|lookup|]. apply t_matmul_matF. }
    erewrite bind_run; cycle 1.
    { eapply op2_run; [lookup|lookup|].
      apply (t_bop_mat_mat nsub Rminus). reflexivity. }
    erewrite bind_run; cycle 1.
    { eapply op1_run; [lookup|reflexivity]. }
    split; [reflexivity|]. lookup.
Qed.

(** [woodbury_solve] with a shift of one entry. *)
Lemma woodbury_solve_run_one (h : heap) rb rV rR rs V sigma b n X :
  Forall (fun r => length r = n) V -> (0 < n)%nat -> sigma <> 0 ->
  length b = n ->
  nth_error h rb = Some (T1 (map Fin b)) ->
  nth_error h rV = Some (T2 n (emb V)) ->
  nth_error h rR = Some (matF (length V) n X) ->
  nth_error h rs = Some (T1 [Fin sigma]) ->
  exists r h',
    woodbury_solve rb rV rR rs h = Ok (r, h') /\
    nth_error h' r = Some (vecF n (wb_x V (repeat sigma n) b X)).
Proof.
  intros HR Hn Hsig Hb Hrb HV HX Hs.
  assert (Hne : [sigma] <> []) by discriminate.
  assert (Hnz : Forall (fun s => s <> 0) [sigma]) by (constructor; auto).
  pose proof (wb_scale_pos [sigma] Hne Hnz) as Hpos.
  set (k := length V) in *.
  rewrite (emb_matF k n V eq_refl HR) in HV.
  rewrite (vec_tab n b Hb) in Hrb.
  change (T1 (tab n (fun j => Fin (nth j b 0)))) with (vecF n (fun j => nth j b 0)) in Hrb.
  unfold woodbury_solve.
  match goal with
  | |- exists r h', bind (reciprocal _) (fun i => bind (tabs i) (fun a =>
         bind (tmaxall a) (fun s => bind (tdiv i s) (fun i' => @?K i' s)))) _ = _ /\ _ =>
      destruct (scale_run [sigma] h rs _ K Hne Hnz Hs) as (h1 & ri & rc & Hfr & Hi & Hc & ->)
  end.
  cbn [length] in Hi. apply Hfr in HV, HX, Hrb. clear Hfr Hs h.
  unfold unsqueeze, transpose, tmul, matmul, tsub.
  do 2 eexists.
  erewrite bind_run; cycle 1.
  { eapply ndimension_run. eassumption. }
  cbn [rank vecF Nat.ltb Nat.leb].
  erewrite bind_run; cycle 1.
  { reflexivity. }
  erewrite bind_run; cycle 1.
  { eapply op2_run; [lookup|lookup|].
    apply (t_bop_one_vec nmul Rmult). reflexivity. }
  erewrite bind_run; cycle 1.
  { eapply op1_run; [lookup|apply t_transpose_matF]. }
  erewrite bind_run; cycle 1.
  { eapply op2_run; [lookup|lookup|apply t_matmul_matF]. }
  erewrite bind_run; cycle 1.
  { eapply op2_run; [lookup|lookup|apply t_matmul_matF_vecF]. }
  erewrite bind_run; cycle 1.
  { eapply op2_run; [lookup|lookup|].
    apply (t_bop_one_vec nmul Rmult). reflexivity. }
  erewrite bind_run; cycle 1.
  { eapply op2_run; [lookup|lookup|].
    apply (t_bop_vec_vec nsub Rminus). reflexivity. }
  split.
  - eapply op2_run; [lookup|lookup|].
    apply (t_bop_vec_scalar nmul Rmult). reflexivity.
  - rewrite nth_error_snoc_new. f_equal. apply vecF_ext. intros i Hi'.
    unfold wb_x. rewrite repeat_length, wb_scale_repeat by assumption. fold k.
    rewrite wb_inv_repeat by assumption. f_equal. f_equal. f_equal.
    apply Rsum_ext. intros l Hl. now rewrite wb_inv_repeat.
Qed.

(** X24.  A positive shift of one entry [sigma] broadcasts against the [n]
    columns of [V] and acts as [sigma I]: the two functions do not raise and
    solve [(sigma I + V' V) x = b]. *)
Theorem woodbury_one_entry_shift (h : heap) rb rV rs half V sigma b n :
  Forall (fun r => length r = n) V -> (0 < n)%nat -> 0 < sigma ->
  length b = n ->
  nth_error h rb = Some (T1 (map Fin b)) ->
  nth_error h rV = Some (T2 n (emb V)) ->
  nth_error h rs = Some (T1 [Fin sigma]) ->
  exists rR h1 rx h2 x,
    woodbury_factor rV rs half h = Ok (rR, h1) /\
    woodbury_solve rb rV rR rs h1 = Ok (rx, h2) /\
    nth_error h2 rx = Some (T1 (map Fin x)) /\
    length x = n /\
    forall i, (i < n)%nat ->
      sigma * nth i x 0
      + Rsum (length V)
          (fun a => entR V a i * Rsum n (fun j => entR V a j * nth j x 0))
      = nth i b 0.
Proof.
  intros HR Hn Hsig0 Hb Hrb HV Hs.
  assert (Hsig : sigma <> 0) by lra.
  assert (Hne : repeat sigma n <> []) by (destruct n; [lia|discriminate]).
  assert (Hnz : Forall (fun s => s <> 0) (repeat sigma n)).
  { apply Forall_forall. intros s Hs'. apply repeat_spec in Hs'. now subst. }
  assert (HP : pd (length V) (wb_M V (repeat sigma n))).
  { apply wb_M_pd_positive; [assumption|].
    apply Forall_forall. intros s Hs'. apply repeat_spec in Hs'. now subst. }
  destruct (woodbury_factor_run_one h rV rs half (length V) n V sigma eq_refl HR Hn
              Hsig HV Hs HP) as (rR & h1 & E1 & HX).
  pose proof (extends_woodbury_factor rV rs half) as Hext.
  destruct (woodbury_solve_run_one h1 rb rV rR rs V sigma b n _ HR Hn Hsig Hb
              (extends_frame _ _ _ _ _ _ _ Hext E1 Hrb)
              (extends_frame _ _ _ _ _ _ _ Hext E1 HV) HX
              (extends_frame _ _ _ _ _ _ _ Hext E1 Hs))
    as (rx & h2 & E2 & Hx).
  set (Xp := potrs_fun (length V) (wb_M V (repeat sigma n)) (entR V)) in *.
  exists rR, h1, rx, h2.
  exists (tab n (wb_x V (repeat sigma n) b Xp)).
  split; [exact E1|]. split; [exact E2|]. split; [|split].
  - rewrite Hx. unfold vecF. now rewrite map_tab.
  - apply tab_length.
  - intros i Hi.
    pose proof (wb_x_solves V (repeat sigma n) b i Hne Hnz HP) as Hsol.
    rewrite repeat_length in Hsol. specialize (Hsol Hi).
    unfold wb_apply in Hsol. rewrite repeat_length in Hsol.
    rewrite nth_repeat_lt in Hsol by assumption. exact Hsol.
Qed.

(** ** The further properties at concrete inputs *)

Lemma A_diag_factor :
  pivoted_cholesky {| bt_n := 2; bt_mats := [emb A_diag] |} 2 (Fin 0)
  = Ok [pc_L e_diag_2].
Proof. unfold pivoted_cholesky. rewrite A_diag_run. reflexivity. Qed.

Lemma factor_shape_witness :
  pivoted_cholesky {| bt_n := 2; bt_mats := [emb A_diag] |} 2 (Fin 0)
    = Ok [pc_L e_diag_2] /\
  length [pc_L e_diag_2] = 1%nat /\
  exists m, (Z.of_nat m <= 2)%Z /\ (m <= 2)%nat /\
    Forall (fun L => length L = m /\
                     Forall (fun row => length row = 2%nat) L) [pc_L e_diag_2].
Proof.
  split; [exact A_diag_factor|].
  exact (factor_shape {| bt_n := 2; bt_mats := [emb A_diag] |} 2 (Fin 0)
           [pc_L e_diag_2] A_diag_factor).
Defined.

Lemma factor_trapezoidal_witness :
  pivoted_cholesky {| bt_n := 2; bt_mats := [emb A_diag] |} 2 (Fin 0)
    = Ok [pc_L e_diag_2] /\
  exists perm, Permutation (seq 0 2) perm /\
    forall i j, (i < j)%nat -> (j < length (pc_L e_diag_2))%nat ->
      ent (pc_L e_diag_2) j (nth i perm 0%nat) = Fin 0.
Proof.
  split; [exact A_diag_factor|].
  exact (factor_trapezoidal {| bt_n := 2; bt_mats := [emb A_diag] |} 2 (Fin 0)
           [pc_L e_diag_2] (pc_L e_diag_2) A_diag_factor (or_introl eq_refl)).
Defined.

Lemma within_tolerance_no_rows_witness :
  norm1 (mdiag 1 [[Fin (-1)]]) = Fin (Rabs (-1) + 0) /\ Rabs (-1) + 0 <= 1 /\
  pivoted_cholesky A_neg 1 (Fin 1) = Ok [[]].
Proof.
  assert (H1 : Rabs (-1) + 0 <= 1) by (rewrite Rabs_left by lra; lra).
  split; [reflexivity|]. split; [exact H1|].
  apply (within_tolerance_no_rows A_neg 1 1).
  - discriminate.
  - lia.
  - intros A [<-|[]]. exists (Rabs (-1) + 0). split; [reflexivity|exact H1].
Defined.

Lemma nan_diagonal_no_rows_witness :
  ent [[NaN]] 0 0 = NaN /\
  pivoted_cholesky A_nan 1 default_tol = Ok [[]].
Proof.
  split; [reflexivity|].
  apply (nan_diagonal_no_rows A_nan 1 default_tol [[NaN]] 0%nat).
  - lia.
  - left. reflexivity.
  - simpl. lia.
  - reflexivity.
Defined.

Lemma zero_unit_cond :
  pc_cond 2 default_tol (pc_start 2 2 batch_zero_unit) = Ok true.
Proof. unfold pc_cond, default_tol. run_eval. reflexivity. Qed.

Lemma zero_unit_pivot :
  pc_pivot 0 (pc_init 2 2 (emb A_zero)) = Some (Fin 0, 0%nat).
Proof. unfold pc_pivot. run_eval. reflexivity. Qed.

Lemma zero_pivot_row_undefined_witness :
  pc_cond 2 default_tol (pc_start 2 2 batch_zero_unit) = Ok true /\
  pc_pivot 0 (pc_init 2 2 (emb A_zero)) = Some (Fin 0, 0%nat) /\
  exists e', pc_step 2 (emb A_zero) 0 (pc_init 2 2 (emb A_zero)) = Ok e' /\
    forall q, In q (skipn (0 + 1) (pc_perm e')) ->
      ent (pc_L e') 0 q = NaN /\ nth q (pc_diag e') d0 = NaN.
Proof.
  split; [exact zero_unit_cond|]. split; [exact zero_unit_pivot|].
  apply (zero_pivot_row_undefined 2 batch_zero_unit 2 default_tol
           (pc_start 2 2 batch_zero_unit) (emb A_zero)
           (pc_init 2 2 (emb A_zero)) 0%nat).
  - apply reach_start.
  - exact zero_unit_cond.
  - left. reflexivity.
  - exact zero_unit_pivot.
Defined.

Lemma psd_approximation_witness :
  sym_psd 2 A_diag /\
  exists L piv,
    pivoted_cholesky {| bt_n := 2; bt_mats := [emb A_diag] |} 1 (Fin 0)
      = Ok [L] /\
    (forall j a, (j < length L)%nat -> (a < 2)%nat -> finite (ent L j a)) /\
    psd 2 (resid A_diag L (length L)) /\
    NoDup piv /\ length piv = length L /\
    (forall p b, In p piv -> (b < 2)%nat ->
       (p < 2)%nat /\ gram L (length L) p b = entR A_diag p b) /\
    (length L = Z.to_nat (Z.min 1 (Z.of_nat 2)) \/
     Rsum 2 (fun a => resid A_diag L (length L) a a) <= 0).
Proof.
  split; [exact A_diag_sym_psd|].
  apply (psd_approximation 2 A_diag 1 0).
  - exact A_diag_sym_psd.
  - lia.
  - lra.
Defined.

Lemma e_diag_1_pivot : pc_pivot 1 e_diag_1 = Some (Fin 1, 0%nat).
Proof. reflexivity. Qed.

Lemma pivots_nonincreasing_witness :
  pc_pivot 0 (pc_init 2 2 (emb A_diag)) = Some (Fin 4, 1%nat) /\
  pc_pivot 1 e_diag_1 = Some (Fin 1, 0%nat) /\
  exists r', Fin 1 = Fin r' /\ 0 <= r' <= 4.
Proof.
  split; [exact A_diag_pivot|]. split; [exact e_diag_1_pivot|].
  apply (pivots_nonincreasing 2 [A_diag] 2 (Fin 0)
           (pc_start 2 2 [emb A_diag]) {| pc_m := 1; pc_elems := [e_diag_1] |}
           0%nat (pc_init 2 2 (emb A_diag)) e_diag_1 4 1%nat (Fin 1) 0%nat).
  - constructor; [exact A_diag_sym_psd|constructor].
  - lia.
  - apply reach_start.
  - exact A_diag_cond.
  - exact A_diag_body.
  - reflexivity.
  - reflexivity.
  - exact A_diag_pivot.
  - lra.
  - exact e_diag_1_pivot.
Defined.

Lemma max_iter_prefix_witness :
  pivoted_cholesky {| bt_n := 2; bt_mats := [emb A_diag] |} 2 (Fin 0)
    = Ok [pc_L e_diag_2] /\
  pivoted_cholesky {| bt_n := 2; bt_mats := [emb A_diag] |} 1 (Fin 0)
    = Ok (map (firstn (Z.to_nat 1)) [pc_L e_diag_2]).
Proof.
  split; [exact A_diag_factor|].
  apply (max_iter_prefix {| bt_n := 2; bt_mats := [emb A_diag] |} 1 2 (Fin 0)
           [pc_L e_diag_2]).
  - lia.
  - exact A_diag_factor.
Defined.

Lemma tolerance_prefix_witness :
  pivoted_cholesky {| bt_n := 2; bt_mats := [emb A_diag] |} 2 (Fin 0)
    = Ok [pc_L e_diag_2] /\
  exists m,
    pivoted_cholesky {| bt_n := 2; bt_mats := [emb A_diag] |} 2 (Fin 2)
    = Ok (map (firstn m) [pc_L e_diag_2]).
Proof.
  split; [exact A_diag_factor|].
  apply (tolerance_prefix {| bt_n := 2; bt_mats := [emb A_diag] |} 2 0 2
           [pc_L e_diag_2]).
  - lra.
  - exact A_diag_factor.
Defined.

Lemma pivot_is_first_maximum_witness :
  pc_pivot 0 (pc_init 2 2 (emb A_diag)) = Some (Fin 4, 1%nat) /\
  Fin 4 = nth (nth (0 + 1) (pc_perm (pc_init 2 2 (emb A_diag))) 0%nat)
            (pc_diag (pc_init 2 2 (emb A_diag))) d0 /\
  (forall k, (0 + k < length (pc_perm (pc_init 2 2 (emb A_diag))))%nat ->
     val (nth (nth (0 + k) (pc_perm (pc_init 2 2 (emb A_diag))) 0%nat)
            (pc_diag (pc_init 2 2 (emb A_diag))) d0) <= val (Fin 4)) /\
  (forall k, (k < 1)%nat ->
     val (nth (nth (0 + k) (pc_perm (pc_init 2 2 (emb A_diag))) 0%nat)
            (pc_diag (pc_init 2 2 (emb A_diag))) d0) < val (Fin 4)).
Proof.
  split; [exact A_diag_pivot|].
  apply (pivot_is_first_maximum 0 (pc_init 2 2 (emb A_diag)) (Fin 4) 1%nat).
  - repeat constructor.
  - exact A_diag_pivot.
Defined.

Lemma empty_shift_raises_witness :
  woodbury_factor 1%nat 0%nat false h_empty = Raise EmptyReduction /\
  woodbury_solve 0%nat 1%nat 1%nat 0%nat h_empty = Raise EmptyReduction.
Proof.
  apply (empty_shift_raises h_empty 0%nat 1%nat 1%nat 0%nat false 0%nat []);
    reflexivity.
Defined.

Lemma woodbury_solve_length_mismatch_witness :
  woodbury_solve 0%nat 1%nat 1%nat 2%nat h_short = Raise ShapeMismatch.
Proof.
  apply (woodbury_solve_length_mismatch h_short 0%nat 1%nat 1%nat 2%nat shift_ex
           [Fin 1; Fin 1]).
  - exact shift_ex_nonempty.
  - exact shift_ex_nonzero.
  - reflexivity.
  - reflexivity.
  - simpl. lia.
  - simpl. lia.
  - simpl. lia.
Defined.

Lemma woodbury_factor_width_mismatch_witness :
  woodbury_factor 1%nat 2%nat false h_short = Raise ShapeMismatch.
Proof.
  apply (woodbury_factor_width_mismatch h_short 1%nat 2%nat false shift_ex
           2%nat [[Fin 1; Fin 0]]).
  - exact shift_ex_nonempty.
  - exact shift_ex_nonzero.
  - reflexivity.
  - reflexivity.
  - simpl. lia.
  - simpl. lia.
Defined.

Lemma woodbury_results_are_new_witness :
  exists rR h1 rx h2,
    woodbury_factor 1%nat 2%nat false h_ex = Ok (rR, h1) /\
    woodbury_solve 0%nat 1%nat rR 2%nat h1 = Ok (rx, h2) /\
    (length h_ex <= rR < length h1)%nat /\ (length h1 <= rx < length h2)%nat.
Proof.
  destruct (woodbury_compose_run h_ex 0%nat 1%nat 2%nat false V_ex shift_ex b_ex
              V_ex_shape shift_ex_nonempty shift_ex_nonzero eq_refl
              eq_refl eq_refl eq_refl wb_M_ex_pd)
    as (rR & h1 & rx & h2 & E1 & E2 & _).
  exists rR, h1, rx, h2. split; [exact E1|]. split; [exact E2|]. split.
  - exact (proj1 (woodbury_results_are_new h_ex 0%nat 1%nat rR 2%nat false) rR h1 E1).
  - exact (proj2 (woodbury_results_are_new h1 0%nat 1%nat rR 2%nat false) rx h2 E2).
Defined.

Lemma wb_M_neg_not_pd : ~ pd (length [[1]]) (wb_M [[1]] [-1]).
Proof.
  intros HP. specialize (HP (fun _ => 1)).
  assert (E : qform (length [[1]]) (wb_M [[1]] [-1]) (fun _ => 1) = 0).
  { unfold qform, wb_M, wb_inv, wb_scale, Rlmax, entR. simpl.
    replace (1 / -1) with (-1) by lra. rewrite Rabs_left by lra. lra. }
  rewrite E in HP.
  assert (0 < 0); [|lra].
  apply HP. exists 0%nat. split; [simpl; lia|lra].
Qed.

Lemma woodbury_factor_raises_iff_not_pd_witness :
  ~ pd (length [[1]]) (wb_M [[1]] [-1]) /\
  woodbury_factor 0%nat 1%nat false h_neg = Raise NotPositiveDefinite.
Proof.
  split; [exact wb_M_neg_not_pd|].
  apply (proj2 (woodbury_factor_raises_iff_not_pd h_neg 0%nat 1%nat false
                  [[1]] [-1]
                  ltac:(repeat constructor) ltac:(discriminate)
                  ltac:(repeat constructor; lra) eq_refl eq_refl)).
  exact wb_M_neg_not_pd.
Defined.

Lemma B_ex_shape : Forall (fun r => length r = 2%nat) B_ex.
Proof. repeat constructor. Qed.

Lemma woodbury_solve_matrix_rhs_witness :
  pd (length V_ex) (wb_M V_ex shift_ex) /\
  exists rR h1 rx h2 X,
    woodbury_factor 1%nat 2%nat false h_mat = Ok (rR, h1) /\
    woodbury_solve 0%nat 1%nat rR 2%nat h1 = Ok (rx, h2) /\
    nth_error h2 rx = Some (T2 2 (emb X)) /\
    length X = length shift_ex /\
    Forall (fun r => length r = 2%nat) X /\
    forall i j, (i < length shift_ex)%nat -> (j < 2)%nat ->
      wb_apply V_ex shift_ex (wb_col X j) i = entR B_ex i j.
Proof.
  split; [exact wb_M_ex_pd|].
  apply (woodbury_solve_matrix_rhs h_mat 0%nat 1%nat 2%nat false V_ex shift_ex
           B_ex 2%nat).
  - exact V_ex_shape.
  - exact shift_ex_nonempty.
  - exact shift_ex_nonzero.
  - reflexivity.
  - exact B_ex_shape.
  - reflexivity.
  - reflexivity.
  - reflexivity.
  - exact wb_M_ex_pd.
Defined.

Lemma zero_shift_factor_raises_witness :
  In 0 [0] /\
  woodbury_factor 1%nat 2%nat false h_zero = Raise NotPositiveDefinite.
Proof.
  assert (H : In 0 [0]) by (left; reflexivity).
  split; [exact H|].
  apply (zero_shift_factor_raises h_zero 1%nat 2%nat false [0] [[Fin 1]]).
  - exact H.
  - discriminate.
  - reflexivity.
  - reflexivity.
Defined.

Lemma zero_shift_solve_is_nan_witness :
  In 0 [0] /\
  exists r h',
    woodbury_solve 0%nat 1%nat 1%nat 2%nat h_zero = Ok (r, h') /\
    nth_error h' r = Some (T1 (repeat NaN (length [0]))).
Proof.
  assert (H : In 0 [0]) by (left; reflexivity).
  split; [exact H|].
  apply (zero_shift_solve_is_nan h_zero 0%nat 1%nat 1%nat 2%nat [0] [Fin 1]
           [[Fin 1]] [[Fin 1]]).
  - exact H.
  - reflexivity.
  - reflexivity.
  - reflexivity.
  - reflexivity.
  - reflexivity.
  - reflexivity.
Defined.

Lemma shift_ex_positive : Forall (fun s => 0 < s) shift_ex.
Proof. repeat constructor; lra. Qed.

Lemma woodbury_positive_shift_witness :
  Forall (fun s => 0 < s) shift_ex /\
  exists rR h1 rx h2 x,
    woodbury_factor 1%nat 2%nat false h_ex = Ok (rR, h1) /\
    woodbury_solve 0%nat 1%nat rR 2%nat h1 = Ok (rx, h2) /\
    nth_error h2 rx = Some (T1 (map Fin x)) /\
    length x = length shift_ex /\
    forall i, (i < length shift_ex)%nat ->
      wb_apply V_ex shift_ex x i = nth i b_ex 0.
Proof.
  split; [exact shift_ex_positive|].
  apply (woodbury_positive_shift h_ex 0%nat 1%nat 2%nat false V_ex shift_ex b_ex).
  - exact V_ex_shape.
  - exact shift_ex_nonempty.
  - exact shift_ex_positive.
  - reflexivity.
  - reflexivity.
  - reflexivity.
  - reflexivity.
Defined.

Lemma woodbury_one_entry_shift_witness :
  exists rR h1 rx h2 x,
    woodbury_factor 1%nat 2%nat false h_one = Ok (rR, h1) /\
    woodbury_solve 0%nat 1%nat rR 2%nat h1 = Ok (rx, h2) /\
    nth_error h2 rx = Some (T1 (map Fin x)) /\
    length x = 3%nat /\
    forall i, (i < 3)%nat ->
      1 * nth i x 0
      + Rsum (length V_ex)
          (fun a => entR V_ex a i * Rsum 3 (fun j => entR V_ex a j * nth j x 0))
      = nth i b_ex 0.
Proof.
  apply (woodbury_one_entry_shift h_one 0%nat 1%nat 2%nat false V_ex 1 b_ex 3%nat).
  - exact V_ex_shape.
  - lia.
  - lra.
  - reflexivity.
  - reflexivity.
  - reflexivity.
  - reflexivity.
Defined.

Lemma R_ex_is_factor a j :
  (a < length V_ex)%nat -> (j < length shift_ex)%nat ->
  Rsum (length V_ex) (fun c => wb_M V_ex shift_ex a c * entR R_ex c j)
  = entR V_ex a j.
Proof.
  intros Ha Hj. unfold wb_M, wb_inv. rewrite wb_scale_ex.
  destruct a as [|[|a]]; [| |simpl in Ha; lia];
    (destruct j as [|[|[|j]]]; [| | |simpl in Hj; lia]);
    unfold entR; simpl; lra.
Qed.

Lemma woodbury_solve_given_factor_witness :
  (forall a j, (a < length V_ex)%nat -> (j < length shift_ex)%nat ->
     Rsum (length V_ex) (fun c => wb_M V_ex shift_ex a c * entR R_ex c j)
     = entR V_ex a j) /\
  exists rx h' x,
    woodbury_solve 0%nat 1%nat 3%nat 2%nat h_fac = Ok (rx, h') /\
    nth_error h' rx = Some (T1 (map Fin x)) /\
    length x = length shift_ex /\
    forall i, (i < length shift_ex)%nat ->
      wb_apply V_ex shift_ex x i = nth i b_ex 0.
Proof.
  split; [exact R_ex_is_factor|].
  apply (woodbury_solve_given_factor h_fac 0%nat 1%nat 3%nat 2%nat V_ex shift_ex
           b_ex R_ex).
  - exact V_ex_shape.
  - exact shift_ex_nonempty.
  - exact shift_ex_nonzero.
  - reflexivity.
  - reflexivity.
  - repeat constructor.
  - reflexivity.
  - reflexivity.
  - reflexivity.
  - reflexivity.
  - exact R_ex_is_factor.
Defined.

Lemma woodbury_factor_prints_zero_witness :
  pd (length V_ex) (wb_M V_ex shift_ex) /\
  exists r h0,
    woodbury_factor 1%nat 2%nat false h_ex = Ok (r, h0 ++ [T0 (Fin 0)]).
Proof.
  split; [exact wb_M_ex_pd|].
  apply (woodbury_factor_prints_zero h_ex 1%nat 2%nat V_ex shift_ex).
  - exact V_ex_shape.
  - exact shift_ex_nonempty.
  - exact shift_ex_nonzero.
  - reflexivity.
  - reflexivity.
  - exact wb_M_ex_pd.
Defined.

Lemma four_diag_batch_factor :
  pivoted_cholesky batch_four_diag 2 (Fin 2)
  = Ok [[[Fin 2; Fin 0]; [Fin 0; Fin 2]]; [[Fin 0; Fin 2]; [Fin 1; Fin 0]]].
Proof.
  unfold pivoted_cholesky, pc_run, batch_four_diag. cbn.
  change (Pos.to_nat 2) with 2%nat.
  unfold pc_loop, pc_cond, pc_body, pc_step, pc_pivot. run_eval.
  replace (4 - 0 / 2 * (0 / 2)) with 4 by lra.
  replace (1 - 0 / 2 * (0 / 2)) with 1 by lra. rewrite sqrt_4, sqrt_1.
  repeat f_equal; lra.
Qed.

Lemma diag_alone_factor :
  pivoted_cholesky {| bt_n := 2; bt_mats := [emb A_diag] |} 2 (Fin 2)
  = Ok [[[Fin 0; Fin 2]]].
Proof.
  unfold pivoted_cholesky, pc_run. cbn. change (Pos.to_nat 2) with 2%nat.
  unfold pc_loop, pc_cond, pc_body, pc_step, pc_pivot. run_eval.
  repeat f_equal; lra.
Qed.

Lemma batch_agrees_with_single_witness :
  nth_error (bt_mats batch_four_diag) 1 = Some (emb A_diag) /\
  pivoted_cholesky batch_four_diag 2 (Fin 2)
    = Ok [[[Fin 2; Fin 0]; [Fin 0; Fin 2]]; [[Fin 0; Fin 2]; [Fin 1; Fin 0]]] /\
  pivoted_cholesky {| bt_n := 2; bt_mats := [emb A_diag] |} 2 (Fin 2)
    = Ok [[[Fin 0; Fin 2]]] /\
  exists Lk m,
    nth_error
      [[[Fin 2; Fin 0]; [Fin 0; Fin 2]]; [[Fin 0; Fin 2]; [Fin 1; Fin 0]]] 1
      = Some Lk /\
    ([[Fin 0; Fin 2]] = firstn m Lk \/ Lk = firstn m [[Fin 0; Fin 2]]).
Proof.
  split; [reflexivity|].
  split; [exact four_diag_batch_factor|]. split; [exact diag_alone_factor|].
  apply (batch_agrees_with_single batch_four_diag 1%nat (emb A_diag)
           2 (Fin 2)
           [[[Fin 2; Fin 0]; [Fin 0; Fin 2]]; [[Fin 0; Fin 2]; [Fin 1; Fin 0]]]
           [[Fin 0; Fin 2]]).
  - reflexivity.
  - exact four_diag_batch_factor.
  - exact diag_alone_factor.
Defined.

Local Close Scope R_scope.
